(** * awless: the template compiler passes and the fetch cache

    A shallow embedding of [template/compile.go] (the pass pipeline) and of
    the [fetch] package (fetcher and one-shot cache), with the properties
    the specification states about them.

    Conventions.
    - A Go [interface{}] is [any]: [None] is the nil interface.
    - A Go [error] is [error]: [None] is nil, [Some msg] an error whose
      [Error()] text is [msg].
    - A Go [map[string]V] is a [gmap string V].  The order in which [range]
      enumerates a map is not fixed by the language; it is an explicit
      argument, a [rangeOrder].
    - A run-time panic is an outcome of its own, [Panicked].
    - A pointer to a node is the node: a pass that updates a node in place
      returns the statements with the node updated.  Templates own their
      statements, so no node is reached from two statements.
    - Loaders, fetch functions and the missing-holes callback act on a
      world, which is passed along.

    Layout.  [Go], [Fetch], [Ast] and [Template] hold the program; [Spec]
    and the modules named [Spec...] the notions in which the properties are
    stated; [Examples] concrete templates and environments; the modules
    named [...Props] the proofs; [Instances] the properties at the
    examples. *)

From Stdlib Require Import ZArith.
From stdpp Require Import base option list strings gmap fin_maps sorting.

Local Open Scope string_scope.
Local Open Scope list_scope.
Local Open Scope nat_scope.

(** ** Go values, errors, map enumeration *)

Module Go.

(** The dynamic values that travel as [interface{}]. *)
Inductive concrete :=
| CString (s : string)
| CInt (z : Z)
| CBool (b : bool).

Definition any := option concrete.

Definition error := option string.

(** The enumeration order of a run, as [range] picks it.  The entries
    handed in are the map's entries; what comes back is the same entries in
    the order in which the run-time system visits them.  Two runs of the
    same program may differ in it. *)
Record rangeOrder := RangeOrder {
  order :> ∀ V : Type, list (string * V) → list (string * V);
  order_perm : ∀ (V : Type) (l : list (string * V)), order V l ≡ₚ l
}.

(** [for k, v := range m]: the entries of [m] as they are visited. *)
Definition range {V : Type} (ord : rangeOrder) (m : gmap string V) : list (string * V) :=
  ord V (map_to_list m).

Definition inOrder : rangeOrder :=
  {| order := λ V l, l;
     order_perm := λ V l, reflexivity l |}.

Definition reversed : rangeOrder :=
  {| order := λ V l, reverse l;
     order_perm := λ V l, reverse_Permutation l |}.

End Go.

Export Go.

(** ** The fetch package: one-shot cache and fetcher *)

Module Fetch.

Section WithWorld.

(** [W] is whatever a loader or a fetch function acts on besides the cache
    (the cloud API it calls); [Ctx] is [context.Context]. *)
Context {W Ctx : Type}.

(** [keyCache]: [once] is true when the slot's [sync.Once] has fired. *)
Record keyCache := KeyCache {
  once : bool;
  err : error;
  result : any
}.

(** [cache]: the mutex is not represented, calls are taken one at a time. *)
Record cache := Cache {
  cached : gmap string keyCache
}.

Definition newCache : cache := {| cached := ∅ |}.

(** [func() (interface{}, error)], acting on the world. *)
Definition loader := W → (any * error) * W.

(** [cache.Get].  The slot is fetched, or created empty and put in the map;
    with a loader, the slot's one-shot guard runs [funcs[0]] unless it has
    fired; the slot's fields are returned. *)
Definition Get (c : cache) (key : string) (funcs : list loader) (w : W)
  : (any * error) * cache * W :=
  let '(slot, c1) :=
    match cached c !! key with
    | Some s => (s, c)
    | None =>
        let s := {| once := false; err := None; result := None |} in
        (s, {| cached := <[key := s]> (cached c) |})
    end in
  match funcs with
  | f :: _ =>
      if once slot then ((result slot, err slot), c1, w)
      else
        let '((r, e), w') := f w in
        let slot' := {| once := true; err := e; result := r |} in
        ((r, e), {| cached := <[key := slot']> (cached c1) |}, w')
  | [] => ((result slot, err slot), c1, w)
  end.

(** [cache.Store]: a fresh slot that holds [val]. *)
Definition Store (c : cache) (key : string) (val : any) : cache :=
  {| cached := <[key := {| once := false; err := None; result := val |}]> (cached c) |}.

(** [cache.Reset]. *)
Definition Reset (c : cache) : cache := {| cached := ∅ |}.

(** The graph package is an external collaborator: a graph is the resources
    added to it; a [*Graph] that may be nil is an [option]. *)
Record Resource := MkResource {
  resType : string;
  resId : string
}.

Definition Graph := list Resource.

Definition NewGraph : Graph := [].

Definition AddResource (g : Graph) (rs : list Resource) : Graph := (g ++ rs)%list.

Record fetchResult := FetchResult {
  ResourceType : string;
  Err : error;
  Resources : list Resource;
  Objects : any
}.

(** [fetch.Func]: it receives the context and the shared cache. *)
Definition Func := Ctx → cache → W → (list Resource * any * error) * cache * W.

Record fetcher := Fetcher {
  fcache : cache;
  fetchFuncs : gmap string Func;
  resourceTypes : list string
}.

(** [fetcher.fetchResource]; the value sent on [results] is returned. *)
Definition fetchResource (f : fetcher) (ctx : Ctx) (resourceType : string) (w : W)
  : fetchResult * fetcher * W :=
  let '((resources, objects, err), c1, w1) :=
    match fetchFuncs f !! resourceType with
    | Some fn => fn ctx (fcache f) w
    | None =>
        (([], None,
          Some ("no fetch func defined for resource type '" +:+ resourceType +:+ "'")),
         fcache f, w)
    end in
  let c2 := Store c1 (resourceType +:+ "_objects") objects in
  ({| ResourceType := resourceType; Err := err;
      Resources := resources; Objects := objects |},
   {| fcache := c2; fetchFuncs := fetchFuncs f; resourceTypes := resourceTypes f |},
   w1).

(** [fetcher.FetchByType]: the worker's result is received from the
    unbuffered channel, which is a rendezvous with the one sender. *)
Definition FetchByType (f : fetcher) (ctx : Ctx) (resourceType : string) (w : W)
  : (option Graph * error) * fetcher * W :=
  let '(res, f', w') := fetchResource f ctx resourceType w in
  let gph := NewGraph in
  match Err res with
  | Some e => ((Some gph, Some e), f', w')
  | None =>
      ((Some (fold_left (λ g r, AddResource g [r]) (Resources res) gph), None), f', w')
  end.

(** [NewFetcher]: a fetcher with a cache that holds nothing; the functions
    of [funcs] are put in one by one, as [range] enumerates them, and every
    resource type is appended to [resourceTypes]. *)
Definition NewFetcher (ord : rangeOrder) (funcs : gmap string Func) : fetcher :=
  foldl (λ ftr kv,
           {| fcache := fcache ftr;
              fetchFuncs := <[kv.1 := kv.2]> (fetchFuncs ftr);
              resourceTypes := (resourceTypes ftr ++ [kv.1])%list |})
        {| fcache := newCache; fetchFuncs := ∅; resourceTypes := [] |}
        (range ord funcs).

End WithWorld.

End Fetch.

(** ** The syntax tree, the parameter rules and the commands *)

Module Ast.

(** Modelled from the spec: the [ast] package (section 3, Data model) is not
    among the sources.  A value is one of the five variants the
    specification lists.  A literal and an interface value are resolved and
    hold a concrete value; a hole has a name and may list candidates; a
    reference names an earlier declaration; an alias names an entity. *)
Inductive Value :=
| LiteralValue (v : concrete)
| HoleValue (hole : string) (candidates : list string)
| RefValue (ref : string)
| AliasValue (alias : string)
| InterfaceValue (v : concrete).

(** Modelled from the spec: [CompositeValue.Value()], nil while the value is
    a hole, a reference or an alias. *)
Definition valueOf (v : Value) : any :=
  match v with
  | LiteralValue c | InterfaceValue c => Some c
  | HoleValue _ _ | RefValue _ | AliasValue _ => None
  end.

(** Modelled from the spec: [ast.NewHoleValue], a hole with no candidates. *)
Definition NewHoleValue (name : string) : Value := HoleValue name [].

(** Modelled from the spec: the [WithRefs] capability of a value. *)
Definition valueGetRefs (v : Value) : list string :=
  match v with
  | RefValue r => [r]
  | _ => []
  end.

(** Modelled from the spec: [IsRef] of a value with references, whether
    the value is the reference to [key]. *)
Definition valueIsRef (key : string) (v : Value) : bool :=
  match v with
  | RefValue r => bool_decide (r = key)
  | _ => false
  end.

(** Modelled from the spec: the [WithHoles] capability of a value,
    "enumerate (hole→candidates); process(fillers)→resolved names".  A hole
    filled with a concrete value becomes that value; the names found among
    the fillers are reported. *)
Definition valueGetHoles (v : Value) : gmap string (list string) :=
  match v with
  | HoleValue h cands => {[ h := cands ]}
  | _ => ∅
  end.

(** Modelled from the spec: [ProcessHoles] of a value.  A filler that is
    nil leaves the hole open. *)
Definition valueProcessHoles (fills : gmap string any) (v : Value)
  : Value * gmap string any :=
  match v with
  | HoleValue h _ =>
      match fills !! h with
      | Some (Some c) => (LiteralValue c, {[ h := Some c ]})
      | Some None => (v, {[ h := None ]})
      | None => (v, ∅)
      end
  | _ => (v, ∅)
  end.

(** Modelled from the spec: the [WithAlias] capability of a value,
    "enumerate aliases; resolve(lookup fn)". *)
Definition valueGetAliases (v : Value) : list string :=
  match v with
  | AliasValue a => [a]
  | _ => []
  end.

(** Modelled from the spec: [ResolveAlias] of a value.  The lookup is a
    closure acting on a state [S]; it is called once, with the alias, and
    a successful answer replaces the alias. *)
Definition valueResolveAlias {S : Type} (f : string → S → (string * bool) * S)
    (v : Value) (s : S) : Value * S :=
  match v with
  | AliasValue a =>
      match f a s with
      | ((actual, true), s') => (LiteralValue (CString actual), s')
      | ((_, false), s') => (v, s')
      end
  | _ => (v, s)
  end.

(** Modelled from the spec: the [params] package (section 4.2).  A rule
    reports the required keys that are missing from a key list and gives a
    validation verdict for one ([params.Validate]). *)
Record Rule := MkRule {
  Missing : list string → list string;
  Validate : list string → error
}.

(** Modelled from the spec: what the command lookup returns, an object
    with the capabilities the passes test for by type assertion (section 6,
    Command capability set).  [isCommand] tells whether it implements
    [ast.Command]; a capability that is a method is [None] when the object
    does not have it.  [ValidateCommand] returns the texts of its errors. *)
Record command := MkCommand {
  isCommand : bool;
  cmdParams : option Rule;
  hasExtractResult : bool;
  ValidateCommand : option (gmap string any → list string → list string)
}.

(** Modelled from the spec: a command node; [Command] is the object bound
    by the inject pass, [None] while nil. *)
Record CommandNode := MkCommandNode {
  Action : string;
  Entity : string;
  Params : gmap string Value;
  Command : option command
}.

(** Modelled from the spec: an expression node is a command node or a value
    node ([ast.ValueNode], which wraps one value). *)
Inductive ExpressionNode :=
| ECommand (c : CommandNode)
| EValue (v : Value).

(** Modelled from the spec: a node is a declaration, an identifier with
    an expression, or an expression. *)
Inductive Node :=
| NDeclaration (Ident : string) (Expr : ExpressionNode)
| NExpression (e : ExpressionNode).

(** Modelled from the spec: a statement wraps one node. *)
Record Statement := MkStatement {
  node : Node
}.

Section Capabilities.

Context (ord : rangeOrder).

(** Modelled from the spec: [CommandNode.Keys()], the parameter names as the
    map enumerates them. *)
Definition Keys (n : CommandNode) : list string := (range ord (Params n)).*1.

(** The assignments [n.Params[k] = v], [n.Params = ps] and
    [n.Command = c]. *)
Definition setParam (n : CommandNode) (k : string) (v : Value) : CommandNode :=
  {| Action := Action n; Entity := Entity n;
     Params := <[k := v]> (Params n); Command := Command n |}.

Definition setParams (n : CommandNode) (ps : gmap string Value) : CommandNode :=
  {| Action := Action n; Entity := Entity n; Params := ps; Command := Command n |}.

Definition setCommand (n : CommandNode) (c : option command) : CommandNode :=
  {| Action := Action n; Entity := Entity n; Params := Params n; Command := c |}.

(** Modelled from the spec: [CommandNode.ToDriverParams()], every parameter
    by its [Value()]. *)
Definition ToDriverParams (n : CommandNode) : gmap string any := valueOf <$> Params n.

(** Modelled from the spec: [GetRefs] of a command node, the references
    of its parameters as the map enumerates them. *)
Definition commandGetRefs (n : CommandNode) : list string :=
  flat_map (λ kv, valueGetRefs kv.2) (range ord (Params n)).

(** Modelled from the spec: [WithRefs.GetRefs] on a command node or a
    value node. *)
Definition GetRefs (e : ExpressionNode) : list string :=
  match e with
  | ECommand n => commandGetRefs n
  | EValue v => valueGetRefs v
  end.

(** Modelled from the spec: a value that is the reference to [key] gives
    way to [value]. *)
Definition replaceValue (key : string) (value : Value) (v : Value) : Value :=
  if valueIsRef key v then value else v.

(** Modelled from the spec: [WithRefs.ReplaceRef] on a command node, where
    it goes through the parameters, or a value node. *)
Definition ReplaceRef (key : string) (value : Value) (e : ExpressionNode) : ExpressionNode :=
  match e with
  | ECommand n => ECommand (setParams n (replaceValue key value <$> Params n))
  | EValue v => EValue (replaceValue key value v)
  end.

(** Modelled from the spec: [ValueNode.IsResolved()]: no hole, reference or
    alias is left in the value. *)
Definition IsResolved (v : Value) : bool :=
  match v with
  | LiteralValue _ | InterfaceValue _ => true
  | HoleValue _ _ | RefValue _ | AliasValue _ => false
  end.

(** Modelled from the spec: [GetHoles] of a command node, the holes of its
    parameters, the candidates of one name appended as the parameters are
    enumerated. *)
Definition commandGetHoles (n : CommandNode) : gmap string (list string) :=
  foldl (λ holes kv,
           foldl (λ holes hc, <[hc.1 := (default [] (holes !! hc.1) ++ hc.2)%list]> holes)
                 holes (range ord (valueGetHoles kv.2)))
        ∅ (range ord (Params n)).

(** Modelled from the spec: [WithHoles.GetHoles] on a command node or a
    value node. *)
Definition GetHoles (e : ExpressionNode) : gmap string (list string) :=
  match e with
  | ECommand n => commandGetHoles n
  | EValue v => valueGetHoles v
  end.

(** Modelled from the spec: [ProcessHoles] of a command node, which
    processes every parameter and reports all the names found. *)
Definition commandProcessHoles (fills : gmap string any) (n : CommandNode)
  : CommandNode * gmap string any :=
  foldl (λ acc kv,
           let '(v', processed) := valueProcessHoles fills kv.2 in
           (setParam acc.1 kv.1 v', processed ∪ acc.2))
        (n, ∅) (range ord (Params n)).

(** Modelled from the spec: [WithHoles.ProcessHoles] on a command node or
    a value node. *)
Definition ProcessHoles (fills : gmap string any) (e : ExpressionNode)
  : ExpressionNode * gmap string any :=
  match e with
  | ECommand n => let '(n', p) := commandProcessHoles fills n in (ECommand n', p)
  | EValue v => let '(v', p) := valueProcessHoles fills v in (EValue v', p)
  end.

End Capabilities.

End Ast.

Export Ast.

(** ** The template package: environment, template, passes *)

Module Template.

(** The outcome of running Go code that may panic. *)
Inductive run (A : Type) :=
| Done (a : A)
| Panicked (msg : string).

Arguments Done {A} a.
Arguments Panicked {A} msg.

Global Instance run_ret : MRet run := λ A a, Done a.

Global Instance run_bind : MBind run := λ A B k m,
  match m with
  | Done a => k a
  | Panicked msg => Panicked msg
  end.

(** The line feed that ends two of the messages. *)
Definition LF : string := String (Ascii.ascii_of_nat 10) EmptyString.
Definition TAB : string := String (Ascii.ascii_of_nat 9) EmptyString.
Definition DQUOTE : Ascii.ascii := Ascii.ascii_of_nat 34.
Definition BACKSLASH : Ascii.ascii := Ascii.ascii_of_nat 92.

(** [%q] on a string, as [strconv.Quote] writes printable ASCII text: the
    text between double quotes, a backslash before every double quote and
    every backslash.  (Control and non-ASCII bytes, which Go writes as
    escapes, are copied.) *)
Fixpoint quoteBody (s : string) : string :=
  match s with
  | EmptyString => EmptyString
  | String c rest =>
      if bool_decide (c = DQUOTE ∨ c = BACKSLASH)
      then String BACKSLASH (String c (quoteBody rest))
      else String c (quoteBody rest)
  end.

Definition quote (s : string) : string :=
  String DQUOTE (quoteBody s +:+ String DQUOTE EmptyString).

(** [strings.Join]. *)
Fixpoint Join (elems : list string) (sep : string) : string :=
  match elems with
  | [] => EmptyString
  | [e] => e
  | e :: rest => e +:+ sep +:+ Join rest sep
  end.

(** [%q] on a [[]string]. *)
Definition quoteSlice (l : list string) : string :=
  "[" +:+ Join (quote <$> l) " " +:+ "]".

(** [%v] on a [[]string]: the elements between brackets, a space between
    two of them. *)
Definition showSlice (l : list string) : string :=
  "[" +:+ Join l " " +:+ "]".

(** [sort.Strings]: ascending in the byte-wise order of Go's [<] on
    strings. *)
Definition sortStrings (l : list string) : list string := merge_sort String.le l.

(** [contains] of compile.go. *)
Fixpoint contains (arr : list string) (s : string) : bool :=
  match arr with
  | [] => false
  | v :: rest => if bool_decide (v = s) then true else contains rest s
  end.

Section Passes.

(** [W] is what the missing-holes callback acts on (the terminal it
    prompts on). *)
Context {W : Type}.

(** Modelled from the spec: the compile environment (section 2, item 3, and
    section 6): the capabilities the surrounding program supplies, [None]
    for a nil function, and what compilation accumulates.  [log] is what
    was sent to the log sink, [world] the state the callback acts on. *)
Record compileEnv := MkCompileEnv {
  LookupCommandFunc : option (string → option command);
  AliasFunc : option (string → string → string → string);
  MissingHolesFunc : option (string → list string → W → any * W);
  Fillers : gmap string any;
  processedFillers : gmap string any;
  resolvedVariables : gmap string any;
  log : list string;
  world : W
}.

(** Modelled from the spec: [compileEnv.addToProcessedFillers], the union
    of the fillers consumed. *)
Definition addToProcessedFillers (processed : gmap string any) (cenv : compileEnv)
  : compileEnv :=
  {| LookupCommandFunc := LookupCommandFunc cenv; AliasFunc := AliasFunc cenv;
     MissingHolesFunc := MissingHolesFunc cenv; Fillers := Fillers cenv;
     processedFillers := processed ∪ processedFillers cenv;
     resolvedVariables := resolvedVariables cenv;
     log := log cenv; world := world cenv |}.

(** Modelled from the spec: [compileEnv.addResolvedVariables], which
    records an inlined variable. *)
Definition addResolvedVariables (ident : string) (val : any) (cenv : compileEnv)
  : compileEnv :=
  {| LookupCommandFunc := LookupCommandFunc cenv; AliasFunc := AliasFunc cenv;
     MissingHolesFunc := MissingHolesFunc cenv; Fillers := Fillers cenv;
     processedFillers := processedFillers cenv;
     resolvedVariables := <[ident := val]> (resolvedVariables cenv);
     log := log cenv; world := world cenv |}.

(** The environment after the callback or the log sink has acted. *)
Definition setWorld (w : W) (cenv : compileEnv) : compileEnv :=
  {| LookupCommandFunc := LookupCommandFunc cenv; AliasFunc := AliasFunc cenv;
     MissingHolesFunc := MissingHolesFunc cenv; Fillers := Fillers cenv;
     processedFillers := processedFillers cenv;
     resolvedVariables := resolvedVariables cenv;
     log := log cenv; world := w |}.

Definition setLog (l : list string) (cenv : compileEnv) : compileEnv :=
  {| LookupCommandFunc := LookupCommandFunc cenv; AliasFunc := AliasFunc cenv;
     MissingHolesFunc := MissingHolesFunc cenv; Fillers := Fillers cenv;
     processedFillers := processedFillers cenv;
     resolvedVariables := resolvedVariables cenv;
     log := l; world := world cenv |}.

(** [cenv.LookupCommandFunc()(key)]: calling a nil function panics. *)
Definition lookupCommand (cenv : compileEnv) (key : string) : run (option command) :=
  match LookupCommandFunc cenv with
  | Some lookup => Done (lookup key)
  | None => Panicked "invalid memory address or nil pointer dereference"
  end.

(** Modelled from the spec: a template, an identifier and the ordered
    statements. *)
Record Template := MkTemplate {
  ID : string;
  Statements : list Statement
}.

Definition compileResult : Type := run (Template * compileEnv * error).

(** [compileFunc], with the enumeration order of maps made an argument. *)
Definition compileFunc : Type := rangeOrder → Template → compileEnv → compileResult.

Definition Mode : Type := list compileFunc.

(** [multiPass.compile]. *)
Fixpoint compile (ord : rangeOrder) (passes : list compileFunc)
    (tpl : Template) (cenv : compileEnv) : compileResult :=
  match passes with
  | [] => Done (tpl, cenv, None)
  | pass :: rest =>
      '(newTpl, newEnv, err) ← pass ord tpl cenv;
      match err with
      | Some _ => Done (newTpl, newEnv, err)
      | None => compile ord rest newTpl newEnv
      end
  end.

(** [Compile] called with a mode: [newMultiPass(mode[0]...).compile].
    (Without a mode it runs [NewRunnerCompileMode], which also holds passes
    that this development does not embed.) *)
Definition Compile (ord : rangeOrder) (tpl : Template) (cenv : compileEnv) (mode : Mode)
  : compileResult :=
  compile ord mode tpl cenv.

(** Modelled from the spec: [extractExpressionNode], the expression of a
    statement: the declared expression of a declaration, the node itself
    otherwise. *)
Definition extractExpressionNode (st : Statement) : ExpressionNode :=
  match node st with
  | NDeclaration _ expr => expr
  | NExpression e => e
  end.

(** The statement with its expression node updated in place. *)
Definition setExpressionNode (st : Statement) (e : ExpressionNode) : Statement :=
  match node st with
  | NDeclaration ident _ => {| node := NDeclaration ident e |}
  | NExpression _ => {| node := NExpression e |}
  end.

(** The command node a statement holds, directly or as the expression of a
    declaration. *)
Definition commandNodeOf (st : Statement) : option CommandNode :=
  match extractExpressionNode st with
  | ECommand n => Some n
  | EValue _ => None
  end.

(** Modelled from the spec: [Template.CommandNodesIterator], the command
    nodes in statement order. *)
Definition CommandNodesIterator (tpl : Template) : list CommandNode :=
  omap commandNodeOf (Statements tpl).

(** A loop [for _, node := range tpl.CommandNodesIterator()] whose body
    updates the node in place, threads a state and may return an error,
    which ends the loop.  The nodes are pointers: an update is seen in the
    statement that holds the node, and the statements after the one where
    the loop ends are as they were. *)
Fixpoint forCommandNodes {S : Type}
    (body : CommandNode → S → run (CommandNode * S * error))
    (sts : list Statement) (s : S) : run (list Statement * S * error) :=
  match sts with
  | [] => Done ([], s, None)
  | st :: rest =>
      match commandNodeOf st with
      | None =>
          '(rest', s', err) ← forCommandNodes body rest s;
          Done (st :: rest', s', err)
      | Some n =>
          '(n', s1, err) ← body n s;
          let st' := setExpressionNode st (ECommand n') in
          match err with
          | Some _ => Done (st' :: rest, s1, err)
          | None =>
              '(rest', s2, err') ← forCommandNodes body rest s1;
              Done (st' :: rest', s2, err')
          end
      end
  end.

(** Modelled from the spec: [Template.visitCommandNodesE]. *)
Definition visitCommandNodesE (fn : CommandNode → run (CommandNode * error))
    (tpl : Template) : run (Template * error) :=
  '(sts, _, err) ← forCommandNodes
      (λ n (_ : unit), '(n', e) ← fn n; Done (n', tt, e)) (Statements tpl) tt;
  Done ({| ID := ID tpl; Statements := sts |}, err).

(** Modelled from the spec: [Template.expressionNodesIterator] yields the
    expression of every statement, in statement order.  This is a loop
    [for _, expr := range tpl.expressionNodesIterator()] whose body updates
    the node in place and threads a state. *)
Definition forExpressionNodes {S : Type} (body : ExpressionNode → S → ExpressionNode * S)
    (sts : list Statement) (s : S) : list Statement * S :=
  foldl (λ acc st,
           let '(e', s') := body (extractExpressionNode st) acc.2 in
           ((acc.1 ++ [setExpressionNode st e'])%list, s'))
        ([], s) sts.

(** Modelled from the spec: [Template.visitHoles], which visits every node
    with the [WithHoles] capability; command and value nodes both have it. *)
Definition visitHoles {S : Type} (fn : ExpressionNode → S → ExpressionNode * S)
    (sts : list Statement) (s : S) : list Statement * S :=
  forExpressionNodes fn sts s.

(** [cmdErr] as the passes call it: a node, and a string or an error. *)
Definition cmdErr (cmd : CommandNode) (msg : string) : error :=
  Some (Action cmd +:+ " " +:+ Entity cmd +:+ ": " +:+ msg).

(** *** processAndValidateParams *)

(** The closure [normalizeMissingRequiredParamsAsHoleAndValidate]. *)
Definition normalizeMissingRequiredParamsAsHoleAndValidate (ord : rangeOrder)
    (cenv : compileEnv) (n : CommandNode) : run (CommandNode * error) :=
  let key := Action n +:+ Entity n in
  cmd ← lookupCommand cenv key;
  match cmd with
  | None => Done (n, Some ("process params: cannot find command for '" +:+ key +:+ "'"))
  | Some cmd =>
      match cmdParams cmd with
      | None => Done (n, cmdErr n "command does not implement param rules")
      | Some rule =>
          let missing := Missing rule (Keys ord n) in
          let n' :=
            foldl (λ acc e, setParam acc e (NewHoleValue (Entity acc +:+ "." +:+ e)))
                  n missing in
          match Validate rule (Keys ord n') with
          | Some err => Done (n', cmdErr n' err)
          | None => Done (n', None)
          end
      end
  end.

Definition processAndValidateParamsPass : compileFunc := λ ord tpl cenv,
  '(tpl', err) ← visitCommandNodesE
      (normalizeMissingRequiredParamsAsHoleAndValidate ord cenv) tpl;
  Done (tpl', cenv, err).

(** *** validateCommands *)

(** The keys of the parameters that carry a reference, as the map is
    enumerated. *)
Definition refsKey (ord : rangeOrder) (n : CommandNode) : list string :=
  (filter (λ kp, valueGetRefs kp.2 ≠ []) (range ord (Params n))).*1.

(** The closure [collectValidationErrs]; [errs] is the slice it appends
    to, each entry the text of an error. *)
Definition collectValidationErrs (ord : rangeOrder) (cenv : compileEnv)
    (n : CommandNode) (errs : list string) : run (CommandNode * list string * error) :=
  let key := Action n +:+ Entity n in
  cmd ← lookupCommand cenv key;
  match cmd with
  | None => Done (n, errs, Some ("validate: cannot find command for '" +:+ key +:+ "'"))
  | Some cmd =>
      match ValidateCommand cmd with
      | Some v =>
          let found := v (ToDriverParams n) (refsKey ord n) in
          Done (n,
                (errs ++ ((λ validErr, Action n +:+ " " +:+ Entity n +:+ ": " +:+ validErr)
                            <$> found))%list,
                None)
      | None => Done (n, errs, None)
      end
  end.

Definition validateCommandsPass : compileFunc := λ ord tpl cenv,
  '(_, errs, err) ← forCommandNodes (collectValidationErrs ord cenv) (Statements tpl) [];
  match err with
  | Some _ => Done (tpl, cenv, err)
  | None =>
      match errs with
      | [] => Done (tpl, cenv, None)
      | [e] => Done (tpl, cenv, Some ("validation error: " +:+ e))
      | _ =>
          Done (tpl, cenv,
                Some ("validation errors:" +:+ LF +:+ TAB +:+ "- "
                        +:+ Join errs (LF +:+ TAB +:+ "- ")))
      end
  end.

(** *** injectCommands *)

(** The type assertion [x.(ast.Command)] in its one-result form: it panics
    on a nil interface and on a value that is no [ast.Command]. *)
Definition assertCommand (x : option command) : run (option command) :=
  match x with
  | Some c =>
      if isCommand c then Done (Some c)
      else Panicked "interface conversion: value is not ast.Command: missing method"
  | None => Panicked "interface conversion: interface is nil, not ast.Command"
  end.

Definition injectCommandsPass : compileFunc := λ ord tpl cenv,
  '(sts, _, err) ← forCommandNodes
      (λ n (_ : unit),
         let key := Action n +:+ Entity n in
         x ← lookupCommand cenv key;
         c ← assertCommand x;
         let n' := setCommand n c in
         match Command n' with
         | None => Done (n', tt, Some ("inject: cannot find command for '" +:+ key +:+ "'"))
         | Some _ => Done (n', tt, None)
         end)
      (Statements tpl) tt;
  Done ({| ID := ID tpl; Statements := sts |}, cenv, err).

(** *** checkInvalidReferenceDeclarations *)

Definition undefinedMsg (ref : string) : string :=
  "using reference '$" +:+ ref +:+ "' but '" +:+ ref +:+ "' is undefined in template" +:+ LF.

Definition alreadyAssignedMsg (ref : string) : string :=
  "using reference '$" +:+ ref +:+ "' but '" +:+ ref
    +:+ "' has already been assigned in template" +:+ LF.

(** The loop of the closure [each] over [withRef.GetRefs()]. *)
Fixpoint eachRef (knownRefs : gmap string bool) (refs : list string) : error :=
  match refs with
  | [] => None
  | ref :: rest =>
      match knownRefs !! ref with
      | None => Some (undefinedMsg ref)
      | Some _ => eachRef knownRefs rest
      end
  end.

Definition each (ord : rangeOrder) (knownRefs : gmap string bool)
    (withRef : ExpressionNode) : error :=
  eachRef knownRefs (GetRefs ord withRef).

(** The loop over the statements.  A command or value node is a
    [WithRefs]; a declaration is not, its expression is.  (The map
    [usedRefs] that the pass fills first is never read.) *)
Fixpoint checkStatements (ord : rangeOrder) (sts : list Statement)
    (knownRefs : gmap string bool) : error :=
  match sts with
  | [] => None
  | st :: rest =>
      let used :=
        match node st with
        | NExpression n => each ord knownRefs n
        | NDeclaration _ expr => each ord knownRefs expr
        end in
      match used with
      | Some err => Some err
      | None =>
          match node st with
          | NDeclaration ref _ =>
              match knownRefs !! ref with
              | Some _ => Some (alreadyAssignedMsg ref)
              | None => checkStatements ord rest (<[ref := true]> knownRefs)
              end
          | NExpression _ => checkStatements ord rest knownRefs
          end
      end
  end.

Definition checkInvalidReferenceDeclarationsPass : compileFunc := λ ord tpl cenv,
  Done (tpl, cenv, checkStatements ord (Statements tpl) ∅).

(** *** inlineVariableValue *)

(** The inner loop [for j := i + 1; j < len(tpl.Statements); j++]: the
    statements are pointers, the replacement is seen by the outer loop. *)
Definition replaceInLater (i : nat) (ident : string) (value : Value)
    (sts : list Statement) : list Statement :=
  foldl (λ acc j,
           alter (λ st, setExpressionNode st
                          (ReplaceRef ident value (extractExpressionNode st))) j acc)
        sts (seq (S i) (length sts - S i)).

(** One turn of the outer loop, on the statements as they are now, the
    statements of the new template and the environment. *)
Definition inlineStep (acc : list Statement * list Statement * compileEnv) (i : nat)
  : list Statement * list Statement * compileEnv :=
  let '(sts, newSts, cenv) := acc in
  match sts !! i with
  | None => acc
  | Some st =>
      match node st with
      | NDeclaration ident (EValue value) =>
          let cenv1 :=
            match valueOf value with
            | Some val => addResolvedVariables ident (Some val) cenv
            | None => cenv
            end in
          let sts1 := replaceInLater i ident value sts in
          if IsResolved value then (sts1, newSts, cenv1)
          else (sts1, (newSts ++ [st])%list, cenv1)
      | _ => (sts, (newSts ++ [st])%list, cenv)
      end
  end.

Definition inlineVariableValuePass : compileFunc := λ ord tpl cenv,
  let '(_, newSts, cenv') :=
    foldl inlineStep (Statements tpl, [], cenv) (seq 0 (length (Statements tpl))) in
  Done ({| ID := ID tpl; Statements := newSts |}, cenv', None).

(** *** resolveMissingHoles *)

(** The body of the first visit for one entry [k, v] of [h.GetHoles()]. *)
Definition recordHole (uniqueHoles : gmap string (list string))
    (kv : string * list string) : gmap string (list string) :=
  foldl (λ u vv,
           if contains (default [] (u !! kv.1)) vv then u
           else <[kv.1 := (default [] (u !! kv.1) ++ [vv])%list]> u)
        (<[kv.1 := []]> uniqueHoles) kv.2.

Definition collectHoles (ord : rangeOrder) (sts : list Statement)
  : gmap string (list string) :=
  (visitHoles (λ h u, (h, foldl recordHole u (range ord (GetHoles ord h)))) sts ∅).2.

(** The loop over [sortedHoles] that asks the callback. *)
Definition askMissingHoles (cenv : compileEnv) (uniqueHoles : gmap string (list string))
    (sortedHoles : list string) : gmap string any * W :=
  foldl (λ acc k,
           match MissingHolesFunc cenv with
           | Some callback =>
               let '(actual, w') := callback k (default [] (uniqueHoles !! k)) acc.2 in
               (<[k := actual]> acc.1, w')
           | None => acc
           end)
        (∅, world cenv) sortedHoles.

Definition resolveMissingHolesPass : compileFunc := λ ord tpl cenv,
  let uniqueHoles := collectHoles ord (Statements tpl) in
  let sortedHoles := sortStrings (range ord uniqueHoles).*1 in
  let '(fillers, w) := askMissingHoles cenv uniqueHoles sortedHoles in
  let '(sts, cenv') :=
    visitHoles (λ h env,
                  let '(h', processed) := ProcessHoles ord fillers h in
                  (h', addToProcessedFillers processed env))
               (Statements tpl) (setWorld w cenv) in
  Done ({| ID := ID tpl; Statements := sts |}, cenv', None).

(** *** resolveAlias *)

(** The closure [resolvAliasFunc(entity, key)], acting on [emptyResolv]
    and on the log. *)
Definition resolvAliasFunc (cenv : compileEnv) (entity key : string) (alias : string)
    (s : list string * list string) : (string * bool) * (list string * list string) :=
  match AliasFunc cenv with
  | None => ((EmptyString, false), s)
  | Some resolve =>
      let actual := resolve entity key alias in
      if bool_decide (actual = EmptyString)
      then ((EmptyString, false), ((s.1 ++ [alias])%list, s.2))
      else ((actual, true),
            (s.1, (s.2 ++ ["alias: resolved '" +:+ alias +:+ "' to '" +:+ actual
                             +:+ "' for key " +:+ key])%list))
  end.

Definition resolveAliasNode (ord : rangeOrder) (cenv : compileEnv)
    (expr : ExpressionNode) (s : list string * list string)
  : ExpressionNode * (list string * list string) :=
  match expr with
  | ECommand ee =>
      let '(ee', s') :=
        foldl (λ acc kv,
                 let '(v', s1) :=
                   valueResolveAlias (resolvAliasFunc cenv (Entity ee) kv.1) kv.2 acc.2 in
                 (setParam acc.1 kv.1 v', s1))
              (ee, s) (range ord (Params ee)) in
      (ECommand ee', s')
  | EValue v =>
      let '(v', s') :=
        valueResolveAlias (resolvAliasFunc cenv EmptyString EmptyString) v s in
      (EValue v', s')
  end.

Definition resolveAliasPass : compileFunc := λ ord tpl cenv,
  let '(sts, (emptyResolv, logged)) :=
    forExpressionNodes (resolveAliasNode ord cenv) (Statements tpl) ([], log cenv) in
  let tpl' := {| ID := ID tpl; Statements := sts |} in
  let cenv' := setLog logged cenv in
  match emptyResolv with
  | [] => Done (tpl', cenv', None)
  | _ =>
      Done (tpl', cenv',
            Some ("cannot resolve aliases: " +:+ quoteSlice emptyResolv
                    +:+ ". Maybe you need to update your local model with `awless sync` ?"))
  end.

(** *** verifyCommandsDefined *)

(** The loop of [verifyCommandsDefinedPass] over the command nodes. *)
Fixpoint verifyDefined (cenv : compileEnv) (nodes : list CommandNode) : run error :=
  match nodes with
  | [] => Done None
  | n :: rest =>
      let key := Action n +:+ Entity n in
      cmd ← lookupCommand cenv key;
      match cmd with
      | None => Done (Some ("cannot find command for '" +:+ key +:+ "'"))
      | Some _ => verifyDefined cenv rest
      end
  end.

Definition verifyCommandsDefinedPass : compileFunc := λ ord tpl cenv,
  match LookupCommandFunc cenv with
  | None => Done (tpl, cenv, Some "command lookuper is undefined")
  | Some _ =>
      err ← verifyDefined cenv (CommandNodesIterator tpl);
      Done (tpl, cenv, err)
  end.

(** *** failOnDeclarationWithNoResult *)

(** Modelled from the spec: [Template.declarationNodesIterator], the
    declaration nodes in statement order, each an identifier and an
    expression. *)
Definition declarationNodesIterator (tpl : Template) : list (string * ExpressionNode) :=
  omap (λ st, match node st with
              | NDeclaration ident expr => Some (ident, expr)
              | NExpression _ => None
              end)
       (Statements tpl).

(** The closure [failOnDeclarationWithNoResult]. *)
Definition failOnDeclarationWithNoResult (cenv : compileEnv)
    (dcl : string * ExpressionNode) : run error :=
  match dcl.2 with
  | EValue _ => Done None
  | ECommand cmdNode =>
      let key := Action cmdNode +:+ Entity cmdNode in
      cmd ← lookupCommand cenv key;
      match cmd with
      | None => Done (Some ("validate: cannot find command for '" +:+ key +:+ "'"))
      | Some cmd =>
          if hasExtractResult cmd then Done None
          else Done (cmdErr cmdNode
                       "command does not return a result, cannot assign to a variable")
      end
  end.

(** The loop over the declarations, which ends at the first error. *)
Fixpoint forDeclarations (cenv : compileEnv) (dcls : list (string * ExpressionNode))
  : run error :=
  match dcls with
  | [] => Done None
  | dcl :: rest =>
      err ← failOnDeclarationWithNoResult cenv dcl;
      match err with
      | Some _ => Done err
      | None => forDeclarations cenv rest
      end
  end.

Definition failOnDeclarationWithNoResultPass : compileFunc := λ ord tpl cenv,
  err ← forDeclarations cenv (declarationNodesIterator tpl);
  Done (tpl, cenv, err).

(** *** resolveHoles *)

Definition resolveHolesPass : compileFunc := λ ord tpl cenv,
  let '(sts, cenv') :=
    visitHoles (λ h env,
                  let '(h', processed) := ProcessHoles ord (Fillers env) h in
                  (h', addToProcessedFillers processed env))
               (Statements tpl) cenv in
  Done ({| ID := ID tpl; Statements := sts |}, cenv', None).

(** *** failOnUnresolvedHoles *)

(** The set [uniqueUnresolved] after the visit of every node. *)
Definition uniqueUnresolved (ord : rangeOrder) (sts : list Statement) : gmap string unit :=
  (visitHoles (λ withHole u,
                 (withHole,
                  foldl (λ u kv, <[kv.1 := tt]> u) u (range ord (GetHoles ord withHole))))
              sts ∅).2.

Definition failOnUnresolvedHolesPass : compileFunc := λ ord tpl cenv,
  let unresolved := (range ord (uniqueUnresolved ord (Statements tpl))).*1 in
  match unresolved with
  | [] => Done (tpl, cenv, None)
  | _ =>
      Done (tpl, cenv,
            Some ("template contains unresolved holes: "
                    +:+ showSlice (sortStrings unresolved)))
  end.

(** *** failOnUnresolvedAlias *)

(** The slice [unresolved] after the loop over the expression nodes; the
    parameters of a command node come as the map enumerates them. *)
Definition unresolvedAliases (ord : rangeOrder) (sts : list Statement) : list string :=
  (forExpressionNodes
     (λ n unresolved,
        (n, match n with
            | EValue v => (unresolved ++ valueGetAliases v)%list
            | ECommand nn =>
                foldl (λ unresolved kv, (unresolved ++ valueGetAliases kv.2)%list)
                      unresolved (range ord (Params nn))
            end))
     sts []).2.

Definition failOnUnresolvedAliasPass : compileFunc := λ ord tpl cenv,
  match unresolvedAliases ord (Statements tpl) with
  | [] => Done (tpl, cenv, None)
  | unresolved =>
      Done (tpl, cenv,
            Some ("template contains unresolved alias: " +:+ showSlice unresolved))
  end.

(** *** ReplaceNodeByTemplate *)

(** The loop that looks for the node: [nodeIndex] starts at -1 and takes
    the index of every statement whose node is [n].  The nodes are
    pointers and [st.Node == n] compares pointers, which the statements as
    values do not show: [isNode st] tells whether the node of [st] is
    [n]. *)
Definition findNodeIndex (isNode : Statement → bool) (sts : list Statement) : Z :=
  foldl (λ nodeIndex ist, if isNode ist.2 then Z.of_nat ist.1 else nodeIndex)
        (-1)%Z (zip (seq 0 (length sts)) sts).

(** [Template.ReplaceNodeByTemplate]; [shown] is the text of [n] under
    [%v]. *)
Definition ReplaceNodeByTemplate (isNode : Statement → bool) (shown : string)
    (t tplToReplace : Template) : Template * error :=
  let nodeIndex := findNodeIndex isNode (Statements t) in
  if bool_decide (nodeIndex = (-1)%Z)
  then (t, Some ("node '" +:+ shown +:+ "' not found"))
  else
    let after := drop (Z.to_nat (nodeIndex + 1)) (Statements t) in
    ({| ID := ID t;
        Statements := ((take (Z.to_nat nodeIndex) (Statements t)
                          ++ Statements tplToReplace) ++ after)%list |},
     None).

End Passes.

Arguments compileEnv : clear implicits.
Arguments compileResult : clear implicits.
Arguments compileFunc : clear implicits.
Arguments Mode : clear implicits.

End Template.

(** ** The notions in which the properties are stated *)

Module Spec.

Import Template.

Section Notions.

Context {W : Type} (ord : rangeOrder).

Implicit Types (sts : list Statement) (st d : Statement) (n : CommandNode)
  (cenv : compileEnv W).

(** *** Declarations and references *)

(** The identifier a statement declares, the identifiers a list of
    statements declares, the references a statement uses (those of its
    node or, for a declaration, of its expression). *)
Definition declIdent st : option string :=
  match node st with
  | NDeclaration ident _ => Some ident
  | NExpression _ => None
  end.

Definition declaredIn sts : list string := omap declIdent sts.

Definition stmtRefs st : list string := GetRefs ord (extractExpressionNode st).

(** A statement is in order after the identifiers [before]: it uses only
    references among them and declares none of them again. *)
Definition stmtOK (before : list string) st : Prop :=
  (∀ r, r ∈ stmtRefs st → r ∈ before) ∧ (∀ r, declIdent st = Some r → r ∉ before).

(** [knownRefs] holds exactly the identifiers [before]. *)
Definition knows (known : gmap string bool) (before : list string) : Prop :=
  ∀ r, is_Some (known !! r) ↔ r ∈ before.

(** *** Inlining *)

(** What a declaration of a value does to a later statement: the declared
    identifier is replaced by the value in the statement's expression.  Any
    other statement does nothing to the later ones. *)
Definition applyDecl d st : Statement :=
  match node d with
  | NDeclaration ident (EValue value) =>
      setExpressionNode st (ReplaceRef ident value (extractExpressionNode st))
  | _ => st
  end.

(** The first [i] statements as the pass finds them: each has received, in
    order, the replacements of all the statements before it, as they were
    found. *)
Fixpoint foundUpTo sts (i : nat) : list Statement :=
  match i with
  | 0 => []
  | S i' =>
      let before := foundUpTo sts i' in
      match sts !! i' with
      | Some st => before ++ [foldl (λ s d, applyDecl d s) st before]
      | None => before
      end
  end.

Definition found sts : list Statement := foundUpTo sts (length sts).

(** The declarations the pass removes, and the statements it keeps. *)
Definition isResolvedValueDecl st : bool :=
  match node st with
  | NDeclaration _ (EValue value) => IsResolved value
  | _ => false
  end.

Definition kept (l : list Statement) : list Statement :=
  filter (λ st, isResolvedValueDecl st = false) l.

(** The pairs the pass records: one for each declaration of a value whose
    [Value()] is not nil, in statement order. *)
Definition recordedPair st : option (string * concrete) :=
  match node st with
  | NDeclaration ident (EValue value) => (λ c, (ident, c)) <$> valueOf value
  | _ => None
  end.

Definition recorded (l : list Statement) : list (string * concrete) := omap recordedPair l.

Definition recordAll (pairs : list (string * concrete)) cenv : compileEnv W :=
  foldl (λ env p, addResolvedVariables p.1 (Some p.2) env) cenv pairs.

(** The statements in the middle of the loop, after [i] turns. *)
Definition stateAt sts (i : nat) : list Statement :=
  imap (λ j st, foldl (λ s d, applyDecl d s) st (take j (foundUpTo sts i))) sts.

(** *** Loops over the command nodes *)

(** A statement with its command node, if it holds one, changed by [g]. *)
Definition mapCommandNode (g : CommandNode → CommandNode) st : Statement :=
  match commandNodeOf st with
  | Some n => setExpressionNode st (ECommand (g n))
  | None => st
  end.

Definition commandNodes sts : list CommandNode := omap commandNodeOf sts.

(** The node with a hole "<entity>.<key>" put under every key of
    [missing]. *)
Definition withHoles n (missing : list string) : CommandNode :=
  foldl (λ acc e, setParam acc e (NewHoleValue (Entity acc +:+ "." +:+ e))) n missing.

(** What the pass does at one command node, given the lookup: the node as
    it leaves it, and the error it stops with, if any. *)
Definition paramsOutcome (lookup : string → option command) n : CommandNode * error :=
  match lookup (Action n +:+ Entity n) with
  | None =>
      (n, Some ("process params: cannot find command for '"
                  +:+ (Action n +:+ Entity n) +:+ "'"))
  | Some cmd =>
      match cmdParams cmd with
      | None =>
          (n, Some (Action n +:+ " " +:+ Entity n +:+ ": "
                      +:+ "command does not implement param rules"))
      | Some rule =>
          let completed := withHoles n (Missing rule (Keys ord n)) in
          (completed,
           (λ msg, Action n +:+ " " +:+ Entity n +:+ ": " +:+ msg)
             <$> Validate rule (Keys ord completed))
      end
  end.

(** The errors one command node contributes: those its command's
    [ValidateCommand] returns, each after "<action> <entity>: "; none when
    the command has no [ValidateCommand]. *)
Definition validationErrsOf (cmd : command) n : list string :=
  match ValidateCommand cmd with
  | Some validate =>
      (λ validErr, Action n +:+ " " +:+ Entity n +:+ ": " +:+ validErr)
        <$> validate (ToDriverParams n) (refsKey ord n)
  | None => []
  end.

Definition validationErrsAt (lookup : string → option command) n : list string :=
  match lookup (Action n +:+ Entity n) with
  | Some cmd => validationErrsOf cmd n
  | None => []
  end.

(** Every error on a line of its own, after a line feed, a tab and a
    dash. *)
Fixpoint errorLines (errs : list string) : string :=
  match errs with
  | [] => EmptyString
  | e :: rest => LF +:+ TAB +:+ "- " +:+ e +:+ errorLines rest
  end.

(** *** Holes *)

(** A candidate list without repetitions: every candidate once, at the
    place of its first occurrence. *)
Definition dedupCandidates (cs : list string) : list string :=
  foldl (λ acc vv, if contains acc vv then acc else acc ++ [vv]) [] cs.

(** The open holes of a statement's expression, and the candidate list
    under which the last statement that has the hole [k] lists it. *)
Definition holesOf st : gmap string (list string) :=
  GetHoles ord (extractExpressionNode st).

Definition lastCandidates sts (k : string) : option (list string) :=
  last (omap (λ st, holesOf st !! k) sts).

(** The callback called once on every entry of [calls], in order: the
    answers, and the world after the last call. *)
Definition runCalls (callback : string → list string → W → any * W)
    (calls : list (string * list string)) (w : W) : list any * W :=
  foldl (λ acc c, let '(a, w') := callback c.1 c.2 acc.2 in (acc.1 ++ [a], w'))
        ([], w) calls.

Definition fillersOf (names : list string) (answers : list any) : gmap string any :=
  foldl (λ m ka, <[ka.1 := ka.2]> m) ∅ (zip names answers).

(** The error of a compilation that returned. *)
Definition errorOf (r : compileResult W) : option error :=
  match r with
  | Done (_, _, err) => Some err
  | Panicked _ => None
  end.

End Notions.

End Spec.

Module SpecFetch.

Import Fetch.

Section Notions.

Context {W : Type}.

(** A run of [Get] calls, one after the other, each a key and the loaders
    it is given: the cache and the world after the last. *)
Definition getAll (calls : list (string * list (loader (W := W)))) (c : cache) (w : W)
  : cache * W :=
  foldl (λ cw call, let '(_, c', w') := Get cw.1 call.1 call.2 cw.2 in (c', w'))
        (c, w) calls.

End Notions.

End SpecFetch.

Module SpecPipeline.

Import Template Spec.

Section Notions.

Context {W : Type} (ord : rangeOrder).

Implicit Types (sts : list Statement) (st : Statement) (n : CommandNode).

(** The key under which the command of a node is looked up. *)
Definition commandKey n : string := Action n +:+ Entity n.

(** The first command node, in statement order, for which the lookup has no
    command. *)
Definition isKnown (lookup : string → option command) n : bool :=
  match lookup (commandKey n) with
  | Some _ => true
  | None => false
  end.

Definition firstUnknown (lookup : string → option command) (nodes : list CommandNode)
  : option CommandNode :=
  head (filter (λ n, isKnown lookup n = false) nodes).





End Notions.

End SpecPipeline.

Module SpecHoles.

Import Template Spec.

Section Notions.

Context {W : Type}.

Implicit Types (sts : list Statement) (st : Statement) (n : CommandNode)
  (e : ExpressionNode) (v : Value) (fills : gmap string any).

(** The name of the hole a value is, the names of the open holes of an
    expression node and of a list of statements. *)
Definition valueHole v : option string :=
  match v with
  | HoleValue h _ => Some h
  | _ => None
  end.

Definition exprHoles e : list string :=
  match e with
  | ECommand n => omap valueHole (map_to_list (Params n)).*2
  | EValue v => option_list (valueHole v)
  end.

Definition holeNames sts : list string :=
  sts ≫= (λ st, exprHoles (extractExpressionNode st)).

(** A value, an expression node and a statement with the holes filled: a
    hole for which [fills] has a value that is not nil becomes that value,
    everything else stays. *)
Definition fillValue fills v : Value :=
  match v with
  | HoleValue h _ =>
      match fills !! h with
      | Some (Some c) => LiteralValue c
      | _ => v
      end
  | _ => v
  end.

Definition fillExpression fills e : ExpressionNode :=
  match e with
  | ECommand n => ECommand (setParams n (fillValue fills <$> Params n))
  | EValue v => EValue (fillValue fills v)
  end.

Definition fillStatement fills st : Statement :=
  setExpressionNode st (fillExpression fills (extractExpressionNode st)).

(** The fillers that name a hole of the statements. *)
Definition consumedFillers fills sts : gmap string any :=
  filter (λ kv, kv.1 ∈ holeNames sts) fills.

(** The holes that [fills] leaves open: those it has no value for, or
    nil. *)
Definition staysOpen fills (h : string) : Prop :=
  ∀ c, fills !! h ≠ Some (Some c).

End Notions.

End SpecHoles.

Module SpecAlias.

Import Template Spec.

Section Notions.

Context (ord : rangeOrder).

Implicit Types (sts : list Statement) (st : Statement) (n : CommandNode)
  (e : ExpressionNode) (v : Value) (resolve : string → string → string → string).

(** The alias a value is, and the aliases of an expression node: those of
    the parameters of a command node, as the map enumerates them, or that
    of the value of a value node. *)
Definition valueAlias v : option string :=
  match v with
  | AliasValue a => Some a
  | _ => None
  end.

Definition nodeAliases e : list string :=
  match e with
  | ECommand n => omap (λ kv, valueAlias kv.2) (range ord (Params n))
  | EValue v => option_list (valueAlias v)
  end.

Definition aliasesOf sts : list string :=
  sts ≫= (λ st, nodeAliases (extractExpressionNode st)).

(** An expression node has the alias [a]: it is the value of one of the
    parameters of the command node, or the value of the value node. *)
Definition hasAlias e (a : string) : Prop :=
  match e with
  | ECommand n => ∃ k, Params n !! k = Some (AliasValue a)
  | EValue v => v = AliasValue a
  end.

(** A value, an expression node and a statement after the resolver has
    been asked: an alias for which the resolver has an answer that is not
    empty becomes the answer, everything else stays.  The resolver is asked
    with the entity of the command node and the key of the parameter, or
    with two empty strings for a value node. *)
Definition resolveAliasValue resolve (entity key : string) v : Value :=
  match v with
  | AliasValue a =>
      if bool_decide (resolve entity key a = EmptyString) then v
      else LiteralValue (CString (resolve entity key a))
  | _ => v
  end.

Definition resolveAliasExpression resolve e : ExpressionNode :=
  match e with
  | ECommand n =>
      ECommand (setParams n (map_imap (λ k v, Some (resolveAliasValue resolve (Entity n) k v))
                                      (Params n)))
  | EValue v => EValue (resolveAliasValue resolve EmptyString EmptyString v)
  end.

Definition resolveAliasStatement resolve st : Statement :=
  setExpressionNode st (resolveAliasExpression resolve (extractExpressionNode st)).

(** The entries of an expression node that the pass goes through, with the
    entity it asks the resolver with. *)
Definition aliasEntries e : string * list (string * Value) :=
  match e with
  | ECommand n => (Entity n, range ord (Params n))
  | EValue v => (EmptyString, [(EmptyString, v)])
  end.

(** The alias of an entry for which the resolver has no answer, and the
    line logged for one for which it has. *)
Definition emptyAlias resolve (entity : string) (kv : string * Value) : option string :=
  match kv.2 with
  | AliasValue a =>
      if bool_decide (resolve entity kv.1 a = EmptyString) then Some a else None
  | _ => None
  end.

Definition loggedAlias resolve (entity : string) (kv : string * Value) : option string :=
  match kv.2 with
  | AliasValue a =>
      if bool_decide (resolve entity kv.1 a = EmptyString) then None
      else Some ("alias: resolved '" +:+ a +:+ "' to '" +:+ resolve entity kv.1 a
                   +:+ "' for key " +:+ kv.1)
  | _ => None
  end.

Definition emptyResolvOf resolve sts : list string :=
  sts ≫= (λ st, omap (emptyAlias resolve (aliasEntries (extractExpressionNode st)).1)
                     (aliasEntries (extractExpressionNode st)).2).

Definition loggedOf resolve sts : list string :=
  sts ≫= (λ st, omap (loggedAlias resolve (aliasEntries (extractExpressionNode st)).1)
                     (aliasEntries (extractExpressionNode st)).2).

End Notions.

End SpecAlias.

Module SpecCommands.

Import Template Spec.

Section Notions.

Context {W : Type}.

Implicit Types (sts : list Statement) (st : Statement) (e : ExpressionNode).

(** The action and the entity of the command node of an expression, and
    those of the command nodes of a list of statements, in statement
    order. *)
Definition exprName e : option (string * string) :=
  match e with
  | ECommand n => Some (Action n, Entity n)
  | EValue _ => None
  end.

Definition commandNames sts : list (string * string) :=
  omap (λ st, exprName (extractExpressionNode st)) sts.

(** The passes that come after [resolveMeta] in the two modes, without
    [convertParams]. *)
Definition laterPasses : list (compileFunc W) :=
  [ verifyCommandsDefinedPass; failOnDeclarationWithNoResultPass;
    processAndValidateParamsPass; checkInvalidReferenceDeclarationsPass;
    resolveHolesPass; resolveMissingHolesPass; resolveAliasPass;
    inlineVariableValuePass; failOnUnresolvedHolesPass; failOnUnresolvedAliasPass;
    validateCommandsPass; injectCommandsPass ].

(** A pass that, whenever it returns, has left the commands of the
    template, its identifier and the command lookup as they were. *)
Definition keepsCommands (pass : compileFunc W) : Prop :=
  ∀ (ord : rangeOrder) (tpl tpl' : Template) (cenv cenv' : compileEnv W) (err : error),
    pass ord tpl cenv = Done (tpl', cenv', err) →
    commandNames (Statements tpl') = commandNames (Statements tpl)
    ∧ ID tpl' = ID tpl
    ∧ LookupCommandFunc cenv' = LookupCommandFunc cenv.

End Notions.

End SpecCommands.

(** ** Templates and environments used as instances *)

Module Examples.

Import Fetch Template.

(** A loader that counts its calls in the world. *)
Definition countingLoader (r : any) : loader (W := nat) := λ calls, ((r, None), S calls).

Definition statement (n : Node) : Statement := {| node := n |}.

Definition emptyEnv {W : Type} (w : W) : compileEnv W :=
  {| LookupCommandFunc := None; AliasFunc := None; MissingHolesFunc := None;
     Fillers := ∅; processedFillers := ∅; resolvedVariables := ∅;
     log := []; world := w |}.

Definition withLookup {W : Type} (lookup : string → option command)
    (cenv : compileEnv W) : compileEnv W :=
  {| LookupCommandFunc := Some lookup; AliasFunc := AliasFunc cenv;
     MissingHolesFunc := MissingHolesFunc cenv; Fillers := Fillers cenv;
     processedFillers := processedFillers cenv;
     resolvedVariables := resolvedVariables cenv;
     log := log cenv; world := world cenv |}.

(** [create instance type=t2.micro], and an environment whose command
    lookup knows no command. *)
Definition createInstance : CommandNode :=
  {| Action := "create"; Entity := "instance";
     Params := {[ "type" := LiteralValue (CString "t2.micro") ]};
     Command := None |}.

Definition tplCreateInstance : Template :=
  {| ID := "tpl"; Statements := [statement (NExpression (ECommand createInstance))] |}.

Definition envNoCommand : compileEnv unit := withLookup (λ _, None) (emptyEnv tt).

(** [create instance subnet=@a vpc=@b], and an environment whose alias
    resolver resolves nothing. *)
Definition createWithAliases : CommandNode :=
  {| Action := "create"; Entity := "instance";
     Params := {[ "subnet" := AliasValue "a"; "vpc" := AliasValue "b" ]};
     Command := None |}.

Definition tplAliases : Template :=
  {| ID := "tpl"; Statements := [statement (NExpression (ECommand createWithAliases))] |}.

Definition envNoAlias : compileEnv unit :=
  {| LookupCommandFunc := None;
     AliasFunc := Some (λ _ _ _, EmptyString); MissingHolesFunc := None;
     Fillers := ∅; processedFillers := ∅; resolvedVariables := ∅;
     log := []; world := tt |}.

(** [create instance] with no parameter, and a command [create instance]
    whose rule requires the key [type]. *)
Definition requiresType : Rule :=
  {| Missing := λ keys, if contains keys "type" then [] else ["type"];
     Validate := λ keys, if contains keys "type" then None
                         else Some "missing required params: type" |}.

Definition cmdCreateInstance : command :=
  {| isCommand := true; cmdParams := Some requiresType;
     hasExtractResult := true; ValidateCommand := None |}.

Definition lookupCreateInstance (key : string) : option command :=
  if bool_decide (key = "createinstance") then Some cmdCreateInstance else None.

Definition createInstanceBare : CommandNode :=
  {| Action := "create"; Entity := "instance"; Params := ∅; Command := None |}.

Definition tplCreateBare : Template :=
  {| ID := "tpl"; Statements := [statement (NExpression (ECommand createInstanceBare))] |}.

Definition envCreateInstance : compileEnv unit := withLookup lookupCreateInstance (emptyEnv tt).

(** [create instance type=t2.micro; delete instance id=i-1], with commands
    that each report one validation error. *)
Definition cmdInvalid (msg : string) : command :=
  {| isCommand := true; cmdParams := None; hasExtractResult := false;
     ValidateCommand := Some (λ _ _, [msg]) |}.

Definition lookupInvalid (key : string) : option command :=
  if bool_decide (key = "createinstance") then Some (cmdInvalid "type is unknown")
  else if bool_decide (key = "deleteinstance") then Some (cmdInvalid "id is unknown")
  else None.

Definition deleteInstance : CommandNode :=
  {| Action := "delete"; Entity := "instance";
     Params := {[ "id" := LiteralValue (CString "i-1") ]};
     Command := None |}.

Definition tplTwoCommands : Template :=
  {| ID := "tpl";
     Statements := [statement (NExpression (ECommand createInstance));
                    statement (NExpression (ECommand deleteInstance))] |}.

Definition envInvalid : compileEnv unit := withLookup lookupInvalid (emptyEnv tt).

(** [create instance type={instance.type} name={instance.name}], the first
    hole with candidates, one of them twice; a callback that writes every
    call it receives to the world and answers with the name it was asked
    about. *)
Definition createWithHoles : CommandNode :=
  {| Action := "create"; Entity := "instance";
     Params := {[ "type" := HoleValue "instance.type" ["t2.micro"; "t2.nano"; "t2.micro"];
                  "name" := HoleValue "instance.name" [] ]};
     Command := None |}.

Definition tplHoles : Template :=
  {| ID := "tpl"; Statements := [statement (NExpression (ECommand createWithHoles))] |}.

Definition promptCallback (name : string) (candidates : list string)
    (asked : list (string * list string)) : any * list (string * list string) :=
  (Some (CString name), asked ++ [(name, candidates)]).

Definition envPrompt : compileEnv (list (string * list string)) :=
  {| LookupCommandFunc := None; AliasFunc := None;
     MissingHolesFunc := Some promptCallback;
     Fillers := ∅; processedFillers := ∅; resolvedVariables := ∅;
     log := []; world := [] |}.

(** [myinst = create instance subnet=$sub]. *)
Definition createInSubnet : CommandNode :=
  {| Action := "create"; Entity := "instance";
     Params := {[ "subnet" := RefValue "sub" ]};
     Command := None |}.

Definition tplUndefinedRef : Template :=
  {| ID := "tpl";
     Statements := [statement (NDeclaration "myinst" (ECommand createInSubnet))] |}.

(** [foo = "bar"; tag instance name=$foo]. *)
Definition tagInstance (name : Value) : CommandNode :=
  {| Action := "tag"; Entity := "instance";
     Params := {[ "name" := name ]};
     Command := None |}.

Definition tplInline : Template :=
  {| ID := "tpl";
     Statements := [statement (NDeclaration "foo" (EValue (LiteralValue (CString "bar"))));
                    statement (NExpression (ECommand (tagInstance (RefValue "foo"))))] |}.

(** [a = create instance type=t2.micro; a = create instance type=t2.micro]. *)
Definition tplRedeclared : Template :=
  {| ID := "tpl";
     Statements := [statement (NDeclaration "a" (ECommand createInstance));
                    statement (NDeclaration "a" (ECommand createInstance))] |}.

(** [create instance bogus=1; create instance], and a command
    [create instance] whose rule requires [type] and accepts no key
    [bogus]. *)
Definition requiresTypeOnly : Rule :=
  {| Missing := λ keys, if contains keys "type" then [] else ["type"];
     Validate := λ keys, if contains keys "bogus" then Some "unexpected param(s): bogus"
                         else None |}.

Definition lookupStrict (key : string) : option command :=
  if bool_decide (key = "createinstance")
  then Some {| isCommand := true; cmdParams := Some requiresTypeOnly;
               hasExtractResult := true; ValidateCommand := None |}
  else None.

Definition createInstanceBogus : CommandNode :=
  {| Action := "create"; Entity := "instance";
     Params := {[ "bogus" := LiteralValue (CInt 1) ]}; Command := None |}.

Definition tplBogus : Template :=
  {| ID := "tpl";
     Statements := [statement (NExpression (ECommand createInstanceBogus));
                    statement (NExpression (ECommand createInstanceBare))] |}.

Definition envStrict : compileEnv unit := withLookup lookupStrict (emptyEnv tt).

(** [create instance type=t2.micro; stop instance id=i-1], the lookup of
    [lookupInvalid], which knows no command [stop instance]. *)
Definition stopInstance : CommandNode :=
  {| Action := "stop"; Entity := "instance";
     Params := {[ "id" := LiteralValue (CString "i-1") ]};
     Command := None |}.

Definition tplUnknownCommand : Template :=
  {| ID := "tpl";
     Statements := [statement (NExpression (ECommand createInstance));
                    statement (NExpression (ECommand stopInstance))] |}.



(** A fetcher with one fetch function, for [instance], which returns two
    resources and an objects payload. *)
Definition fetchInstances : Func (W := unit) (Ctx := unit) :=
  λ _ c w, (([ {| resType := "instance"; resId := "inst_1" |};
               {| resType := "instance"; resId := "inst_2" |} ],
             Some (CString "raw instances"), None), c, w).

Definition instanceFetcher : fetcher (W := unit) (Ctx := unit) :=
  {| fcache := newCache; fetchFuncs := {[ "instance" := fetchInstances ]};
     resourceTypes := ["instance"] |}.

(** [create instance type=t2.micro] with the command of
    [lookupCreateInstance] bound to it. *)
Definition createInstanceBound : CommandNode :=
  {| Action := "create"; Entity := "instance";
     Params := {[ "type" := LiteralValue (CString "t2.micro") ]};
     Command := Some cmdCreateInstance |}.

Definition tplCreateInstanceBound : Template :=
  {| ID := "tpl"; Statements := [statement (NExpression (ECommand createInstanceBound))] |}.

(** [create instance] once the required key [type] has been made a hole. *)
Definition createInstanceWithHole : CommandNode :=
  {| Action := "create"; Entity := "instance";
     Params := {[ "type" := HoleValue "instance.type" [] ]};
     Command := None |}.

Definition tplCreateWithHole : Template :=
  {| ID := "tpl"; Statements := [statement (NExpression (ECommand createInstanceWithHole))] |}.




(** An environment whose fillers cover the hole [instance.type] and not
    the hole [instance.name]. *)
Definition envFillers : compileEnv unit :=
  {| LookupCommandFunc := None; AliasFunc := None; MissingHolesFunc := None;
     Fillers := {[ "instance.type" := Some (CString "t2.micro");
                   "unused" := Some (CInt 1) ]};
     processedFillers := ∅; resolvedVariables := ∅;
     log := []; world := tt |}.

(** The template [tplHoles] with the hole [instance.type] filled, and with
    both holes filled with their names. *)
Definition tplHolesTypeFilled : Template :=
  {| ID := "tpl";
     Statements :=
       [statement
          (NExpression
             (ECommand
                {| Action := "create"; Entity := "instance";
                   Params := {[ "type" := LiteralValue (CString "t2.micro");
                                "name" := HoleValue "instance.name" [] ]};
                   Command := None |}))] |}.

Definition tplHolesAnswered : Template :=
  {| ID := "tpl";
     Statements :=
       [statement
          (NExpression
             (ECommand
                {| Action := "create"; Entity := "instance";
                   Params := {[ "type" := LiteralValue (CString "instance.type");
                                "name" := LiteralValue (CString "instance.name") ]};
                   Command := None |}))] |}.



Definition resolveEvery (entity key alias : string) : string := "id-" +:+ alias.

Definition envResolveEvery : compileEnv unit :=
  {| LookupCommandFunc := None;
     AliasFunc := Some resolveEvery; MissingHolesFunc := None;
     Fillers := ∅; processedFillers := ∅; resolvedVariables := ∅;
     log := []; world := tt |}.

Definition tplAliasesResolved : Template :=
  {| ID := "tpl";
     Statements :=
       [statement
          (NExpression
             (ECommand
                {| Action := "create"; Entity := "instance";
                   Params := {[ "subnet" := LiteralValue (CString "id-a");
                                "vpc" := LiteralValue (CString "id-b") ]};
                   Command := None |}))] |}.

(** Three statements, [create instance type=t2.micro] at the first and at
    the last place, and the template [delete instance id=i-1; stop instance
    id=i-1] to put in the place of one of them. *)
Definition tplThree : Template :=
  {| ID := "tpl";
     Statements := [statement (NExpression (ECommand createInstance));
                    statement (NExpression (ECommand (tagInstance (RefValue "foo"))));
                    statement (NExpression (ECommand createInstance))] |}.

Definition tplReplacement : Template :=
  {| ID := "sub";
     Statements := [statement (NExpression (ECommand deleteInstance));
                    statement (NExpression (ECommand stopInstance))] |}.

Definition isCreate (st : Statement) : bool :=
  match commandNodeOf st with
  | Some n => bool_decide (Action n = "create")
  | None => false
  end.

(** A fetcher made by [NewFetcher]. *)
Definition newInstanceFetcher : fetcher (W := unit) (Ctx := unit) :=
  NewFetcher inOrder {[ "instance" := fetchInstances ]}.



End Examples.

(** * Properties *)

(** ** The fetch cache and the fetcher *)

Module FetchProps.

Import Fetch.

Section WithWorld.

Context {W Ctx : Type}.

Implicit Types (c : cache) (k : string) (w : W) (l : loader (W := W)).

(** A slot whose guard has fired answers every [Get] from its fields: no
    loader runs, cache and world stay as they are. *)
Lemma Get_fired c k slot (funcs : list (loader (W := W))) w :
  cached c !! k = Some slot → once slot = true →
  Get c k funcs w = ((result slot, err slot), c, w).
Proof.
  intros Hk Hfired. unfold Get. rewrite Hk.
  destruct funcs as [|f ?]; [done|]. by rewrite Hfired.
Qed.

(** A slot whose guard has not fired runs the loader it is given and keeps
    what the loader returned. *)
Lemma Get_fresh c k slot l (ls : list (loader (W := W))) w :
  cached c !! k = Some slot → once slot = false →
  Get c k (l :: ls) w
  = ((l w).1,
     {| cached := <[k := {| once := true; err := (l w).1.2; result := (l w).1.1 |}]>
                    (cached c) |},
     (l w).2).
Proof.
  intros Hk Hfresh. unfold Get. rewrite Hk, Hfresh.
  by destruct (l w) as [[r e] w'].
Qed.

Lemma Get_absent c k l (ls : list (loader (W := W))) w :
  cached c !! k = None →
  Get c k (l :: ls) w
  = ((l w).1,
     {| cached := <[k := {| once := true; err := (l w).1.2; result := (l w).1.1 |}]>
                    (cached c) |},
     (l w).2).
Proof.
  intros Hk. unfold Get. rewrite Hk. simpl.
  destruct (l w) as [[r e] w']. simpl. by rewrite insert_insert_eq.
Qed.

(** After a [Get] with a loader the slot of the key has fired and holds the
    pair that this [Get] returned. *)
Lemma Get_loader_fires c k l (ls : list (loader (W := W))) w :
  cached (Get c k (l :: ls) w).1.2 !! k
  = Some {| once := true;
            err := (Get c k (l :: ls) w).1.1.2;
            result := (Get c k (l :: ls) w).1.1.1 |}.
Proof.
  destruct (cached c !! k) as [slot|] eqn:Hk.
  - destruct (once slot) eqn:Hs.
    + rewrite (Get_fired _ _ slot) by done. simpl. rewrite Hk.
      destruct slot; simpl in *; by subst.
    + rewrite (Get_fresh _ _ slot) by done. simpl. by rewrite lookup_insert_eq.
  - rewrite Get_absent by done. simpl. by rewrite lookup_insert_eq.
Qed.

Lemma Get_Store_no_loader c k (v : any) w :
  Get (Store c k v) k [] w = ((v, None), Store c k v, w).
Proof. unfold Get, Store. simpl. by rewrite lookup_insert_eq. Qed.

Lemma Get_Store_loader c k (v : any) l (ls : list (loader (W := W))) w :
  Get (Store c k v) k (l :: ls) w
  = ((l w).1,
     {| cached := <[k := {| once := true; err := (l w).1.2; result := (l w).1.1 |}]>
                    (cached (Store c k v)) |},
     (l w).2).
Proof.
  apply (Get_fresh _ _ {| once := false; err := None; result := v |}); [|done].
  unfold Store. simpl. by rewrite lookup_insert_eq.
Qed.

(** C5.  Once [Get(k, loader)] has gone through the one-shot guard of the
    current slot, every later [Get] on that slot, with whatever loader (or
    none), leaves the loader alone (the world and the cache are as before)
    and returns the stored pair, which is the pair the first [Get] returned
    and, when the guard had not fired before, the pair its loader produced.
    After [Store(k, v)] the slot is a new one: [Get(k)] without a loader
    returns [(v, nil)], and [Get(k, loader)] runs the loader again. *)
Theorem cache_one_shot_and_store_reset c k (v : any) l
    (ls funcs : list (loader (W := W))) w w2 :
  Get (Get c k (l :: ls) w).1.2 k funcs w2
    = ((Get c k (l :: ls) w).1.1, (Get c k (l :: ls) w).1.2, w2)
  ∧ ((∀ slot, cached c !! k = Some slot → once slot = false) →
       (Get c k (l :: ls) w).1.1 = (l w).1 ∧ (Get c k (l :: ls) w).2 = (l w).2)
  ∧ Get (Store c k v) k [] w = ((v, None), Store c k v, w)
  ∧ Get (Store c k v) k (l :: ls) w
    = ((l w).1,
       {| cached := <[k := {| once := true; err := (l w).1.2; result := (l w).1.1 |}]>
                      (cached (Store c k v)) |},
       (l w).2).
Proof.
  split; [|split; [|split]].
  - pose proof (Get_loader_fires c k l ls w) as Hslot.
    rewrite (Get_fired _ _ _ funcs w2 Hslot eq_refl). simpl.
    by destruct (Get c k (l :: ls) w) as [[[r e] c1] w1].
  - intros Hfresh. destruct (cached c !! k) as [slot|] eqn:Hk.
    + by rewrite (Get_fresh _ _ slot) by eauto.
    + by rewrite Get_absent.
  - apply Get_Store_no_loader.
  - apply Get_Store_loader.
Qed.

(** C10.  For a key the cache does not hold, [Get(k)] without a loader
    returns [(nil, nil)] and leaves an empty slot for [k] whose guard has
    not fired: the cache is not the one it was, and the next
    [Get(k, loader)] runs its loader. *)
Theorem get_without_loader_creates_slot c k l (ls : list (loader (W := W))) w w2
    (Habsent : cached c !! k = None) :
  Get c k [] w
    = ((None, None),
       {| cached := <[k := {| once := false; err := None; result := None |}]> (cached c) |},
       w)
  ∧ (Get c k [] w).1.2 ≠ c
  ∧ Get (Get c k [] w).1.2 k (l :: ls) w2
    = ((l w2).1,
       {| cached := <[k := {| once := true; err := (l w2).1.2; result := (l w2).1.1 |}]>
                      (cached (Get c k [] w).1.2) |},
       (l w2).2).
Proof.
  assert (Get c k [] w
    = ((None, None),
       {| cached := <[k := {| once := false; err := None; result := None |}]> (cached c) |},
       w)) as Hget.
  { unfold Get. by rewrite Habsent. }
  rewrite Hget. simpl. split; [done|]. split.
  - intros Heq. apply (f_equal (λ c', cached c' !! k)) in Heq. simpl in Heq.
    rewrite lookup_insert_eq, Habsent in Heq. done.
  - rewrite (Get_fresh _ _ {| once := false; err := None; result := None |}); [done| |done].
    simpl. by rewrite lookup_insert_eq.
Qed.

(** C9.  For a resource type with no fetch function, [FetchByType] returns
    a graph that is not nil and holds nothing, with the error
    "no fetch func defined for resource type '<t>'".  For every resource
    type the graph returned is not nil, and the cache then holds, under
    "<t>_objects", a slot with the objects of the fetch (nil when there is
    no fetch function) and no error. *)
Theorem fetch_by_type_graph_and_objects (f : fetcher (W := W) (Ctx := Ctx))
    (ctx : Ctx) (t : string) w :
  (fetchFuncs f !! t = None →
     (FetchByType f ctx t w).1.1
       = (Some NewGraph, Some ("no fetch func defined for resource type '" +:+ t +:+ "'"))
     ∧ String.prefix "no fetch func defined"
         ("no fetch func defined for resource type '" +:+ t +:+ "'") = true
     ∧ Objects (fetchResource f ctx t w).1.1 = None)
  ∧ is_Some (FetchByType f ctx t w).1.1.1
  ∧ (∀ fn, fetchFuncs f !! t = Some fn →
       Objects (fetchResource f ctx t w).1.1 = (fn ctx (fcache f) w).1.1.1.2
       ∧ (FetchByType f ctx t w).1.1.2 = (fn ctx (fcache f) w).1.1.2)
  ∧ cached (fcache (FetchByType f ctx t w).1.2) !! (t +:+ "_objects")
    = Some {| once := false; err := None;
              result := Objects (fetchResource f ctx t w).1.1 |}.
Proof.
  unfold FetchByType, fetchResource.
  destruct (fetchFuncs f !! t) as [fn|] eqn:Hfn.
  - destruct (fn ctx (fcache f) w) as [[[[rs objs] e] c1] w1] eqn:Hrun. simpl.
    split; [done|].
    assert (∀ fn', Some fn = Some fn' → fn' ctx (fcache f) w = (rs, objs, e, c1, w1))
      as Hsame by (by intros ? [= <-]).
    destruct e as [msg|]; simpl.
    + split; [by eexists|]. split.
      * intros fn' Hfn'. by rewrite (Hsame fn' Hfn').
      * by rewrite lookup_insert_eq.
    + split; [by eexists|]. split.
      * intros fn' Hfn'. by rewrite (Hsame fn' Hfn').
      * by rewrite lookup_insert_eq.
  - simpl. split; [done|]. split; [by eexists|]. split; [done|].
    by rewrite lookup_insert_eq.
Qed.

End WithWorld.

End FetchProps.

(** ** Enumerating a map *)

Module RangeProps.

Section Range.

Context (ord : rangeOrder) {V : Type}.

Implicit Types (m : gmap string V) (k : string) (v : V).

(** Whatever the order, [range] visits the entries of the map, each key
    once. *)
Lemma elem_of_range m k v : (k, v) ∈ range ord m ↔ m !! k = Some v.
Proof. unfold range. by rewrite (order_perm ord), elem_of_map_to_list. Qed.

Lemma NoDup_range_keys m : NoDup (range ord m).*1.
Proof. unfold range. rewrite (order_perm ord). apply NoDup_fst_map_to_list. Qed.

Lemma elem_of_range_keys m k : k ∈ (range ord m).*1 ↔ is_Some (m !! k).
Proof.
  rewrite list_elem_of_fmap. split.
  - intros ([k' v] & -> & Hin%elem_of_range). by exists v.
  - intros [v Hv]. exists (k, v). split; [done|]. by apply elem_of_range.
Qed.

End Range.

End RangeProps.

(** ** The compiler passes *)

Module CheckRefsProps.

Import Template Spec.

Section CheckRefs.

Context {W : Type} (ord : rangeOrder).

Implicit Types (sts pre : list Statement) (st : Statement)
  (known : gmap string bool) (r : string).

Local Abbreviation stmtRefs := (stmtRefs ord).
Local Abbreviation stmtOK := (stmtOK ord).

Lemma eachRef_None known (refs : list string) :
  eachRef known refs = None ↔ ∀ r, r ∈ refs → is_Some (known !! r).
Proof.
  induction refs as [|x refs IH]; simpl.
  - split; [|done]. intros _ r Hr. by apply elem_of_nil in Hr.
  - destruct (known !! x) eqn:Hx.
    + rewrite IH. split.
      * intros Hrest r Hr. apply elem_of_cons in Hr as [Heq|Hr]; [|by apply Hrest].
        subst. by rewrite Hx.
      * intros Hall r Hr. apply Hall. by right.
    + split; [done|]. intros H. destruct (H x) as [? Hsome]; [by left|].
      by rewrite Hx in Hsome.
Qed.

Lemma eachRef_first known (p q : list string) r :
  (∀ x, x ∈ p → is_Some (known !! x)) → known !! r = None →
  eachRef known (p ++ r :: q) = Some (undefinedMsg r).
Proof.
  induction p as [|x p IH]; simpl; intros Hp Hr.
  - by rewrite Hr.
  - destruct (Hp x) as [b ->]; [by left|]. apply IH; [|done].
    intros y Hy. apply Hp. by right.
Qed.

Lemma each_stmt known st :
  match node st with
  | NExpression n => each ord known n
  | NDeclaration _ expr => each ord known expr
  end = eachRef known (stmtRefs st).
Proof. unfold stmtRefs, extractExpressionNode, each. by destruct (node st). Qed.

Lemma declaredIn_snoc pre st :
  declaredIn (pre ++ [st])
  = declaredIn pre ++ match declIdent st with Some r => [r] | None => [] end.
Proof. unfold declaredIn. rewrite omap_app. simpl. by destruct (declIdent st). Qed.

(** One turn of the loop on a statement that is in order. *)
Lemma check_step pre st rest known :
  knows known (declaredIn pre) → stmtOK (declaredIn pre) st →
  ∃ known', knows known' (declaredIn (pre ++ [st]))
          ∧ checkStatements ord (st :: rest) known = checkStatements ord rest known'.
Proof.
  intros Hk [Hrefs Hdecl]. simpl. rewrite each_stmt.
  assert (eachRef known (stmtRefs st) = None) as ->.
  { apply eachRef_None. intros r Hr. apply Hk. by apply Hrefs. }
  rewrite declaredIn_snoc. unfold declIdent in *.
  destruct (node st) as [ident expr|e].
  - destruct (known !! ident) eqn:Hid.
    + exfalso. apply (Hdecl ident eq_refl). apply Hk. by rewrite Hid.
    + exists (<[ident := true]> known). split; [|done].
      intros r. rewrite elem_of_app, list_elem_of_singleton, <-(Hk r).
      destruct (decide (ident = r)) as [->|Hne].
      * rewrite lookup_insert_eq. split; [by right|by eexists].
      * rewrite lookup_insert_ne by done. split; [by left|]. by intros [?|?].
  - exists known. split; [|done]. intros r. rewrite app_nil_r. apply Hk.
Qed.

(** The scan from a prefix in order: the statements at [0 .. i) are in
    order, so the loop reaches statement [i] with [knownRefs] holding what
    they declare. *)
Lemma check_reach sts known i :
  knows known [] →
  (∀ j st, j < i → sts !! j = Some st → stmtOK (declaredIn (take j sts)) st) →
  i ≤ length sts →
  ∃ known', knows known' (declaredIn (take i sts))
          ∧ checkStatements ord sts known = checkStatements ord (drop i sts) known'.
Proof.
  intros Hk Hok. induction i as [|i IH]; intros Hlen.
  - exists known. by rewrite drop_0.
  - destruct IH as (known' & Hk' & ->); [intros; apply Hok; [lia|done] | lia |].
    destruct (lookup_lt_is_Some_2 sts i) as [st Hst]; [lia|].
    rewrite (drop_S _ _ _ Hst).
    destruct (check_step (take i sts) st (drop (S i) sts) known') as (known'' & Hk'' & ->);
      [done | by apply Hok; [lia|] |].
    exists known''. by rewrite (take_S_r _ _ _ Hst).
Qed.

Lemma check_all_ok sts known :
  knows known [] →
  (∀ i st, sts !! i = Some st → stmtOK (declaredIn (take i sts)) st) →
  checkStatements ord sts known = None.
Proof.
  intros Hk Hok.
  destruct (check_reach sts known (length sts)) as (known' & _ & ->); [done| |lia|].
  - intros j st _. apply Hok.
  - by rewrite drop_all.
Qed.

Lemma check_undefined sts known i st (p q : list string) r :
  knows known [] →
  (∀ j st', j < i → sts !! j = Some st' → stmtOK (declaredIn (take j sts)) st') →
  sts !! i = Some st →
  stmtRefs st = p ++ r :: q →
  (∀ x, x ∈ p → x ∈ declaredIn (take i sts)) →
  r ∉ declaredIn (take i sts) →
  checkStatements ord sts known = Some (undefinedMsg r).
Proof.
  intros Hk Hok Hst Hrefs Hp Hr.
  destruct (check_reach sts known i) as (known' & Hk' & ->);
    [done|done|by apply Nat.lt_le_incl, (lookup_lt_Some _ _ _ Hst)|].
  rewrite (drop_S _ _ _ Hst). simpl. rewrite each_stmt, Hrefs.
  rewrite (eachRef_first known' p q r); [done| |].
  - intros x Hx. apply Hk'. by apply Hp.
  - apply eq_None_not_Some. by rewrite (Hk' r).
Qed.

Lemma check_already_assigned sts known i st r expr :
  knows known [] →
  (∀ j st', j < i → sts !! j = Some st' → stmtOK (declaredIn (take j sts)) st') →
  sts !! i = Some st →
  node st = NDeclaration r expr →
  (∀ x, x ∈ stmtRefs st → x ∈ declaredIn (take i sts)) →
  r ∈ declaredIn (take i sts) →
  checkStatements ord sts known = Some (alreadyAssignedMsg r).
Proof.
  intros Hk Hok Hst Hnode Hrefs Hr.
  destruct (check_reach sts known i) as (known' & Hk' & ->);
    [done|done|by apply Nat.lt_le_incl, (lookup_lt_Some _ _ _ Hst)|].
  rewrite (drop_S _ _ _ Hst). simpl. rewrite each_stmt.
  assert (eachRef known' (stmtRefs st) = None) as ->.
  { apply eachRef_None. intros x Hx. apply Hk'. by apply Hrefs. }
  rewrite Hnode. destruct (proj2 (Hk' r) Hr) as [b Hb]. by rewrite Hb.
Qed.

(** Each statement either is in order or has a first fault. *)
Lemma stmtOK_dec (before : list string) st :
  stmtOK before st
  ∨ (∃ p r q, stmtRefs st = p ++ r :: q ∧ (∀ x, x ∈ p → x ∈ before) ∧ r ∉ before)
  ∨ (∃ r expr, node st = NDeclaration r expr
               ∧ (∀ x, x ∈ stmtRefs st → x ∈ before) ∧ r ∈ before).
Proof.
  destruct (list_find (λ x, x ∉ before) (stmtRefs st)) as [[n r]|] eqn:Hfind.
  - right; left. apply list_find_Some in Hfind as (Hn & Hr & Hbefore).
    exists (take n (stmtRefs st)), r, (drop (S n) (stmtRefs st)).
    split; [by rewrite take_drop_middle|]. split; [|done].
    intros x (j & Hj & Hlt)%elem_of_take.
    destruct (decide (x ∈ before)) as [|Hx]; [done|]. by destruct (Hbefore j x).
  - assert (∀ x, x ∈ stmtRefs st → x ∈ before) as Hrefs.
    { intros x Hx. apply list_find_None in Hfind.
      rewrite Forall_forall in Hfind. specialize (Hfind x Hx).
      by destruct (decide (x ∈ before)). }
    unfold stmtOK, declIdent. destruct (node st) as [ident expr|e] eqn:Hnode.
    + destruct (decide (ident ∈ before)) as [Hin|Hout].
      * right; right. by exists ident, expr.
      * left. split; [done|]. by intros r [= <-].
    + left. by split.
Qed.

Lemma check_None_inv sts known :
  knows known [] → checkStatements ord sts known = None →
  ∀ i st, sts !! i = Some st → stmtOK (declaredIn (take i sts)) st.
Proof.
  intros Hk Hnone i. induction (lt_wf i) as [i _ IH]. intros st Hst.
  destruct (stmtOK_dec (declaredIn (take i sts)) st)
    as [Hok|[(p & r & q & Hrefs & Hp & Hr)|(r & expr & Hnode & Hrefs & Hr)]]; [done|..].
  - by rewrite (check_undefined sts known i st p q r) in Hnone
      by (try done; intros j st' Hj Hst'; by apply IH).
  - by rewrite (check_already_assigned sts known i st r expr) in Hnone
      by (try done; intros j st' Hj Hst'; by apply IH).
Qed.

Lemma knows_empty : knows ∅ [].
Proof. intros r. rewrite lookup_empty, elem_of_nil. split; [by intros [??]|done]. Qed.

Lemma elem_of_declaredIn_take sts i r :
  r ∈ declaredIn (take i sts)
  ↔ ∃ j st, j < i ∧ sts !! j = Some st ∧ declIdent st = Some r.
Proof.
  unfold declaredIn. rewrite list_elem_of_omap. split.
  - intros (st & (j & Hj & Hlt)%elem_of_take & Hst). by exists j, st.
  - intros (j & st & Hlt & Hj & Hst). exists st. split; [|done].
    apply elem_of_take. by exists j.
Qed.

(** Distinct identifiers, position by position. *)
Lemma NoDup_declaredIn sts :
  NoDup (declaredIn sts)
  ↔ ∀ i st r, sts !! i = Some st → declIdent st = Some r → r ∉ declaredIn (take i sts).
Proof.
  induction sts as [|st sts IH] using rev_ind.
  - split; [|constructor]. intros _ i st r Hi. by rewrite lookup_nil in Hi.
  - rewrite declaredIn_snoc, NoDup_app, IH. split.
    + intros (Hsts & Hnew & _) i st' r Hi Hr.
      destruct (decide (i < length sts)) as [Hlt|Hge].
      * rewrite lookup_app_l in Hi by done. rewrite take_app_le by lia. by eapply Hsts.
      * rewrite lookup_app_r in Hi by lia.
        destruct (i - length sts) as [|?] eqn:Hd; [|done]. simplify_eq/=.
        assert (i = length sts) as -> by lia. rewrite take_app_length.
        intros Hin. apply (Hnew r Hin). rewrite Hr. by left.
    + intros H. split; [|split].
      * intros i st' r Hi Hr. specialize (H i st' r).
        pose proof (lookup_lt_Some _ _ _ Hi) as Hlt.
        rewrite lookup_app_l, take_app_le in H by lia.
        by apply H.
      * intros r Hin Hr. destruct (declIdent st) as [r'|] eqn:Hst;
          [|by apply elem_of_nil in Hr].
        apply list_elem_of_singleton in Hr as ->.
        apply (H (length sts) st r'); [|done|by rewrite take_app_length].
        by rewrite lookup_app_r, Nat.sub_diag by lia.
      * destruct (declIdent st); [apply NoDup_singleton|constructor].
Qed.

(** "Every ref resolves to a strictly earlier declaration and all
    declaration identifiers are distinct", against the statements being in
    order one by one. *)
Lemma all_ok_iff sts :
  (∀ i st, sts !! i = Some st → stmtOK (declaredIn (take i sts)) st)
  ↔ (∀ i st r, sts !! i = Some st → r ∈ stmtRefs st →
        ∃ j st', j < i ∧ sts !! j = Some st' ∧ declIdent st' = Some r)
    ∧ NoDup (declaredIn sts).
Proof.
  rewrite NoDup_declaredIn. split.
  - intros Hok. split.
    + intros i st r Hi Hr. apply elem_of_declaredIn_take. by apply (Hok i st Hi).
    + intros i st r Hi Hr. by apply (Hok i st Hi).
  - intros [Hrefs Hdup] i st Hi. split.
    + intros r Hr. apply elem_of_declaredIn_take. by eapply Hrefs.
    + intros r Hr. by eapply Hdup.
Qed.

(** C1.  [checkInvalidReferenceDeclarations] scans the statements once,
    from an empty set of known identifiers, and returns the template and
    the environment as they were given.
    - It fails with "using reference '$r' but 'r' is undefined in template"
      (and a line feed) at the first statement that is not in order when
      that statement uses a reference that no earlier statement declares;
      [r] is the first such reference.
    - It fails with "using reference '$r' but 'r' has already been assigned
      in template" (and a line feed) at the first statement that is not in
      order when that one uses declared references only and declares [r],
      which an earlier statement declared.
    - It succeeds if and only if every reference used is declared by a
      strictly earlier statement and the declared identifiers are
      distinct. *)
Theorem checkInvalidReferenceDeclarations_forward_scan
    (tpl : Template) (cenv : compileEnv W) :
  (∃ err, checkInvalidReferenceDeclarationsPass ord tpl cenv = Done (tpl, cenv, err))
  ∧ (∀ i st p r q,
       (∀ j st', j < i → Statements tpl !! j = Some st' →
                 stmtOK (declaredIn (take j (Statements tpl))) st') →
       Statements tpl !! i = Some st →
       stmtRefs st = p ++ r :: q →
       (∀ x, x ∈ p → x ∈ declaredIn (take i (Statements tpl))) →
       r ∉ declaredIn (take i (Statements tpl)) →
       checkInvalidReferenceDeclarationsPass ord tpl cenv
       = Done (tpl, cenv,
               Some ("using reference '$" +:+ r +:+ "' but '" +:+ r
                       +:+ "' is undefined in template" +:+ LF)))
  ∧ (∀ i st r expr,
       (∀ j st', j < i → Statements tpl !! j = Some st' →
                 stmtOK (declaredIn (take j (Statements tpl))) st') →
       Statements tpl !! i = Some st →
       node st = NDeclaration r expr →
       (∀ x, x ∈ stmtRefs st → x ∈ declaredIn (take i (Statements tpl))) →
       r ∈ declaredIn (take i (Statements tpl)) →
       checkInvalidReferenceDeclarationsPass ord tpl cenv
       = Done (tpl, cenv,
               Some ("using reference '$" +:+ r +:+ "' but '" +:+ r
                       +:+ "' has already been assigned in template" +:+ LF)))
  ∧ (checkInvalidReferenceDeclarationsPass ord tpl cenv = Done (tpl, cenv, None)
     ↔ (∀ i st r, Statements tpl !! i = Some st → r ∈ stmtRefs st →
           ∃ j st', j < i ∧ Statements tpl !! j = Some st' ∧ declIdent st' = Some r)
       ∧ NoDup (declaredIn (Statements tpl))).
Proof.
  unfold checkInvalidReferenceDeclarationsPass.
  split; [by eexists|]. split; [|split].
  - intros i st p r q Hok Hst Hrefs Hp Hr.
    by rewrite (check_undefined _ _ i st p q r knows_empty Hok Hst Hrefs Hp Hr).
  - intros i st r expr Hok Hst Hnode Hrefs Hr.
    by rewrite (check_already_assigned _ _ i st r expr knows_empty Hok Hst Hnode Hrefs Hr).
  - rewrite <-all_ok_iff. split.
    + intros [= Hnone]. by apply (check_None_inv _ ∅ knows_empty).
    + intros Hok. by rewrite (check_all_ok _ ∅ knows_empty Hok).
Qed.

End CheckRefs.

End CheckRefsProps.

Module InlineProps.

Import Template Spec RangeProps.

Section Inline.

Context {W : Type} (ord : rangeOrder).

Implicit Types (sts : list Statement) (st d : Statement) (cenv : compileEnv W).

Local Abbreviation stmtRefs := (stmtRefs ord).

Lemma length_foundUpTo sts n : n ≤ length sts → length (foundUpTo sts n) = n.
Proof.
  induction n as [|n IH]; [done|]. intros Hn. simpl.
  destruct (lookup_lt_is_Some_2 sts n) as [st ->]; [lia|].
  rewrite length_app, IH by lia. simpl. lia.
Qed.

Lemma foundUpTo_S sts n st :
  sts !! n = Some st →
  foundUpTo sts (S n)
  = foundUpTo sts n ++ [foldl (λ s d, applyDecl d s) st (foundUpTo sts n)].
Proof. intros Hst. simpl. by rewrite Hst. Qed.

Lemma foundUpTo_prefix sts n m :
  n ≤ m → m ≤ length sts → take n (foundUpTo sts m) = foundUpTo sts n.
Proof.
  intros Hnm. induction Hnm as [|m Hnm IH]; intros Hm.
  - rewrite take_ge; [done|]. rewrite length_foundUpTo; lia.
  - destruct (lookup_lt_is_Some_2 sts m) as [st Hst]; [lia|].
    rewrite (foundUpTo_S _ _ _ Hst), take_app_le; [apply IH; lia|].
    rewrite length_foundUpTo; lia.
Qed.

Lemma length_found sts : length (found sts) = length sts.
Proof. by apply length_foundUpTo. Qed.

(** Statement [i] as found: the statement of the template with the
    replacements of the statements found before it. *)
Lemma found_lookup sts i st :
  sts !! i = Some st →
  found sts !! i = Some (foldl (λ s d, applyDecl d s) st (take i (found sts))).
Proof.
  intros Hst. pose proof (lookup_lt_Some _ _ _ Hst) as Hlt. unfold found.
  rewrite (foundUpTo_prefix sts i (length sts)) by lia.
  rewrite <-(lookup_take_lt _ (S i)) by lia.
  rewrite (foundUpTo_prefix sts (S i) (length sts)) by lia.
  rewrite (foundUpTo_S _ _ _ Hst), lookup_app_r; rewrite length_foundUpTo by lia; [|lia].
  by rewrite Nat.sub_diag.
Qed.

(** The inner loop touches the statements after [i], and only those. *)
Lemma foldl_alter_seq (f : Statement → Statement) (l : list Statement) (start n j : nat) :
  foldl (λ acc k, alter f k acc) l (seq start n) !! j
  = if decide (start ≤ j < start + n) then f <$> l !! j else l !! j.
Proof.
  revert l start. induction n as [|n IH]; intros l start; simpl.
  - case_decide; [lia|done].
  - rewrite IH. destruct (decide (start = j)) as [->|Hne].
    + rewrite list_lookup_alter_eq. repeat case_decide; try lia; done.
    + rewrite list_lookup_alter_ne by done. repeat case_decide; try lia; done.
Qed.

Lemma replaceInLater_lookup (i : nat) ident value sts (j : nat) :
  replaceInLater i ident value sts !! j
  = (if decide (i < j)
     then (λ st, setExpressionNode st (ReplaceRef ident value (extractExpressionNode st)))
            <$> sts !! j
     else sts !! j).
Proof.
  unfold replaceInLater. rewrite foldl_alter_seq.
  destruct (decide (j < length sts)) as [Hj|Hj].
  - repeat case_decide; try lia; done.
  - rewrite (lookup_ge_None_2 sts j) by lia. by repeat case_decide.
Qed.

Lemma stateAt_lookup sts i j :
  stateAt sts i !! j
  = (λ st, foldl (λ s d, applyDecl d s) st (take j (foundUpTo sts i))) <$> sts !! j.
Proof. unfold stateAt. by rewrite list_lookup_imap. Qed.

Lemma stateAt_current sts i st :
  sts !! i = Some st →
  stateAt sts i !! i = Some (foldl (λ s d, applyDecl d s) st (foundUpTo sts i)).
Proof.
  intros Hst. rewrite stateAt_lookup, Hst. simpl. rewrite take_ge; [done|].
  rewrite length_foundUpTo; [done|]. by apply Nat.lt_le_incl, (lookup_lt_Some _ _ _ Hst).
Qed.

(** One turn takes the state after [i] turns to the state after [i + 1]. *)
Lemma stateAt_S sts i st :
  sts !! i = Some st →
  stateAt sts (S i)
  = imap (λ j s, if decide (i < j)
                 then applyDecl (foldl (λ s d, applyDecl d s) st (foundUpTo sts i)) s
                 else s)
         (stateAt sts i).
Proof.
  intros Hst. pose proof (lookup_lt_Some _ _ _ Hst) as Hlt.
  apply list_eq. intros j.
  rewrite list_lookup_imap, !stateAt_lookup, (foundUpTo_S _ _ _ Hst).
  destruct (sts !! j) as [sj|]; [simpl|done]. f_equal.
  case_decide.
  - rewrite take_ge by (rewrite length_app, length_foundUpTo; simpl; lia).
    rewrite take_ge by (rewrite length_foundUpTo; lia).
    by rewrite foldl_app.
  - rewrite take_app_le; [done|]. rewrite length_foundUpTo; lia.
Qed.

Lemma kept_snoc l st :
  kept (l ++ [st]) = kept l ++ (if isResolvedValueDecl st then [] else [st]).
Proof.
  unfold kept. rewrite filter_app. f_equal.
  destruct (isResolvedValueDecl st) eqn:Hst.
  - rewrite filter_cons_False; [done|]. by rewrite Hst.
  - by rewrite filter_cons_True.
Qed.

Lemma recorded_snoc l st :
  recorded (l ++ [st])
  = recorded l ++ match recordedPair st with Some p => [p] | None => [] end.
Proof. unfold recorded. rewrite omap_app. simpl. by destruct (recordedPair st). Qed.

(** The loop after [i] turns. *)
Lemma inline_loop sts cenv i :
  i ≤ length sts →
  foldl inlineStep (sts, [], cenv) (seq 0 i)
  = (stateAt sts i, kept (foundUpTo sts i), recordAll (recorded (foundUpTo sts i)) cenv).
Proof.
  induction i as [|i IH]; intros Hi.
  - simpl. f_equal. f_equal. unfold stateAt. apply list_eq. intros j.
    rewrite list_lookup_imap. destruct (sts !! j); [|done]. simpl. by rewrite take_nil.
  - rewrite seq_S, foldl_app, IH by lia.
    destruct (lookup_lt_is_Some_2 sts i) as [st Hst]; [lia|].
    rewrite (foundUpTo_S _ _ _ Hst), kept_snoc, recorded_snoc, (stateAt_S _ _ _ Hst).
    cbn [foldl Nat.add]. unfold inlineStep. rewrite (stateAt_current _ _ _ Hst).
    set (f := foldl (λ s d, applyDecl d s) st (foundUpTo sts i)).
    unfold isResolvedValueDecl, recordedPair.
    destruct (node f) as [ident [n|value]|e] eqn:Hf.
    + rewrite !app_nil_r. f_equal. f_equal. apply list_eq. intros j.
      rewrite list_lookup_imap. destruct (stateAt sts i !! j); [simpl|done].
      case_decide; [|done]. unfold applyDecl. by rewrite Hf.
    + assert (replaceInLater i ident value (stateAt sts i)
              = imap (λ j s, if decide (i < j) then applyDecl f s else s) (stateAt sts i))
        as Hlater.
      { apply list_eq. intros j. rewrite replaceInLater_lookup, list_lookup_imap.
        destruct (stateAt sts i !! j); [simpl|by case_decide].
        case_decide; [|done]. unfold applyDecl. by rewrite Hf. }
      rewrite Hlater.
      destruct value as [c|h cs|r|a|c]; simpl; unfold recordAll;
        rewrite ?foldl_app, ?app_nil_r; done.
    + rewrite !app_nil_r. f_equal. f_equal. apply list_eq. intros j.
      rewrite list_lookup_imap. destruct (stateAt sts i !! j); [simpl|done].
      case_decide; [|done]. unfold applyDecl. by rewrite Hf.
Qed.

Lemma inlineVariableValuePass_found (tpl : Template) cenv :
  inlineVariableValuePass ord tpl cenv
  = Done ({| ID := ID tpl; Statements := kept (found (Statements tpl)) |},
          recordAll (recorded (found (Statements tpl))) cenv, None).
Proof. unfold inlineVariableValuePass. by rewrite inline_loop. Qed.

(** A replacement leaves alone an expression that does not use the
    identifier. *)
Lemma replaceValue_no_ref key value (v : Value) :
  key ∉ valueGetRefs v → replaceValue key value v = v.
Proof.
  unfold replaceValue. destruct v as [c|h cs|r|a|c]; simpl; try done.
  intros Hr. case_bool_decide as Heq; [|done]. subst. destruct Hr. by left.
Qed.

Lemma ReplaceRef_no_ref key value (e : ExpressionNode) :
  key ∉ GetRefs ord e → ReplaceRef key value e = e.
Proof.
  destruct e as [n|v]; simpl; intros Hr.
  - assert (replaceValue key value <$> Params n = Params n) as ->.
    { apply map_eq. intros k. rewrite lookup_fmap.
      destruct (Params n !! k) as [v|] eqn:Hk; [simpl|done]. f_equal.
      apply replaceValue_no_ref. intros Hv. apply Hr.
      unfold commandGetRefs. apply list_elem_of_In, in_flat_map. exists (k, v).
      split; [|by apply list_elem_of_In]. by apply list_elem_of_In, elem_of_range. }
    by destruct n.
  - by rewrite replaceValue_no_ref.
Qed.

Lemma setExpressionNode_same st : setExpressionNode st (extractExpressionNode st) = st.
Proof. unfold setExpressionNode, extractExpressionNode. by destruct st as [[ident e|e]]. Qed.

Lemma applyDecl_no_ref d st :
  (∀ ident value, node d = NDeclaration ident (EValue value) → ident ∉ stmtRefs st) →
  applyDecl d st = st.
Proof.
  unfold applyDecl. destruct (node d) as [ident [n|v]|e]; try done.
  intros H. rewrite ReplaceRef_no_ref by (by apply (H ident v)).
  apply setExpressionNode_same.
Qed.

Lemma foldl_applyDecl_no_ref (l : list Statement) st :
  (∀ d ident value, d ∈ l → node d = NDeclaration ident (EValue value) →
                    ident ∉ stmtRefs st) →
  foldl (λ s d, applyDecl d s) st l = st.
Proof.
  induction l as [|d l IH] using rev_ind; [done|]. intros H.
  rewrite foldl_app. simpl. rewrite IH.
  - apply applyDecl_no_ref. intros ident value. apply (H d ident value), elem_of_app.
    right. by left.
  - intros d' ident value Hd'. apply (H d' ident value), elem_of_app. by left.
Qed.

(** A resolved value has a [Value()], so its declaration has a pair. *)
Lemma resolved_recordedPair st ident (value : Value) :
  node st = NDeclaration ident (EValue value) → IsResolved value = true →
  ∃ c, valueOf value = Some c ∧ recordedPair st = Some (ident, c).
Proof.
  unfold recordedPair. intros -> Hres.
  destruct value as [c|h cs|r|a|c]; try done; by exists c.
Qed.

Lemma recordAll_resolvedVariables (pairs : list (string * concrete)) cenv :
  resolvedVariables (recordAll pairs cenv)
  = foldl (λ m p, <[p.1 := Some p.2]> m) (resolvedVariables cenv) pairs.
Proof.
  revert cenv. induction pairs as [|p pairs IH]; intros cenv; [done|].
  unfold recordAll in *. simpl. by rewrite IH.
Qed.

Lemma recordAll_other (pairs : list (string * concrete)) cenv :
  LookupCommandFunc (recordAll pairs cenv) = LookupCommandFunc cenv
  ∧ AliasFunc (recordAll pairs cenv) = AliasFunc cenv
  ∧ MissingHolesFunc (recordAll pairs cenv) = MissingHolesFunc cenv
  ∧ Fillers (recordAll pairs cenv) = Fillers cenv
  ∧ processedFillers (recordAll pairs cenv) = processedFillers cenv
  ∧ log (recordAll pairs cenv) = log cenv
  ∧ world (recordAll pairs cenv) = world cenv.
Proof.
  revert cenv. induction pairs as [|p pairs IH]; intros cenv; [done|].
  unfold recordAll in *. simpl. by destruct (IH (addResolvedVariables p.1 (Some p.2) cenv))
    as (-> & -> & -> & -> & -> & -> & ->).
Qed.

Lemma foldl_insert_lookup (pairs : list (string * concrete)) (m : gmap string any)
    (ident : string) :
  foldl (λ m p, <[p.1 := Some p.2]> m) m pairs !! ident
  = match last (filter (λ p, p.1 = ident) pairs) with
    | Some p => Some (Some p.2)
    | None => m !! ident
    end.
Proof.
  revert m. induction pairs as [|p pairs IH] using rev_ind; intros m; [done|].
  rewrite foldl_app, filter_app. simpl.
  destruct (decide (p.1 = ident)) as [Heq|Hne].
  - rewrite filter_cons_True, filter_nil, last_snoc by done.
    by rewrite Heq, lookup_insert_eq.
  - rewrite filter_cons_False, filter_nil, app_nil_r by done.
    by rewrite lookup_insert_ne.
Qed.

Lemma recorded_is_Some (pairs : list (string * concrete)) cenv ident c :
  (ident, c) ∈ pairs → is_Some (resolvedVariables (recordAll pairs cenv) !! ident).
Proof.
  intros Hin. rewrite recordAll_resolvedVariables, foldl_insert_lookup.
  destruct (last (filter (λ p, p.1 = ident) pairs)) as [p|] eqn:Hlast; [done|].
  apply last_None in Hlast.
  assert ((ident, c) ∈ filter (λ p, p.1 = ident) pairs) as Hf
    by (by apply list_elem_of_filter).
  rewrite Hlast in Hf. by apply elem_of_nil in Hf.
Qed.

Lemma recorded_NoDup_lookup (pairs : list (string * concrete)) cenv ident c :
  NoDup pairs.*1 → (ident, c) ∈ pairs →
  resolvedVariables (recordAll pairs cenv) !! ident = Some (Some c).
Proof.
  intros Hnd Hin. rewrite recordAll_resolvedVariables, foldl_insert_lookup.
  destruct (last (filter (λ p, p.1 = ident) pairs)) as [[i' c']|] eqn:Hlast.
  - apply last_Some_elem_of, list_elem_of_filter in Hlast as [Hi' Hin']. simpl in *. subst.
    do 2 f_equal.
    pose proof (elem_of_list_to_map_1 (M := gmap string) pairs ident c Hnd Hin) as H1.
    pose proof (elem_of_list_to_map_1 (M := gmap string) pairs ident c' Hnd Hin') as H2.
    congruence.
  - apply last_None in Hlast.
    assert ((ident, c) ∈ filter (λ p, p.1 = ident) pairs) as Hf
      by (by apply list_elem_of_filter).
    rewrite Hlast in Hf. by apply elem_of_nil in Hf.
Qed.

(** C2.  [inlineVariableValue] returns a new statement list (and no
    error).  With [found] the statements as the pass finds them, each one
    having received, in order, [ReplaceRef(identifier, value)] from every
    earlier declaration of a value (resolved or not), as that one was
    found:
    - the new list is [found] without the declarations of a resolved value,
      the other statements in their order;
    - a statement whose expression uses none of the identifiers declared
      with a value before it is found as it was in the template;
    - the environment differs only in its inlined variables, which have
      received the pair of every declaration of a value whose [Value()] is
      not nil, in order; every declaration of a resolved value is among
      them, so its identifier is in the map, with its own value when no
      two recorded declarations share an identifier. *)
Theorem inlineVariableValue_inlines (tpl : Template) cenv :
  inlineVariableValuePass ord tpl cenv
    = Done ({| ID := ID tpl; Statements := kept (found (Statements tpl)) |},
            recordAll (recorded (found (Statements tpl))) cenv, None)
  ∧ length (found (Statements tpl)) = length (Statements tpl)
  ∧ (∀ i st, Statements tpl !! i = Some st →
       found (Statements tpl) !! i
       = Some (foldl (λ s d, applyDecl d s) st (take i (found (Statements tpl)))))
  ∧ (∀ i st, Statements tpl !! i = Some st →
       (∀ d ident value, d ∈ take i (found (Statements tpl)) →
          node d = NDeclaration ident (EValue value) → ident ∉ stmtRefs st) →
       found (Statements tpl) !! i = Some st)
  ∧ (∀ st, st ∈ kept (found (Statements tpl))
           ↔ st ∈ found (Statements tpl) ∧ isResolvedValueDecl st = false)
  ∧ kept (found (Statements tpl)) `sublist_of` found (Statements tpl)
  ∧ (∀ st ident value, st ∈ found (Statements tpl) →
       node st = NDeclaration ident (EValue value) → IsResolved value = true →
       ∃ c, valueOf value = Some c ∧ (ident, c) ∈ recorded (found (Statements tpl))
            ∧ is_Some (resolvedVariables
                         (recordAll (recorded (found (Statements tpl))) cenv) !! ident)
            ∧ (NoDup (recorded (found (Statements tpl))).*1 →
               resolvedVariables
                 (recordAll (recorded (found (Statements tpl))) cenv) !! ident
               = Some (Some c)))
  ∧ resolvedVariables (recordAll (recorded (found (Statements tpl))) cenv)
    = foldl (λ m p, <[p.1 := Some p.2]> m) (resolvedVariables cenv)
            (recorded (found (Statements tpl)))
  ∧ (LookupCommandFunc (recordAll (recorded (found (Statements tpl))) cenv)
       = LookupCommandFunc cenv
     ∧ AliasFunc (recordAll (recorded (found (Statements tpl))) cenv) = AliasFunc cenv
     ∧ MissingHolesFunc (recordAll (recorded (found (Statements tpl))) cenv)
       = MissingHolesFunc cenv
     ∧ Fillers (recordAll (recorded (found (Statements tpl))) cenv) = Fillers cenv
     ∧ processedFillers (recordAll (recorded (found (Statements tpl))) cenv)
       = processedFillers cenv
     ∧ log (recordAll (recorded (found (Statements tpl))) cenv) = log cenv
     ∧ world (recordAll (recorded (found (Statements tpl))) cenv) = world cenv).
Proof.
  split; [apply inlineVariableValuePass_found|].
  split; [apply length_found|].
  split; [apply found_lookup|].
  split.
  { intros i st Hst Hrefs. rewrite (found_lookup _ _ _ Hst).
    by rewrite foldl_applyDecl_no_ref. }
  split; [intros st; unfold kept; rewrite list_elem_of_filter; tauto|].
  split; [apply sublist_filter|].
  split.
  { intros st ident value Hst Hnode Hres.
    destruct (resolved_recordedPair st ident value Hnode Hres) as (c & Hc & Hpair).
    assert ((ident, c) ∈ recorded (found (Statements tpl))) as Hin.
    { unfold recorded. apply list_elem_of_omap. by exists st. }
    exists c. split; [done|]. split; [done|]. split.
    - by eapply recorded_is_Some.
    - intros Hnd. by apply recorded_NoDup_lookup. }
  split; [apply recordAll_resolvedVariables|].
  apply recordAll_other.
Qed.

End Inline.

End InlineProps.

Module VisitProps.

Import Template Spec.

Section Visit.

Implicit Types (sts : list Statement) (st : Statement) (n : CommandNode).

Lemma commandNodes_cons st sts :
  commandNodes (st :: sts)
  = match commandNodeOf st with
    | Some n => n :: commandNodes sts
    | None => commandNodes sts
    end.
Proof. done. Qed.

Lemma commandNodes_tail st sts n : n ∈ commandNodes sts → n ∈ commandNodes (st :: sts).
Proof. rewrite commandNodes_cons. destruct (commandNodeOf st); [by right|done]. Qed.

(** A loop over the command nodes whose body meets no error: every node is
    updated, the state goes through every node in order. *)
Lemma forCommandNodes_no_error {T : Type}
    (body : CommandNode → T → run (CommandNode * T * error))
    (g : CommandNode → CommandNode) (h : T → CommandNode → T) sts (s : T) :
  (∀ n s', n ∈ commandNodes sts → body n s' = Done (g n, h s' n, None)) →
  forCommandNodes body sts s
  = Done (mapCommandNode g <$> sts, foldl h s (commandNodes sts), None).
Proof.
  revert s. induction sts as [|st sts IH]; intros s Hbody; [done|].
  specialize (λ s, IH s (λ n s' Hn, Hbody n s' (commandNodes_tail st sts n Hn))).
  rewrite fmap_cons. unfold mapCommandNode at 1.
  revert Hbody. rewrite commandNodes_cons. cbn [forCommandNodes].
  destruct (commandNodeOf st) as [n|]; intros Hbody.
  - rewrite Hbody by (by left). simpl. by rewrite IH.
  - by rewrite IH.
Qed.

(** A loop over the command nodes that meets its first error at statement
    [i]: the nodes before it are updated, the node of [i] is as its turn
    left it, the statements after [i] are not visited. *)
Lemma forCommandNodes_first_error {T : Type}
    (body : CommandNode → T → run (CommandNode * T * error))
    (g : CommandNode → CommandNode) (h : T → CommandNode → T) sts (s : T)
    (i : nat) st n n' (s1 : T) (msg : string) :
  (∀ m s', m ∈ commandNodes (take i sts) → body m s' = Done (g m, h s' m, None)) →
  sts !! i = Some st → commandNodeOf st = Some n →
  body n (foldl h s (commandNodes (take i sts))) = Done (n', s1, Some msg) →
  forCommandNodes body sts s
  = Done ((mapCommandNode g <$> take i sts)
            ++ setExpressionNode st (ECommand n') :: drop (S i) sts,
          s1, Some msg).
Proof.
  revert s i. induction sts as [|st0 sts IH]; intros s i Hbody Hst Hn Hfail; [done|].
  destruct i as [|i].
  - simpl in *. simplify_eq. rewrite Hn. simpl. rewrite Hfail. simpl. by rewrite drop_0.
  - rewrite firstn_cons, fmap_cons, skipn_cons. unfold mapCommandNode at 1.
    revert Hbody Hfail. rewrite firstn_cons, commandNodes_cons. cbn [forCommandNodes].
    change ((st0 :: sts) !! S i) with (sts !! i) in Hst.
    destruct (commandNodeOf st0) as [n0|]; intros Hbody Hfail.
    + rewrite Hbody by (by left). simpl.
      rewrite (IH (h s n0) i); [done| |done|done|done].
      intros m s' Hm. apply Hbody. by right.
    + rewrite (IH s i); [done| |done|done|done]. intros m s' Hm. by apply Hbody.
Qed.

(** A panic in the body at statement [i] is the outcome of the loop. *)
Lemma forCommandNodes_panic {T : Type}
    (body : CommandNode → T → run (CommandNode * T * error))
    (g : CommandNode → CommandNode) (h : T → CommandNode → T) sts (s : T)
    (i : nat) st n (msg : string) :
  (∀ m s', m ∈ commandNodes (take i sts) → body m s' = Done (g m, h s' m, None)) →
  sts !! i = Some st → commandNodeOf st = Some n →
  body n (foldl h s (commandNodes (take i sts))) = Panicked msg →
  forCommandNodes body sts s = Panicked msg.
Proof.
  revert s i. induction sts as [|st0 sts IH]; intros s i Hbody Hst Hn Hfail; [done|].
  destruct i as [|i].
  - simpl in *. simplify_eq. rewrite Hn. simpl. by rewrite Hfail.
  - revert Hbody Hfail. rewrite firstn_cons, commandNodes_cons. cbn [forCommandNodes].
    change ((st0 :: sts) !! S i) with (sts !! i) in Hst.
    destruct (commandNodeOf st0) as [n0|]; intros Hbody Hfail.
    + rewrite Hbody by (by left). simpl.
      rewrite (IH (h s n0) i); [done| |done|done|done].
      intros m s' Hm. apply Hbody. by right.
    + rewrite (IH s i); [done| |done|done|done]. intros m s' Hm. by apply Hbody.
Qed.

End Visit.

End VisitProps.

Module ParamsProps.

Import Template Spec VisitProps.

Section ProcessAndValidate.

Context {W : Type} (ord : rangeOrder).

Implicit Types (n : CommandNode) (cenv : compileEnv W).

Lemma withHoles_spec n (missing : list string) :
  Action (withHoles n missing) = Action n
  ∧ Entity (withHoles n missing) = Entity n
  ∧ Command (withHoles n missing) = Command n
  ∧ ∀ k, Params (withHoles n missing) !! k
         = if decide (k ∈ missing) then Some (HoleValue (Entity n +:+ "." +:+ k) [])
           else Params n !! k.
Proof.
  unfold withHoles. induction missing as [|e missing IH] using rev_ind.
  - split; [done|]. split; [done|]. split; [done|].
    intros k. case_decide as Hk; [by apply elem_of_nil in Hk|done].
  - rewrite foldl_app. simpl. destruct IH as (Ha & He & Hc & Hp).
    split; [done|]. split; [done|]. split; [done|].
    intros k. rewrite He.
    destruct (decide (e = k)) as [->|Hne].
    + rewrite lookup_insert_eq. rewrite decide_True; [done|].
      apply elem_of_app. right. by left.
    + rewrite lookup_insert_ne, Hp by done.
      destruct (decide (k ∈ missing)) as [Hin|Hout].
      * rewrite decide_True; [done|]. apply elem_of_app. by left.
      * rewrite decide_False; [done|].
        intros [?|?%list_elem_of_singleton]%elem_of_app; by simplify_eq.
Qed.

(** The closure does at a node what [paramsOutcome] says. *)
Lemma normalize_outcome cenv lookup n :
  LookupCommandFunc cenv = Some lookup →
  normalizeMissingRequiredParamsAsHoleAndValidate ord cenv n
  = Done (paramsOutcome ord lookup n).
Proof.
  intros Hlk.
  unfold normalizeMissingRequiredParamsAsHoleAndValidate, lookupCommand, paramsOutcome.
  rewrite Hlk. simpl. destruct (lookup (Action n +:+ Entity n)) as [cmd|]; [|done].
  destruct (cmdParams cmd) as [rule|]; [|done].
  fold (withHoles n (Missing rule (Keys ord n))).
  destruct (withHoles_spec n (Missing rule (Keys ord n))) as (Ha & He & _).
  destruct (Validate rule _) as [msg|]; [|done]. unfold cmdErr. simpl. by rewrite Ha, He.
Qed.

(** C3.  With a command lookup in the environment,
    [processAndValidateParams] goes through the command nodes in statement
    order.  In a node whose command has a [Params] rule it puts, under
    every key that the rule reports missing, a hole named "<entity>.<key>"
    (the other parameters stay), then validates the keys the node now has;
    when the rule rejects them the node's error is the rule's message
    after "<action> <entity>: ".  The pass fails with the error of the
    first node that has one, and does not visit the nodes after it; when
    no node has an error it succeeds with every node completed.  (A node
    whose command is not found, or has no rule, has an error of its own.) *)
Theorem processAndValidateParams_holes_then_validate
    (tpl : Template) cenv (lookup : string → option command)
    (Hlookup : LookupCommandFunc cenv = Some lookup) :
  (∀ n cmd rule,
     lookup (Action n +:+ Entity n) = Some cmd → cmdParams cmd = Some rule →
     let completed := withHoles n (Missing rule (Keys ord n)) in
     paramsOutcome ord lookup n
       = (completed,
          (λ msg, Action n +:+ " " +:+ Entity n +:+ ": " +:+ msg)
            <$> Validate rule (Keys ord completed))
     ∧ Action completed = Action n ∧ Entity completed = Entity n
     ∧ ∀ k, Params completed !! k
            = if decide (k ∈ Missing rule (Keys ord n))
              then Some (HoleValue (Entity n +:+ "." +:+ k) [])
              else Params n !! k)
  ∧ ((∀ n, n ∈ CommandNodesIterator tpl → (paramsOutcome ord lookup n).2 = None) →
       processAndValidateParamsPass ord tpl cenv
       = Done ({| ID := ID tpl;
                  Statements := mapCommandNode (λ n, (paramsOutcome ord lookup n).1)
                                  <$> Statements tpl |},
               cenv, None))
  ∧ (∀ i st n msg,
       (∀ m, m ∈ commandNodes (take i (Statements tpl)) →
             (paramsOutcome ord lookup m).2 = None) →
       Statements tpl !! i = Some st → commandNodeOf st = Some n →
       (paramsOutcome ord lookup n).2 = Some msg →
       processAndValidateParamsPass ord tpl cenv
       = Done ({| ID := ID tpl;
                  Statements := (mapCommandNode (λ n, (paramsOutcome ord lookup n).1)
                                   <$> take (S i) (Statements tpl))
                                  ++ drop (S i) (Statements tpl) |},
               cenv, Some msg)).
Proof.
  split; [|split].
  - intros n cmd rule Hcmd Hrule completed. unfold paramsOutcome. rewrite Hcmd, Hrule.
    split; [done|].
    destruct (withHoles_spec n (Missing rule (Keys ord n))) as (Ha & He & _ & Hp). done.
  - intros Hok. unfold processAndValidateParamsPass, visitCommandNodesE.
    rewrite (forCommandNodes_no_error _ (λ n, (paramsOutcome ord lookup n).1) (λ s _, s));
      [done|].
    intros n [] Hn. rewrite (normalize_outcome cenv lookup n Hlookup). simpl.
    specialize (Hok n Hn). by destruct (paramsOutcome ord lookup n) as [n' e]; simplify_eq/=.
  - intros i st n msg Hok Hst Hn Hbad.
    unfold processAndValidateParamsPass, visitCommandNodesE.
    rewrite (forCommandNodes_first_error _ (λ n, (paramsOutcome ord lookup n).1) (λ s _, s)
               _ _ i st n (paramsOutcome ord lookup n).1 tt msg); [|..|done|done|].
    + simpl. do 4 f_equal.
      rewrite (take_S_r _ _ _ Hst), fmap_app. simpl.
      unfold mapCommandNode at 3. rewrite Hn. by rewrite <-app_assoc.
    + intros m [] Hm. rewrite (normalize_outcome cenv lookup m Hlookup). simpl.
      specialize (Hok m Hm). by destruct (paramsOutcome ord lookup m) as [n' e]; simplify_eq/=.
    + rewrite (normalize_outcome cenv lookup n Hlookup). simpl.
      by destruct (paramsOutcome ord lookup n) as [n' e]; simplify_eq/=.
Qed.

End ProcessAndValidate.

End ParamsProps.

Module ValidateProps.

Import Template Spec VisitProps.

Section ValidateCommands.

Context {W : Type} (ord : rangeOrder).

Implicit Types (n : CommandNode) (cenv : compileEnv W).

Lemma append_assoc (a b c : string) : (a +:+ b) +:+ c = a +:+ (b +:+ c).
Proof.
  induction a as [|x a IH]; [done|].
  change (String x ((a +:+ b) +:+ c) = String x (a +:+ (b +:+ c))). by rewrite IH.
Qed.

Lemma append_empty_r (a : string) : a +:+ EmptyString = a.
Proof.
  induction a as [|x a IH]; [done|].
  change (String x (a +:+ EmptyString) = String x a). by rewrite IH.
Qed.

Lemma errorLines_Join (e : string) (errs : list string) :
  LF +:+ TAB +:+ "- " +:+ Join (e :: errs) (LF +:+ TAB +:+ "- ") = errorLines (e :: errs).
Proof.
  revert e. induction errs as [|e' errs IH]; intros e.
  - cbn [Join errorLines]. by rewrite append_empty_r.
  - change (errorLines (e :: e' :: errs))
      with (LF +:+ TAB +:+ "- " +:+ e +:+ errorLines (e' :: errs)).
    rewrite <-(IH e').
    change (Join (e :: e' :: errs) (LF +:+ TAB +:+ "- "))
      with (e +:+ (LF +:+ TAB +:+ "- ") +:+ Join (e' :: errs) (LF +:+ TAB +:+ "- ")).
    by rewrite !append_assoc.
Qed.

Lemma collect_found cenv lookup n cmd (errs : list string) :
  LookupCommandFunc cenv = Some lookup →
  lookup (Action n +:+ Entity n) = Some cmd →
  collectValidationErrs ord cenv n errs = Done (n, errs ++ validationErrsAt ord lookup n, None).
Proof.
  intros Hlk Hcmd.
  unfold collectValidationErrs, lookupCommand, validationErrsAt, Spec.validationErrsOf.
  rewrite Hlk. simpl. rewrite Hcmd.
  destruct (ValidateCommand cmd); [done|]. by rewrite app_nil_r.
Qed.

Lemma foldl_collect (f : CommandNode → list string) (nodes : list CommandNode)
    (errs : list string) :
  foldl (λ acc n, acc ++ f n) errs nodes = errs ++ concat (f <$> nodes).
Proof.
  revert errs. induction nodes as [|n nodes IH]; intros errs; simpl.
  - by rewrite app_nil_r.
  - by rewrite IH, app_assoc.
Qed.

(** C6.  With a command lookup in the environment that finds a command for
    every command node, [validateCommands] collects, in statement order,
    the errors of every command node whose command has [ValidateCommand],
    each after "<action> <entity>: ", and skips the other nodes.  With no
    error it succeeds; with one it fails with "validation error: <err>";
    with more it fails with "validation errors:" and then every error
    after a line feed, a tab and "- ".  The template and the environment
    are returned as given.  (At the first node whose command the lookup
    does not find, the pass fails instead with
    "validate: cannot find command for '<key>'".) *)
Theorem validateCommands_collects_and_reports
    (tpl : Template) cenv (lookup : string → option command)
    (Hlookup : LookupCommandFunc cenv = Some lookup) :
  ((∀ n, n ∈ CommandNodesIterator tpl → is_Some (lookup (Action n +:+ Entity n))) →
     validateCommandsPass ord tpl cenv
     = Done (tpl, cenv,
             match concat (validationErrsAt ord lookup <$> CommandNodesIterator tpl) with
             | [] => None
             | [e] => Some ("validation error: " +:+ e)
             | errs => Some ("validation errors:" +:+ errorLines errs)
             end))
  ∧ (∀ n cmd, lookup (Action n +:+ Entity n) = Some cmd →
       validationErrsAt ord lookup n
       = match ValidateCommand cmd with
         | Some validate =>
             (λ validErr, Action n +:+ " " +:+ Entity n +:+ ": " +:+ validErr)
               <$> validate (ToDriverParams n) (refsKey ord n)
         | None => []
         end)
  ∧ (∀ i st n,
       (∀ m, m ∈ commandNodes (take i (Statements tpl)) →
             is_Some (lookup (Action m +:+ Entity m))) →
       Statements tpl !! i = Some st → commandNodeOf st = Some n →
       lookup (Action n +:+ Entity n) = None →
       validateCommandsPass ord tpl cenv
       = Done (tpl, cenv,
               Some ("validate: cannot find command for '"
                       +:+ (Action n +:+ Entity n) +:+ "'"))).
Proof.
  split; [|split].
  - intros Hfound. unfold validateCommandsPass.
    rewrite (forCommandNodes_no_error _ id (λ acc n, acc ++ validationErrsAt ord lookup n)).
    + simpl. rewrite foldl_collect. simpl.
      change (commandNodes (Statements tpl)) with (CommandNodesIterator tpl).
      destruct (concat _) as [|e [|e' errs']]; [done|done|].
      change (Done (tpl, cenv,
                    Some ("validation errors:" +:+ LF +:+ TAB +:+ "- "
                            +:+ Join (e :: e' :: errs') (LF +:+ TAB +:+ "- ")))
              = Done (tpl, cenv,
                      Some ("validation errors:" +:+ errorLines (e :: e' :: errs')))).
      by rewrite <-(errorLines_Join e (e' :: errs')).
    + intros n acc Hn. destruct (Hfound n Hn) as [cmd Hcmd].
      by apply (collect_found cenv lookup n cmd).
  - intros n cmd Hcmd. unfold validationErrsAt. by rewrite Hcmd.
  - intros i st n Hfound Hst Hn Hnone. unfold validateCommandsPass.
    rewrite (forCommandNodes_first_error _ id
               (λ acc n, acc ++ validationErrsAt ord lookup n) _ _ i st n n
               (foldl (λ acc n, acc ++ validationErrsAt ord lookup n) []
                      (commandNodes (take i (Statements tpl))))
               ("validate: cannot find command for '" +:+ (Action n +:+ Entity n) +:+ "'"));
      [done| |done|done|].
    + intros m acc Hm. destruct (Hfound m Hm) as [cmd Hcmd].
      by apply (collect_found cenv lookup m cmd).
    + unfold collectValidationErrs, lookupCommand. rewrite Hlookup. simpl. by rewrite Hnone.
Qed.

End ValidateCommands.

End ValidateProps.

Module InjectProps.

Import Template Spec Examples VisitProps.

Section InjectCommands.

Context {W : Type} (ord : rangeOrder).

Implicit Types (n : CommandNode) (cenv : compileEnv W).

(** When the lookup finds, for every command node, an object that is an
    [ast.Command], [injectCommands] binds it to the node and succeeds. *)
Lemma injectCommands_binds (tpl : Template) cenv (lookup : string → option command)
    (commands : CommandNode → command) :
  LookupCommandFunc cenv = Some lookup →
  (∀ n, n ∈ CommandNodesIterator tpl →
     lookup (Action n +:+ Entity n) = Some (commands n) ∧ isCommand (commands n) = true) →
  injectCommandsPass ord tpl cenv
  = Done ({| ID := ID tpl;
             Statements := mapCommandNode (λ n, setCommand n (Some (commands n)))
                             <$> Statements tpl |},
          cenv, None).
Proof.
  intros Hlk Hfound. unfold injectCommandsPass.
  rewrite (forCommandNodes_no_error _ (λ n, setCommand n (Some (commands n))) (λ s _, s));
    [done|].
  intros n [] Hn. destruct (Hfound n Hn) as [Hcmd Hok].
  unfold lookupCommand. rewrite Hlk. simpl. rewrite Hcmd. simpl. by rewrite Hok.
Qed.

(** When the lookup yields nil for the command node of statement [i], and
    found a command for the nodes before it, the type assertion panics:
    the pass returns nothing, and neither does a compilation that runs
    it. *)
Lemma injectCommands_nil_panics (tpl : Template) cenv (lookup : string → option command)
    (commands : CommandNode → command) (i : nat) (st : Statement) n :
  LookupCommandFunc cenv = Some lookup →
  (∀ m, m ∈ commandNodes (take i (Statements tpl)) →
     lookup (Action m +:+ Entity m) = Some (commands m) ∧ isCommand (commands m) = true) →
  Statements tpl !! i = Some st → commandNodeOf st = Some n →
  lookup (Action n +:+ Entity n) = None →
  injectCommandsPass ord tpl cenv
  = Panicked "interface conversion: interface is nil, not ast.Command".
Proof.
  intros Hlk Hfound Hst Hn Hnil. unfold injectCommandsPass.
  rewrite (forCommandNodes_panic _ (λ n, setCommand n (Some (commands n))) (λ s _, s)
             _ _ i st n "interface conversion: interface is nil, not ast.Command");
    [done| |done|done|].
  - intros m [] Hm. destruct (Hfound m Hm) as [Hcmd Hok].
    unfold lookupCommand. rewrite Hlk. simpl. rewrite Hcmd. simpl. by rewrite Hok.
  - unfold lookupCommand. rewrite Hlk. simpl. by rewrite Hnil.
Qed.

End InjectCommands.

(** C7, at the failing input.  The lookup yields no command for
    "createinstance" when [injectCommands] runs: the pass, and [Compile]
    with it, panic in the type assertion; the error
    "inject: cannot find command for 'createinstance'" is never built. *)
Theorem injectCommands_missing_command_panics (ord : rangeOrder) :
  injectCommandsPass ord tplCreateInstance envNoCommand
    = Panicked "interface conversion: interface is nil, not ast.Command"
  ∧ Compile ord tplCreateInstance envNoCommand [injectCommandsPass]
    = Panicked "interface conversion: interface is nil, not ast.Command"
  ∧ Compile ord tplCreateInstance envNoCommand [injectCommandsPass]
    ≠ Done (tplCreateInstance, envNoCommand,
            Some "inject: cannot find command for 'createinstance'").
Proof.
  assert (injectCommandsPass ord tplCreateInstance envNoCommand
          = Panicked "interface conversion: interface is nil, not ast.Command") as Hpanic.
  { apply (injectCommands_nil_panics ord tplCreateInstance envNoCommand (λ _, None)
             (λ _, {| isCommand := true; cmdParams := None; hasExtractResult := false;
                      ValidateCommand := None |})
             0 (statement (NExpression (ECommand createInstance))) createInstance);
      try done.
    intros m Hm. by apply elem_of_nil in Hm. }
  split; [done|]. unfold Compile. cbn [compile]. rewrite Hpanic. by split.
Qed.

End InjectProps.

Module AliasProps.

Import Template Spec Examples.

(** C4, at the failing input.  Two runs of [Compile] on the same template,
    environment and mode, which differ only in the order in which the
    run-time system enumerates the parameters of the command node, fail
    with different errors: the unresolved aliases are listed in the order
    of enumeration. *)
Theorem compile_alias_error_depends_on_map_order :
  errorOf (Compile inOrder tplAliases envNoAlias [resolveAliasPass])
    = Some (Some ("cannot resolve aliases: " +:+ quoteSlice ["a"; "b"]
                    +:+ ". Maybe you need to update your local model with `awless sync` ?"))
  ∧ errorOf (Compile reversed tplAliases envNoAlias [resolveAliasPass])
    = Some (Some ("cannot resolve aliases: " +:+ quoteSlice ["b"; "a"]
                    +:+ ". Maybe you need to update your local model with `awless sync` ?"))
  ∧ Compile inOrder tplAliases envNoAlias [resolveAliasPass]
    ≠ Compile reversed tplAliases envNoAlias [resolveAliasPass].
Proof.
  assert (errorOf (Compile inOrder tplAliases envNoAlias [resolveAliasPass])
    = Some (Some ("cannot resolve aliases: " +:+ quoteSlice ["a"; "b"]
                    +:+ ". Maybe you need to update your local model with `awless sync` ?")))
    as H1 by (vm_compute; reflexivity).
  assert (errorOf (Compile reversed tplAliases envNoAlias [resolveAliasPass])
    = Some (Some ("cannot resolve aliases: " +:+ quoteSlice ["b"; "a"]
                    +:+ ". Maybe you need to update your local model with `awless sync` ?")))
    as H2 by (vm_compute; reflexivity).
  split; [done|]. split; [done|].
  intros Heq. rewrite Heq, H2 in H1. revert H1. vm_compute. discriminate.
Qed.

End AliasProps.

Module MissingHolesProps.

Import Template Spec RangeProps.

Section MissingHoles.

Context {W : Type} (ord : rangeOrder).

Implicit Types (sts : list Statement) (st : Statement) (cenv : compileEnv W)
  (k : string) (u : gmap string (list string)).

Local Abbreviation holesOf := (holesOf ord).
Local Abbreviation lastCandidates := (lastCandidates ord).




Lemma recordHole_from u k (acc cs : list string) :
  foldl (λ u vv,
           if contains (default [] (u !! k)) vv then u
           else <[k := default [] (u !! k) ++ [vv]]> u)
        (<[k := acc]> u) cs
  = <[k := foldl (λ acc vv, if contains acc vv then acc else acc ++ [vv]) acc cs]> u.
Proof.
  revert acc. induction cs as [|c cs IH]; intros acc; [done|]. simpl.
  rewrite lookup_insert_eq. simpl.
  destruct (contains acc c); [apply IH|]. rewrite insert_insert_eq. apply IH.
Qed.

(** One entry of a node's holes: the name gets, anew, the candidates
    without repetitions. *)
Lemma recordHole_insert u k (cs : list string) :
  recordHole u (k, cs) = <[k := dedupCandidates cs]> u.
Proof. apply recordHole_from. Qed.

Lemma foldl_recordHole_lookup u (l : list (string * list string)) k :
  NoDup l.*1 →
  (∀ cs, (k, cs) ∈ l → foldl recordHole u l !! k = Some (dedupCandidates cs))
  ∧ (k ∉ l.*1 → foldl recordHole u l !! k = u !! k).
Proof.
  induction l as [|[k' cs'] l IH] using rev_ind; intros Hnd.
  - split; [by intros cs ?%elem_of_nil|done].
  - rewrite fmap_app in Hnd. apply NoDup_app in Hnd as (Hnd & Hnew & _).
    destruct (IH Hnd) as [IHin IHout].
    rewrite foldl_app. simpl. rewrite recordHole_insert. split.
    + intros cs [Hin|Hin%list_elem_of_singleton]%elem_of_app.
      * rewrite lookup_insert_ne; [by apply IHin|].
        intros <-. apply (Hnew k'); [|by left].
        apply list_elem_of_fmap. by exists (k', cs).
      * simplify_eq. by rewrite lookup_insert_eq.
    + rewrite fmap_app, elem_of_app. simpl. rewrite list_elem_of_singleton.
      intros Hout. rewrite lookup_insert_ne by (intros <-; tauto).
      apply IHout. tauto.
Qed.

Lemma record_node_lookup u (m : gmap string (list string)) k :
  foldl recordHole u (range ord m) !! k
  = match m !! k with
    | Some cs => Some (dedupCandidates cs)
    | None => u !! k
    end.
Proof.
  destruct (foldl_recordHole_lookup u (range ord m) k (NoDup_range_keys ord m)) as [Hin Hout].
  destruct (m !! k) as [cs|] eqn:Hk.
  - apply Hin. by apply elem_of_range.
  - apply Hout. rewrite (elem_of_range_keys ord), Hk. by intros [??].
Qed.

(** The state a loop over the expression nodes ends in. *)
Lemma forExpressionNodes_state_from {T : Type}
    (fn : ExpressionNode → T → ExpressionNode * T) sts (acc : list Statement) (s : T) :
  (foldl (λ acc st,
            let '(e', s') := fn (extractExpressionNode st) acc.2 in
            (acc.1 ++ [setExpressionNode st e'], s'))
         (acc, s) sts).2
  = foldl (λ s st, (fn (extractExpressionNode st) s).2) s sts.
Proof.
  revert s acc. induction sts as [|st sts IH]; intros s acc; [done|]. simpl.
  destruct (fn (extractExpressionNode st) s) as [e' s'] eqn:Hfn. simpl. apply IH.
Qed.

Lemma forExpressionNodes_state {T : Type} (fn : ExpressionNode → T → ExpressionNode * T)
    sts (s : T) :
  (forExpressionNodes fn sts s).2
  = foldl (λ s st, (fn (extractExpressionNode st) s).2) s sts.
Proof. apply forExpressionNodes_state_from. Qed.

Lemma collectHoles_snoc sts st :
  collectHoles ord (sts ++ [st])
  = foldl recordHole (collectHoles ord sts) (range ord (holesOf st)).
Proof.
  unfold collectHoles, visitHoles. rewrite !forExpressionNodes_state, foldl_app. done.
Qed.

(** What the first visit gathers: every open hole name, with the
    candidates of the last statement that has it, without repetitions. *)
Lemma collectHoles_lookup sts k :
  collectHoles ord sts !! k = dedupCandidates <$> lastCandidates sts k.
Proof.
  induction sts as [|st sts IH] using rev_ind; [done|].
  rewrite collectHoles_snoc, record_node_lookup, IH. unfold lastCandidates.
  rewrite omap_app. simpl. destruct (holesOf st !! k) as [cs|].
  - by rewrite last_snoc.
  - by rewrite app_nil_r.
Qed.

Lemma lastCandidates_is_Some sts k :
  is_Some (lastCandidates sts k) ↔ ∃ st, st ∈ sts ∧ is_Some (holesOf st !! k).
Proof.
  unfold lastCandidates. rewrite last_is_Some. split.
  - intros Hne. destruct (omap (λ st, holesOf st !! k) sts) as [|cs l] eqn:Hl; [done|].
    assert (cs ∈ omap (λ st, holesOf st !! k) sts) as Hin by (rewrite Hl; by left).
    apply list_elem_of_omap in Hin as (st & Hst & Hk). exists st. by rewrite Hk.
  - intros (st & Hst & [cs Hk]) Hnil.
    assert (cs ∈ omap (λ st, holesOf st !! k) sts) as Hin
      by (apply list_elem_of_omap; by exists st).
    rewrite Hnil in Hin. by apply elem_of_nil in Hin.
Qed.

Lemma runCalls_snoc callback (calls : list (string * list string)) c (w : W) :
  runCalls callback (calls ++ [c]) w
  = (let '(a, w') := callback c.1 c.2 (runCalls callback calls w).2 in
     ((runCalls callback calls w).1 ++ [a], w')).
Proof. unfold runCalls. by rewrite foldl_app. Qed.

Lemma length_runCalls callback (calls : list (string * list string)) (w : W) :
  length (runCalls callback calls w).1 = length calls.
Proof.
  induction calls as [|c calls IH] using rev_ind; [done|].
  rewrite runCalls_snoc. destruct (callback _ _ _) as [a w'].
  simpl. rewrite !length_app, IH. done.
Qed.

(** The loop over the sorted names is the callback called once on every
    name, in order, with the candidates gathered for the name. *)
Lemma askMissingHoles_runCalls cenv callback u (names : list string) :
  MissingHolesFunc cenv = Some callback →
  askMissingHoles cenv u names
  = (fillersOf names
       (runCalls callback ((λ k, (k, default [] (u !! k))) <$> names) (world cenv)).1,
     (runCalls callback ((λ k, (k, default [] (u !! k))) <$> names) (world cenv)).2).
Proof.
  intros Hcb. unfold askMissingHoles, fillersOf. rewrite Hcb.
  induction names as [|k names IH] using rev_ind; [done|].
  rewrite foldl_app, IH, fmap_app. simpl. rewrite runCalls_snoc. simpl.
  destruct (callback _ _ _) as [a w']. simpl.
  rewrite zip_with_app by (by rewrite length_runCalls, length_fmap).
  by rewrite foldl_app.
Qed.

Lemma foldl_insert_absent (l : list (string * any)) (m : gmap string any) k :
  k ∉ l.*1 → foldl (λ m ka, <[ka.1 := ka.2]> m) m l !! k = m !! k.
Proof.
  revert m. induction l as [|[k' a'] l IH]; intros m Hk; [done|]. simpl.
  rewrite IH by (intros ?; apply Hk; by right).
  rewrite lookup_insert_ne; [done|]. intros ->. apply Hk. by left.
Qed.

Lemma foldl_insert_present (l : list (string * any)) (m : gmap string any) k (a : any) :
  NoDup l.*1 → (k, a) ∈ l → foldl (λ m ka, <[ka.1 := ka.2]> m) m l !! k = Some a.
Proof.
  revert m. induction l as [|[k' a'] l IH]; intros m Hnd Hin; [by apply elem_of_nil in Hin|].
  simpl in *. apply NoDup_cons in Hnd as [Hk' Hnd].
  apply elem_of_cons in Hin as [Heq|Hin].
  - simplify_eq. rewrite foldl_insert_absent by done. by rewrite lookup_insert_eq.
  - by apply IH.
Qed.

Lemma fillersOf_lookup (names : list string) (answers : list any) (i : nat) k :
  NoDup names → length answers = length names → names !! i = Some k →
  ∃ a, answers !! i = Some a ∧ fillersOf names answers !! k = Some a.
Proof.
  intros Hnd Hlen Hk.
  destruct (lookup_lt_is_Some_2 answers i) as [a Ha].
  { rewrite Hlen. by eapply lookup_lt_Some. }
  exists a. split; [done|]. unfold fillersOf. apply foldl_insert_present.
  - rewrite fst_zip by lia. done.
  - apply list_elem_of_lookup. exists i. rewrite lookup_zip_with, Hk, Ha. done.
Qed.


End MissingHoles.

End MissingHolesProps.

Module CacheProps.

Import Fetch SpecFetch FetchProps RangeProps.

Section WithWorld.

Context {W Ctx : Type}.

Implicit Types (c : cache) (k : string) (w : W) (l : loader (W := W)).

(** A [Get] touches the slot of its key and no other. *)
Lemma Get_other_key c k k' (funcs : list (loader (W := W))) w :
  k ≠ k' → cached (Get c k funcs w).1.2 !! k' = cached c !! k'.
Proof.
  intros Hne. unfold Get.
  destruct (cached c !! k) as [slot|] eqn:Hk.
  - destruct funcs as [|f ?]; [done|]. destruct (once slot); [done|].
    destruct (f w) as [[r e] w']. simpl. by rewrite lookup_insert_ne.
  - destruct funcs as [|f ?]; simpl.
    + by rewrite lookup_insert_ne.
    + destruct (f w) as [[r e] w']. simpl. by rewrite !lookup_insert_ne.
Qed.

(** What a [Get] returns and does to the world depends on the cache only
    through the slot of its key. *)
Lemma Get_depends_on_slot c c' k (funcs : list (loader (W := W))) w :
  cached c !! k = cached c' !! k →
  (Get c k funcs w).1.1 = (Get c' k funcs w).1.1 ∧ (Get c k funcs w).2 = (Get c' k funcs w).2.
Proof.
  intros Hsame. unfold Get. rewrite <-Hsame.
  destruct (cached c !! k) as [slot|].
  - destruct funcs as [|f ?]; [done|]. destruct (once slot); [done|].
    by destruct (f w) as [[r e] w'].
  - destruct funcs as [|f ?]; [done|]. simpl. by destruct (f w) as [[r e] w'].
Qed.

(** X1.  The keys of the cache do not interfere.  A [Get] or a [Store] on
    [k] leaves the slot of every other key [k'] as it was, so a [Get] on
    [k'] made afterwards returns what it would have returned before, and
    does to the world what it would have done. *)
Theorem cache_keys_are_independent c k k' (v : any)
    (funcs funcs' : list (loader (W := W))) w w' (Hne : k ≠ k') :
  cached (Get c k funcs w).1.2 !! k' = cached c !! k'
  ∧ cached (Store c k v) !! k' = cached c !! k'
  ∧ (Get (Get c k funcs w).1.2 k' funcs' w').1.1 = (Get c k' funcs' w').1.1
  ∧ (Get (Get c k funcs w).1.2 k' funcs' w').2 = (Get c k' funcs' w').2
  ∧ (Get (Store c k v) k' funcs' w').1.1 = (Get c k' funcs' w').1.1
  ∧ (Get (Store c k v) k' funcs' w').2 = (Get c k' funcs' w').2.
Proof.
  assert (cached (Store c k v) !! k' = cached c !! k') as Hstore.
  { unfold Store. simpl. by rewrite lookup_insert_ne. }
  pose proof (Get_other_key c k k' funcs w Hne) as Hget.
  destruct (Get_depends_on_slot _ c k' funcs' w' Hget) as [??].
  destruct (Get_depends_on_slot _ c k' funcs' w' Hstore) as [??].
  done.
Qed.

Lemma getAll_snoc (calls : list (string * list (loader (W := W)))) call c w :
  getAll (calls ++ [call]) c w
  = (let '(_, c', w') := Get (getAll calls c w).1 call.1 call.2 (getAll calls c w).2 in
     (c', w')).
Proof. unfold getAll. by rewrite foldl_app. Qed.

(** X2.  A slot whose one-shot guard has fired is out of the reach of
    [Get]: after any run of [Get] calls, on any keys and with any loaders,
    the slot is the same, and a [Get] on its key still returns its pair
    without running a loader.  (Only [Store] and [Reset] replace it.) *)
Theorem fired_slot_survives_every_get c k slot
    (calls : list (string * list (loader (W := W)))) (funcs : list (loader (W := W))) w w'
    (Hslot : cached c !! k = Some slot) (Hfired : once slot = true) :
  cached (getAll calls c w).1 !! k = Some slot
  ∧ Get (getAll calls c w).1 k funcs w'
    = ((result slot, err slot), (getAll calls c w).1, w').
Proof.
  assert (cached (getAll calls c w).1 !! k = Some slot) as Hkept.
  { induction calls as [|[k0 fs] calls IH] using rev_ind; [done|].
    rewrite getAll_snoc. simpl.
    destruct (Get (getAll calls c w).1 k0 fs (getAll calls c w).2) as [[p c'] w0] eqn:Hget.
    simpl. destruct (decide (k0 = k)) as [->|Hne].
    - rewrite (Get_fired _ _ slot) in Hget by done. by simplify_eq.
    - pose proof (Get_other_key (getAll calls c w).1 k0 k fs (getAll calls c w).2 Hne) as Hother.
      rewrite Hget in Hother. simpl in Hother. by rewrite Hother. }
  split; [done|]. by apply Get_fired.
Qed.

(** X3.  [Reset] forgets every slot, fired or not: in the cache it leaves,
    a [Get] without a loader finds nothing under any key, and a [Get] with
    a loader runs the loader and keeps what it returns. *)
Theorem reset_forgets_every_slot c k l (ls : list (loader (W := W))) w :
  cached (Reset c) !! k = None
  ∧ Get (Reset c) k [] w
    = ((None, None),
       {| cached := {[ k := {| once := false; err := None; result := None |} ]} |}, w)
  ∧ Get (Reset c) k (l :: ls) w
    = ((l w).1,
       {| cached := {[ k := {| once := true; err := (l w).1.2; result := (l w).1.1 |} ]} |},
       (l w).2).
Proof.
  split; [done|]. split; [done|].
  rewrite Get_absent by done. unfold Reset. simpl. by rewrite insert_empty.
Qed.

Implicit Types (f : fetcher (W := W) (Ctx := Ctx)).

Lemma NewFetcher_fold (l : list (string * Func (W := W) (Ctx := Ctx))) f :
  foldl (λ ftr kv,
           {| fcache := fcache ftr;
              fetchFuncs := <[kv.1 := kv.2]> (fetchFuncs ftr);
              resourceTypes := resourceTypes ftr ++ [kv.1] |}) f l
  = {| fcache := fcache f;
       fetchFuncs := foldl (λ m kv, <[kv.1 := kv.2]> m) (fetchFuncs f) l;
       resourceTypes := resourceTypes f ++ l.*1 |}.
Proof.
  revert f. induction l as [|kv l IH]; intros f; simpl.
  - rewrite app_nil_r. by destruct f.
  - rewrite IH. simpl. by rewrite <-app_assoc.
Qed.

Lemma foldl_insert_list_to_map {V : Type} (l : list (string * V)) :
  NoDup l.*1 →
  foldl (λ m kv, <[kv.1 := kv.2]> m) (∅ : gmap string V) l = list_to_map l.
Proof.
  intros Hnd. apply map_eq. intros k.
  induction l as [|[k' v'] l IH] using rev_ind; [done|].
  rewrite fmap_app in Hnd. apply NoDup_app in Hnd as (Hnd & Hnew & _).
  rewrite foldl_app. simpl.
  destruct (decide (k' = k)) as [->|Hne].
  - rewrite lookup_insert_eq. symmetry. apply elem_of_list_to_map_1.
    + rewrite fmap_app. apply NoDup_app. split; [done|]. split; [done|]. apply NoDup_singleton.
    + apply elem_of_app. right. by left.
  - rewrite lookup_insert_ne, IH by done.
    destruct (list_to_map l !! k) as [v|] eqn:Hk.
    + symmetry. apply elem_of_list_to_map_1.
      * rewrite fmap_app. apply NoDup_app. split; [done|]. split; [done|]. apply NoDup_singleton.
      * apply elem_of_app. left. by apply elem_of_list_to_map_2.
    + symmetry. apply not_elem_of_list_to_map_1. rewrite fmap_app, elem_of_app.
      intros [Hin|Hin%list_elem_of_singleton]; [|by simplify_eq/=].
      by apply (not_elem_of_list_to_map_2 _ _ Hk).
Qed.

(** X4.  [NewFetcher] registers the functions it is given and nothing
    else: the fetcher's functions are those of [funcs], its resource types
    are the keys of [funcs], each once, in the order of enumeration, and
    its cache holds nothing.  So [FetchByType], on the new fetcher, of a
    type that [funcs] lacks returns the empty graph and the error
    "no fetch func defined for resource type '<t>'". *)
Theorem new_fetcher_registers_funcs (ord : rangeOrder)
    (funcs : gmap string (Func (W := W) (Ctx := Ctx))) (ctx : Ctx) w :
  fetchFuncs (NewFetcher ord funcs) = funcs
  ∧ fcache (NewFetcher ord funcs) = newCache
  ∧ resourceTypes (NewFetcher ord funcs) = (range ord funcs).*1
  ∧ NoDup (resourceTypes (NewFetcher ord funcs))
  ∧ (∀ t, t ∈ resourceTypes (NewFetcher ord funcs) ↔ is_Some (funcs !! t))
  ∧ (∀ t, funcs !! t = None →
       (FetchByType (NewFetcher ord funcs) ctx t w).1.1
       = (Some NewGraph, Some ("no fetch func defined for resource type '" +:+ t +:+ "'"))).
Proof.
  assert (fetchFuncs (NewFetcher ord funcs) = funcs) as Hfuncs.
  { unfold NewFetcher. rewrite NewFetcher_fold. simpl.
    rewrite foldl_insert_list_to_map by apply NoDup_range_keys.
    apply map_eq. intros k. apply option_eq. intros fn.
    rewrite <-(elem_of_range ord funcs). split.
    - apply elem_of_list_to_map_2.
    - apply elem_of_list_to_map_1, NoDup_range_keys. }
  assert (resourceTypes (NewFetcher ord funcs) = (range ord funcs).*1) as Htypes.
  { unfold NewFetcher. by rewrite NewFetcher_fold. }
  split; [done|]. split; [unfold NewFetcher; by rewrite NewFetcher_fold|].
  split; [done|]. rewrite Htypes.
  split; [apply NoDup_range_keys|]. split; [apply elem_of_range_keys|].
  intros t Ht.
  assert (fetchFuncs (NewFetcher ord funcs) !! t = None) as Hnone by (by rewrite Hfuncs).
  unfold FetchByType, fetchResource.
  destruct (fetchFuncs (NewFetcher ord funcs) !! t) as [fn|] eqn:Hfn; [congruence|done].
Qed.

Lemma fold_AddResource (rs : list Resource) (g : Graph) :
  fold_left (λ g r, AddResource g [r]) rs g = g ++ rs.
Proof.
  revert g. induction rs as [|r rs IH]; intros g; simpl.
  - by rewrite app_nil_r.
  - rewrite IH. unfold AddResource. by rewrite <-app_assoc.
Qed.

(** X5.  [FetchByType] of a type that has a fetch function runs the
    function once, on the fetcher's cache.  When the function returns no
    error the graph holds the resources it returned, in their order, and
    nothing else; when it returns an error the graph holds nothing,
    whatever resources came with the error, and the error is returned.
    Either way the world is as the function left it, the cache is as the
    function left it but for the slot "<t>_objects", and the functions and
    resource types of the fetcher are as before. *)
Theorem fetch_by_type_runs_the_func f (ctx : Ctx) (t : string) w
    (fn : Func (W := W) (Ctx := Ctx)) rs objs e c1 w1
    (Hfn : fetchFuncs f !! t = Some fn)
    (Hrun : fn ctx (fcache f) w = ((rs, objs, e), c1, w1)) :
  (FetchByType f ctx t w).1.1 = (Some (if e is Some _ then NewGraph else rs), e)
  ∧ (FetchByType f ctx t w).2 = w1
  ∧ fcache (FetchByType f ctx t w).1.2 = Store c1 (t +:+ "_objects") objs
  ∧ (∀ k, k ≠ t +:+ "_objects" →
       cached (fcache (FetchByType f ctx t w).1.2) !! k = cached c1 !! k)
  ∧ fetchFuncs (FetchByType f ctx t w).1.2 = fetchFuncs f
  ∧ resourceTypes (FetchByType f ctx t w).1.2 = resourceTypes f.
Proof.
  unfold FetchByType, fetchResource.
  destruct (fetchFuncs f !! t) as [fn'|] eqn:Hfn'; [|congruence].
  assert (fn' = fn) as -> by congruence.
  rewrite Hrun. simpl.
  destruct e as [msg|]; simpl.
  - repeat split; try done. intros k Hk. by rewrite lookup_insert_ne.
  - rewrite fold_AddResource. repeat split; try done.
    intros k Hk. by rewrite lookup_insert_ne.
Qed.

End WithWorld.

End CacheProps.

Module PipelineProps.

Import Template Spec SpecPipeline VisitProps ValidateProps.

Section Pipeline.

Context {W : Type} (ord : rangeOrder).

Implicit Types (sts : list Statement) (st : Statement) (n : CommandNode)
  (tpl : Template) (cenv : compileEnv W).

Lemma compile_app (ps qs : Mode W) tpl cenv :
  compile ord (ps ++ qs) tpl cenv
  = match compile ord ps tpl cenv with
    | Done (tpl', cenv', None) => compile ord qs tpl' cenv'
    | Done (tpl', cenv', Some msg) => Done (tpl', cenv', Some msg)
    | Panicked msg => Panicked msg
    end.
Proof.
  revert tpl cenv. induction ps as [|pass ps IH]; intros tpl cenv; [done|].
  cbn [app compile]. destruct (pass ord tpl cenv) as [[[tpl1 cenv1] [msg|]]|msg]; simpl.
  - done.
  - apply IH.
  - done.
Qed.

(** X6.  [multiPass.compile] runs the passes from left to right, every pass
    on the template and the environment that the pass before it returned,
    and stops at the first pass that returns an error or panics: running
    [ps ++ qs] is running [ps] and, when that returned no error, [qs] on
    what it returned; otherwise the outcome of [ps] is the outcome, and no
    pass of [qs] is run.  A mode without passes returns what it is given,
    and [Compile] with a mode is [multiPass.compile] on its passes. *)
Theorem compile_stops_at_the_first_error (ps qs : Mode W) tpl cenv :
  compile ord (ps ++ qs) tpl cenv
  = match compile ord ps tpl cenv with
    | Done (tpl', cenv', None) => compile ord qs tpl' cenv'
    | Done (tpl', cenv', Some msg) => Done (tpl', cenv', Some msg)
    | Panicked msg => Panicked msg
    end
  ∧ (∀ pass : compileFunc W,
       compile ord (pass :: qs) tpl cenv
       = match pass ord tpl cenv with
         | Done (tpl', cenv', None) => compile ord qs tpl' cenv'
         | Done (tpl', cenv', Some msg) => Done (tpl', cenv', Some msg)
         | Panicked msg => Panicked msg
         end)
  ∧ Compile ord tpl cenv [] = Done (tpl, cenv, None)
  ∧ Compile ord tpl cenv (ps ++ qs) = compile ord (ps ++ qs) tpl cenv.
Proof.
  split; [apply compile_app|]. split; [|done].
  intros pass. cbn [compile].
  by destruct (pass ord tpl cenv) as [[[tpl1 cenv1] [msg|]]|msg].
Qed.

(** *** verifyCommandsDefined *)

Lemma verifyDefined_lookup cenv lookup (nodes : list CommandNode) :
  LookupCommandFunc cenv = Some lookup →
  verifyDefined cenv nodes
  = Done ((λ n, "cannot find command for '" +:+ commandKey n +:+ "'")
            <$> firstUnknown lookup nodes).
Proof.
  intros Hlk. unfold firstUnknown. induction nodes as [|n nodes IH]; [done|].
  cbn [verifyDefined]. unfold lookupCommand. rewrite Hlk. simpl.
  rewrite filter_cons. fold (commandKey n).
  destruct (lookup (commandKey n)) as [cmd|] eqn:Hn.
  - rewrite decide_False by (unfold isKnown; by rewrite Hn). apply IH.
  - by rewrite decide_True by (unfold isKnown; by rewrite Hn).
Qed.

Lemma firstUnknown_None (lookup : string → option command) (nodes : list CommandNode) :
  firstUnknown lookup nodes = None ↔ ∀ n, n ∈ nodes → is_Some (lookup (commandKey n)).
Proof.
  unfold firstUnknown. rewrite head_None. split.
  - intros Hnil n Hn. destruct (lookup (commandKey n)) as [cmd|] eqn:Hcmd; [by eexists|].
    assert (n ∈ filter (λ n, isKnown lookup n = false) nodes) as Hin.
    { apply list_elem_of_filter. split; [|done]. unfold isKnown. by rewrite Hcmd. }
    rewrite Hnil in Hin. by apply elem_of_nil in Hin.
  - intros Hall.
    destruct (filter (λ n, isKnown lookup n = false) nodes) as [|x l] eqn:Hl; [done|].
    assert (x ∈ filter (λ n, isKnown lookup n = false) nodes) as Hin by (rewrite Hl; by left).
    apply list_elem_of_filter in Hin as [Hx Hin]. destruct (Hall x Hin) as [cmd Hcmd].
    unfold isKnown in Hx. by rewrite Hcmd in Hx.
Qed.

Lemma firstUnknown_Some (lookup : string → option command) (nodes : list CommandNode) n :
  firstUnknown lookup nodes = Some n
  ↔ ∃ i, nodes !! i = Some n ∧ lookup (commandKey n) = None
         ∧ ∀ j m, j < i → nodes !! j = Some m → is_Some (lookup (commandKey m)).
Proof.
  unfold firstUnknown. induction nodes as [|x nodes IH].
  - split; [done|]. by intros (i & ? & _).
  - rewrite filter_cons.
    destruct (lookup (commandKey x)) as [cmd|] eqn:Hx.
    + rewrite decide_False by (unfold isKnown; by rewrite Hx). rewrite IH. split.
      * intros (i & Hi & Hn & Hbefore). exists (S i). split; [done|]. split; [done|].
        intros [|j] m Hj Hm; simplify_eq/=; [by eexists|]. apply (Hbefore j); [lia|done].
      * intros ([|i] & Hi & Hn & Hbefore); simplify_eq/=.
        exists i. split; [done|]. split; [done|].
        intros j m Hj Hm. apply (Hbefore (S j)); [lia|done].
    + rewrite decide_True by (unfold isKnown; by rewrite Hx). simpl. split.
      * intros [= <-]. exists 0. split; [done|]. split; [done|]. intros j m Hj. lia.
      * intros ([|i] & Hi & Hn & Hbefore); simplify_eq/=; [done|].
        destruct (Hbefore 0 x) as [cmd Hcmd]; [lia|done|]. by rewrite Hx in Hcmd.
Qed.

Lemma verifyCommandsDefined_lookup tpl cenv lookup :
  LookupCommandFunc cenv = Some lookup →
  verifyCommandsDefinedPass ord tpl cenv
  = Done (tpl, cenv,
          (λ n, "cannot find command for '" +:+ (Action n +:+ Entity n) +:+ "'")
            <$> firstUnknown lookup (CommandNodesIterator tpl)).
Proof.
  intros Hlk. unfold verifyCommandsDefinedPass. rewrite Hlk.
  rewrite (verifyDefined_lookup cenv lookup _ Hlk). done.
Qed.

(** The templates that [verifyCommandsDefined] accepts. *)
Lemma verifyCommandsDefined_accepts tpl cenv :
  verifyCommandsDefinedPass ord tpl cenv = Done (tpl, cenv, None)
  ↔ ∃ lookup, LookupCommandFunc cenv = Some lookup
              ∧ ∀ n, n ∈ CommandNodesIterator tpl →
                     is_Some (lookup (Action n +:+ Entity n)).
Proof.
  split.
  - intros Hok. destruct (LookupCommandFunc cenv) as [lookup|] eqn:Hlk.
    + exists lookup. split; [done|]. apply (firstUnknown_None lookup).
      rewrite (verifyCommandsDefined_lookup tpl cenv lookup Hlk) in Hok.
      destruct (firstUnknown lookup (CommandNodesIterator tpl)); [done|done].
    + unfold verifyCommandsDefinedPass in Hok. by rewrite Hlk in Hok.
  - intros (lookup & Hlk & Hall). rewrite (verifyCommandsDefined_lookup tpl cenv lookup Hlk).
    by apply (firstUnknown_None lookup) in Hall as ->.
Qed.

(** X7.  [verifyCommandsDefined] fails with "command lookuper is undefined"
    when the environment has no command lookup.  With a lookup it goes
    through the command nodes in statement order and fails at the first
    one whose command the lookup does not know, with
    "cannot find command for '<action><entity>'"; it succeeds exactly when
    the lookup knows the command of every command node.  It never panics,
    and it returns the template and the environment as given. *)
Theorem verifyCommandsDefined_finds_first_unknown tpl cenv :
  (LookupCommandFunc cenv = None →
     verifyCommandsDefinedPass ord tpl cenv
     = Done (tpl, cenv, Some "command lookuper is undefined"))
  ∧ (∀ lookup, LookupCommandFunc cenv = Some lookup →
       verifyCommandsDefinedPass ord tpl cenv
       = Done (tpl, cenv,
               (λ n, "cannot find command for '" +:+ (Action n +:+ Entity n) +:+ "'")
                 <$> firstUnknown lookup (CommandNodesIterator tpl))
       ∧ (firstUnknown lookup (CommandNodesIterator tpl) = None
          ↔ ∀ n, n ∈ CommandNodesIterator tpl → is_Some (lookup (Action n +:+ Entity n)))
       ∧ (∀ n, firstUnknown lookup (CommandNodesIterator tpl) = Some n
          ↔ ∃ i, CommandNodesIterator tpl !! i = Some n
                 ∧ lookup (Action n +:+ Entity n) = None
                 ∧ ∀ j m, j < i → CommandNodesIterator tpl !! j = Some m →
                          is_Some (lookup (Action m +:+ Entity m))))
  ∧ (verifyCommandsDefinedPass ord tpl cenv = Done (tpl, cenv, None)
     ↔ ∃ lookup, LookupCommandFunc cenv = Some lookup
                 ∧ ∀ n, n ∈ CommandNodesIterator tpl →
                        is_Some (lookup (Action n +:+ Entity n))).
Proof.
  split; [|split].
  - intros Hnil. unfold verifyCommandsDefinedPass. by rewrite Hnil.
  - intros lookup Hlk. split; [by apply verifyCommandsDefined_lookup|]. split.
    + apply firstUnknown_None.
    + intros n. apply firstUnknown_Some.
  - apply verifyCommandsDefined_accepts.
Qed.

(** *** Loops over the command nodes that return *)

(** What a loop over the command nodes does to a statement, when its body
    takes a node [n] to a node [n'] with [R n n']. *)
Definition relStatement (R : CommandNode → CommandNode → Prop) st st' : Prop :=
  match commandNodeOf st with
  | Some n => ∃ n', R n n' ∧ st' = setExpressionNode st (ECommand n')
  | None => st' = st
  end.

(** A body that returns no error: the loop returns none, and has been
    through every node. *)
Lemma forCommandNodes_Done_no_error {T : Type}
    (body : CommandNode → T → run (CommandNode * T * error))
    (R : CommandNode → CommandNode → Prop) sts (s s' : T) sts' (err : error) :
  (∀ n s0 n' s1 e, body n s0 = Done (n', s1, e) → e = None ∧ R n n') →
  forCommandNodes body sts s = Done (sts', s', err) →
  err = None ∧ Forall2 (relStatement R) sts sts'.
Proof.
  intros Hbody. revert s sts'. induction sts as [|st sts IH]; intros s sts' Hrun.
  - simpl in Hrun. simplify_eq. by split.
  - cbn [forCommandNodes] in Hrun.
    destruct (commandNodeOf st) as [n|] eqn:Hst.
    + destruct (body n s) as [[[n' s1] e]|msg] eqn:Hn; [|done].
      destruct (Hbody n s n' s1 e Hn) as [-> HR]. simpl in Hrun.
      destruct (forCommandNodes body sts s1) as [[[rest' s2] e']|msg] eqn:Hrest; [|done].
      simpl in Hrun. simplify_eq. destruct (IH s1 rest' Hrest) as [-> Hall].
      split; [done|]. constructor; [|done]. unfold relStatement. rewrite Hst. by exists n'.
    + destruct (forCommandNodes body sts s) as [[[rest' s2] e']|msg] eqn:Hrest; [|done].
      simpl in Hrun. simplify_eq. destruct (IH s rest' Hrest) as [-> Hall].
      split; [done|]. constructor; [|done]. unfold relStatement. by rewrite Hst.
Qed.

Lemma setExpressionNode_commandNodeOf st n :
  commandNodeOf st = Some n → setExpressionNode st (ECommand n) = st.
Proof.
  unfold commandNodeOf, extractExpressionNode, setExpressionNode.
  destruct st as [[ident e|e]]; simpl; destruct e; intros; by simplify_eq.
Qed.

Lemma relStatement_refl (R : CommandNode → CommandNode → Prop) st :
  (∀ n, R n n) → relStatement R st st.
Proof.
  intros Hrefl. unfold relStatement. destruct (commandNodeOf st) as [n|] eqn:Hst; [|done].
  exists n. split; [done|]. by rewrite setExpressionNode_commandNodeOf.
Qed.

(** A body that keeps a reflexive relation between the node it is given
    and the node it leaves: whether the loop ends early or not, every
    statement is related to what it has become. *)
Lemma forCommandNodes_Done_related {T : Type}
    (body : CommandNode → T → run (CommandNode * T * error))
    (R : CommandNode → CommandNode → Prop) sts (s s' : T) sts' (err : error) :
  (∀ n, R n n) →
  (∀ n s0 n' s1 e, body n s0 = Done (n', s1, e) → R n n') →
  forCommandNodes body sts s = Done (sts', s', err) →
  Forall2 (relStatement R) sts sts'.
Proof.
  intros Hrefl Hbody. revert s sts'. induction sts as [|st sts IH]; intros s sts' Hrun.
  - simpl in Hrun. by simplify_eq.
  - cbn [forCommandNodes] in Hrun.
    destruct (commandNodeOf st) as [n|] eqn:Hst.
    + destruct (body n s) as [[[n' s1] e]|msg] eqn:Hn; [|done].
      pose proof (Hbody n s n' s1 e Hn) as HR. simpl in Hrun.
      assert (relStatement R st (setExpressionNode st (ECommand n'))) as Hhead.
      { unfold relStatement. rewrite Hst. by exists n'. }
      destruct e as [msg|].
      * simplify_eq. constructor; [done|].
        apply Forall2_same_length_lookup_2; [done|].
        intros i x y Hx Hy. simplify_eq. by apply relStatement_refl.
      * destruct (forCommandNodes body sts s1) as [[[rest' s2] e']|msg] eqn:Hrest; [|done].
        simpl in Hrun. simplify_eq. constructor; [done|]. by apply (IH s1).
    + destruct (forCommandNodes body sts s) as [[[rest' s2] e']|msg] eqn:Hrest; [|done].
      simpl in Hrun. simplify_eq. constructor; [|by apply (IH s)].
      unfold relStatement. by rewrite Hst.
Qed.

(** A loop that panics: its body panicked at some node. *)
Lemma forCommandNodes_Panicked_inv {T : Type}
    (body : CommandNode → T → run (CommandNode * T * error)) sts (s : T) (msg : string) :
  forCommandNodes body sts s = Panicked msg →
  ∃ n s0, n ∈ commandNodes sts ∧ body n s0 = Panicked msg.
Proof.
  revert s. induction sts as [|st sts IH]; intros s Hrun; [done|].
  cbn [forCommandNodes] in Hrun. rewrite commandNodes_cons.
  destruct (commandNodeOf st) as [n|] eqn:Hst.
  - destruct (body n s) as [[[n' s1] e]|msg'] eqn:Hn.
    + simpl in Hrun. destruct e as [?|]; [done|].
      destruct (forCommandNodes body sts s1) as [[[rest' s2] e']|msg'] eqn:Hrest; [done|].
      simpl in Hrun. simplify_eq. destruct (IH s1 Hrest) as (m & s0 & Hm & Hbody).
      exists m, s0. split; [by right|done].
    + simpl in Hrun. simplify_eq. exists n, s. split; [by left|done].
  - destruct (forCommandNodes body sts s) as [[[rest' s2] e']|msg'] eqn:Hrest; [done|].
    simpl in Hrun. simplify_eq. by apply (IH s).
Qed.

Lemma Forall2_relStatement_nodes (R : CommandNode → CommandNode → Prop) sts sts' :
  Forall2 (relStatement R) sts sts' → ∀ n, n ∈ commandNodes sts → ∃ n', R n n'.
Proof.
  induction 1 as [|st st' sts sts' Hst Hall IH]; intros n Hn.
  - by apply elem_of_nil in Hn.
  - rewrite commandNodes_cons in Hn. unfold relStatement in Hst.
    destruct (commandNodeOf st) as [m|]; [|by apply IH].
    apply elem_of_cons in Hn as [->|Hn]; [|by apply IH].
    destruct Hst as (n' & HR & _). by exists n'.
Qed.

(** *** injectCommands *)

Lemma inject_statements cenv lookup sts sts' :
  Forall2 (relStatement
             (λ n n', ∃ lookup c, LookupCommandFunc cenv = Some lookup
                                  ∧ lookup (Action n +:+ Entity n) = Some c
                                  ∧ isCommand c = true ∧ n' = setCommand n (Some c)))
          sts sts' →
  LookupCommandFunc cenv = Some lookup →
  sts' = mapCommandNode (λ n, setCommand n (lookup (Action n +:+ Entity n))) <$> sts
  ∧ ∀ n, n ∈ commandNodes sts →
         ∃ c, lookup (Action n +:+ Entity n) = Some c ∧ isCommand c = true.
Proof.
  intros Hall Hlk. induction Hall as [|st st' sts sts' Hst Hall IH].
  - split; [done|]. intros n Hn. by apply elem_of_nil in Hn.
  - destruct IH as [-> Hnodes]. rewrite fmap_cons, commandNodes_cons.
    unfold mapCommandNode at 2. unfold relStatement in Hst.
    destruct (commandNodeOf st) as [n|] eqn:Hn.
    + destruct Hst as (n' & (lookup' & c & Hlk' & Hc & Hok & ->) & ->).
      assert (lookup' = lookup) as -> by congruence. cbv beta. rewrite Hc. split; [done|].
      intros m [->|Hm]%elem_of_cons; [by exists c|by apply Hnodes].
    + subst. by split.
Qed.

(** X8.  [injectCommands] never returns an error: whenever it returns, the
    error is nil, the environment is the one given, and every command node
    has been bound to what the lookup yields for "<action><entity>", an
    object that is an [ast.Command].  (In every other case the pass
    panics; the branch that builds "inject: cannot find command for ..."
    is never taken.) *)
Theorem injectCommands_returns_no_error tpl cenv tpl' cenv' (err : error)
    (Hreturns : injectCommandsPass ord tpl cenv = Done (tpl', cenv', err)) :
  err = None
  ∧ cenv' = cenv
  ∧ ID tpl' = ID tpl
  ∧ (∀ lookup, LookupCommandFunc cenv = Some lookup →
       Statements tpl'
       = mapCommandNode (λ n, setCommand n (lookup (Action n +:+ Entity n)))
           <$> Statements tpl
       ∧ ∀ n, n ∈ CommandNodesIterator tpl →
              ∃ c, lookup (Action n +:+ Entity n) = Some c ∧ isCommand c = true)
  ∧ (CommandNodesIterator tpl ≠ [] → is_Some (LookupCommandFunc cenv)).
Proof.
  unfold injectCommandsPass in Hreturns.
  destruct (forCommandNodes _ (Statements tpl) tt) as [[[sts' []] e]|msg] eqn:Hloop; [|done].
  simpl in Hreturns. injection Hreturns as Htpl Hcenv Herr. subst tpl' cenv' err.
  apply (forCommandNodes_Done_no_error _
           (λ n n', ∃ lookup c, LookupCommandFunc cenv = Some lookup
                                ∧ lookup (Action n +:+ Entity n) = Some c
                                ∧ isCommand c = true ∧ n' = setCommand n (Some c)))
    in Hloop as [-> Hsts].
  - split; [done|]. split; [done|]. split; [done|].
    split; [intros lookup Hlk; by apply (inject_statements cenv)|].
    intros Hnodes. unfold CommandNodesIterator in Hnodes.
    destruct (omap commandNodeOf (Statements tpl)) as [|n nodes] eqn:Hn; [done|].
    destruct (Forall2_relStatement_nodes _ _ _ Hsts n) as (n' & lookup & c & Hlk & _).
    { unfold commandNodes. rewrite Hn. by left. }
    by exists lookup.
  - intros n [] n' [] e0. unfold lookupCommand.
    destruct (LookupCommandFunc cenv) as [lookup|]; [|done]. simpl.
    destruct (lookup (Action n +:+ Entity n)) as [c|] eqn:Hc; [|done]. simpl.
    destruct (isCommand c) eqn:Hok; [|done]. simpl. intros [= <- <-].
    split; [done|]. by exists lookup, c.
Qed.

(** X9.  On a template that [verifyCommandsDefined] accepts, the later
    passes find every command: [validateCommands] does not stop with
    "validate: cannot find command for ...", it reports the validation
    errors of all command nodes; [injectCommands] does not panic on a nil
    command, and binds every command when the lookup yields objects that
    are [ast.Command]. *)
Theorem verified_commands_are_found tpl cenv
    (Hverified : verifyCommandsDefinedPass ord tpl cenv = Done (tpl, cenv, None)) :
  ∃ lookup,
    LookupCommandFunc cenv = Some lookup
    ∧ (∀ n, n ∈ CommandNodesIterator tpl → is_Some (lookup (Action n +:+ Entity n)))
    ∧ validateCommandsPass ord tpl cenv
      = Done (tpl, cenv,
              match concat (validationErrsAt ord lookup <$> CommandNodesIterator tpl) with
              | [] => None
              | [e] => Some ("validation error: " +:+ e)
              | errs => Some ("validation errors:" +:+ errorLines errs)
              end)
    ∧ injectCommandsPass ord tpl cenv
      ≠ Panicked "interface conversion: interface is nil, not ast.Command"
    ∧ ((∀ n c, n ∈ CommandNodesIterator tpl → lookup (Action n +:+ Entity n) = Some c →
               isCommand c = true) →
         injectCommandsPass ord tpl cenv
         = Done ({| ID := ID tpl;
                    Statements :=
                      mapCommandNode (λ n, setCommand n (lookup (Action n +:+ Entity n)))
                        <$> Statements tpl |},
                 cenv, None)).
Proof.
  apply verifyCommandsDefined_accepts in Hverified as (lookup & Hlk & Hall).
  exists lookup. split; [done|]. split; [done|]. split; [|split].
  - unfold validateCommandsPass.
    rewrite (forCommandNodes_no_error _ id (λ acc n, acc ++ validationErrsAt ord lookup n)).
    + simpl. rewrite foldl_collect. simpl.
      change (commandNodes (Statements tpl)) with (CommandNodesIterator tpl).
      destruct (concat _) as [|e [|e' errs']]; [done|done|].
      change (Done (tpl, cenv,
                    Some ("validation errors:" +:+ LF +:+ TAB +:+ "- "
                            +:+ Join (e :: e' :: errs') (LF +:+ TAB +:+ "- ")))
              = Done (tpl, cenv,
                      Some ("validation errors:" +:+ errorLines (e :: e' :: errs')))).
      by rewrite <-(errorLines_Join e (e' :: errs')).
    + intros n acc Hn. destruct (Hall n Hn) as [cmd Hcmd].
      by apply (collect_found ord cenv lookup n cmd).
  - unfold injectCommandsPass. intros Hpanic.
    destruct (forCommandNodes _ (Statements tpl) tt) as [[[sts' []] e]|msg] eqn:Hloop; [done|].
    simpl in Hpanic. simplify_eq.
    apply forCommandNodes_Panicked_inv in Hloop as (n & [] & Hn & Hbody).
    destruct (Hall n Hn) as [c Hc]. revert Hbody.
    unfold lookupCommand. rewrite Hlk. simpl. rewrite Hc. simpl.
    by destruct (isCommand c).
  - intros Hcmds. unfold injectCommandsPass.
    rewrite (forCommandNodes_no_error _
               (λ n, setCommand n (lookup (Action n +:+ Entity n))) (λ s _, s)); [done|].
    intros n [] Hn. destruct (Hall n Hn) as [c Hc].
    unfold lookupCommand. rewrite Hlk. simpl. rewrite Hc. simpl.
    by rewrite (Hcmds n c Hn Hc).
Qed.

(** *** failOnDeclarationWithNoResult *)




End Pipeline.

End PipelineProps.

Module HolesProps.

Import Template Spec SpecHoles RangeProps MissingHolesProps.

Section Holes.

Context {W : Type}.

Implicit Types (sts : list Statement) (st : Statement) (n : CommandNode)
  (e : ExpressionNode) (v : Value) (fills : gmap string any) (h : string)
  (cenv : compileEnv W).

(** **** One value *)

Lemma valueGetHoles_range (ord : rangeOrder) v :
  range ord (valueGetHoles v)
  = match v with
    | HoleValue h cands => [(h, cands)]
    | _ => []
    end.
Proof.
  unfold range.
  assert (∀ l : list (string * list string), ord _ l ≡ₚ l) as Hperm by apply order_perm.
  destruct v as [c|h cands|r|a|c]; simpl;
    try (rewrite map_to_list_empty; apply Permutation_nil_r, Hperm).
  rewrite map_to_list_singleton. apply Permutation_singleton_r, Hperm.
Qed.

Lemma valueProcessHoles_fill fills v : (valueProcessHoles fills v).1 = fillValue fills v.
Proof.
  destruct v as [c|h cands|r|a|c]; try done. simpl.
  by destruct (fills !! h) as [[c|]|].
Qed.

Lemma valueProcessHoles_processed fills v h :
  (valueProcessHoles fills v).2 !! h
  = if decide (valueHole v = Some h) then fills !! h else None.
Proof.
  destruct v as [c|h' cands|r|a|c]; simpl; try apply lookup_empty.
  destruct (decide (h' = h)) as [->|Hne].
  - rewrite decide_True by done.
    destruct (fills !! h) as [[c|]|]; simpl; by rewrite ?lookup_singleton_eq.
  - rewrite decide_False by congruence.
    destruct (fills !! h') as [[c|]|]; simpl; by rewrite ?lookup_singleton_ne.
Qed.

Lemma valueHole_fill fills v h :
  valueHole (fillValue fills v) = Some h ↔ valueHole v = Some h ∧ staysOpen fills h.
Proof.
  unfold staysOpen. destruct v as [c|h' cands|r|a|c]; simpl;
    try (split; [done|by intros [? _]]).
  destruct (fills !! h') as [[c|]|] eqn:Hh'; simpl.
  - split; [done|]. intros [[= ->] Hopen]. by destruct (Hopen c).
  - split; [|by intros [? _]]. intros [= ->]. split; [done|]. intros c. by rewrite Hh'.
  - split; [|by intros [? _]]. intros [= ->]. split; [done|]. intros c. by rewrite Hh'.
Qed.

(** **** One command node *)

Lemma elem_of_exprHoles_command n h :
  h ∈ exprHoles (ECommand n) ↔ ∃ k v, Params n !! k = Some v ∧ valueHole v = Some h.
Proof.
  simpl. rewrite list_elem_of_omap. split.
  - intros (v & ([k v'] & -> & Hkv%elem_of_map_to_list)%list_elem_of_fmap & Hv).
    by exists k, v'.
  - intros (k & v & Hk & Hv). exists v. split; [|done].
    apply list_elem_of_fmap. exists (k, v). split; [done|]. by apply elem_of_map_to_list.
Qed.

Lemma elem_of_exprHoles_value v h : h ∈ exprHoles (EValue v) ↔ valueHole v = Some h.
Proof.
  simpl. destruct (valueHole v) as [h'|]; simpl.
  - rewrite list_elem_of_singleton. split; congruence.
  - split; [by intros ?%elem_of_nil|done].
Qed.

(** The loop of [ProcessHoles] over the parameters, from any node and any
    set of names. *)
Lemma commandProcessHoles_fold (l : list (string * Value)) fills n0
    (p0 : gmap string any) :
  NoDup l.*1 →
  let r := foldl (λ acc kv,
                    let '(v', processed) := valueProcessHoles fills kv.2 in
                    (setParam acc.1 kv.1 v', processed ∪ acc.2))
                 (n0, p0) l in
  Action r.1 = Action n0 ∧ Entity r.1 = Entity n0 ∧ Command r.1 = Command n0
  ∧ (∀ k, Params r.1 !! k
          = match list_to_map (M := gmap string Value) l !! k with
            | Some v => Some (fillValue fills v)
            | None => Params n0 !! k
            end)
  ∧ (∀ h, (∀ a, p0 !! h = Some a → fills !! h = Some a) →
          r.2 !! h
          = if decide (h ∈ omap valueHole l.*2)
            then match fills !! h with Some a => Some a | None => p0 !! h end
            else p0 !! h).
Proof.
  intros Hnd r. unfold r. clear r.
  induction l as [|[k0 v0] l IH] using rev_ind.
  - simpl. repeat split; try done.
  - rewrite fmap_app in Hnd. apply NoDup_app in Hnd as (Hnd & Hnew & _).
    destruct (IH Hnd) as (Ha & He & Hc & Hp & Hproc). clear IH.
    rewrite foldl_app. simpl.
    destruct (valueProcessHoles fills v0) as [v' processed] eqn:Hv0. simpl.
    split; [done|]. split; [done|]. split; [done|]. split.
    + intros k. destruct (decide (k0 = k)) as [->|Hne].
      * rewrite lookup_insert_eq.
        rewrite (elem_of_list_to_map_1 (l ++ [(k, v0)]) k v0).
        -- by rewrite <-valueProcessHoles_fill, Hv0.
        -- rewrite fmap_app. apply NoDup_app. split; [done|]. split; [done|].
           apply NoDup_singleton.
        -- apply elem_of_app. right. by left.
      * rewrite lookup_insert_ne, Hp by done.
        assert (list_to_map (M := gmap string Value) (l ++ [(k0, v0)]) !! k
                = list_to_map (M := gmap string Value) l !! k) as ->; [|done].
        rewrite list_to_map_app, lookup_union. simpl.
        rewrite lookup_insert_ne, lookup_empty by done.
        by destruct (list_to_map l !! k).
    + intros h Hp0. specialize (Hproc h Hp0). rewrite lookup_union, Hproc.
      pose proof (valueProcessHoles_processed fills v0 h) as Hh. rewrite Hv0 in Hh.
      simpl in Hh. rewrite Hh. rewrite fmap_app, omap_app. simpl.
      destruct (decide (valueHole v0 = Some h)) as [Hv|Hv].
      * rewrite Hv. simpl. rewrite (decide_True (P := h ∈ _ ++ [h]))
          by (apply elem_of_app; right; by left).
        destruct (fills !! h) as [a|] eqn:Hfh;
          destruct (decide (h ∈ omap valueHole l.*2));
          destruct (p0 !! h) as [a0|] eqn:Hp0h; try done.
      * assert (h ∈ omap valueHole l.*2 ++ match valueHole v0 with
                                             | Some y => [y] | None => []
                                             end
                ↔ h ∈ omap valueHole l.*2) as Hiff.
        { rewrite elem_of_app. split; [|by left]. intros [?|Hin]; [done|].
          destruct (valueHole v0) as [y|]; [|by apply elem_of_nil in Hin].
          apply list_elem_of_singleton in Hin. congruence. }
        destruct (decide (h ∈ omap valueHole l.*2)) as [Hin|Hout].
        -- rewrite decide_True by (by apply Hiff).
           by destruct (fills !! h), (p0 !! h).
        -- rewrite decide_False by (by rewrite Hiff). by destruct (p0 !! h).
Qed.

Lemma list_to_map_range {V : Type} (ord : rangeOrder) (m : gmap string V) :
  list_to_map (range ord m) = m.
Proof.
  apply map_eq. intros k. apply option_eq. intros x.
  rewrite <-(elem_of_range ord m). split.
  - apply elem_of_list_to_map_2.
  - apply elem_of_list_to_map_1, NoDup_range_keys.
Qed.

Lemma commandNode_eq n n' :
  Action n = Action n' → Entity n = Entity n' → Params n = Params n' →
  Command n = Command n' → n = n'.
Proof. destruct n, n'. simpl. by intros -> -> -> ->. Qed.

Lemma commandProcessHoles_fill (ord : rangeOrder) fills n :
  (commandProcessHoles ord fills n).1 = setParams n (fillValue fills <$> Params n)
  ∧ ∀ h, (commandProcessHoles ord fills n).2 !! h
         = if decide (h ∈ exprHoles (ECommand n)) then fills !! h else None.
Proof.
  unfold commandProcessHoles.
  destruct (commandProcessHoles_fold (range ord (Params n)) fills n ∅
              (NoDup_range_keys ord (Params n))) as (Ha & He & Hc & Hp & Hproc).
  split.
  - apply commandNode_eq; try done. simpl. apply map_eq. intros k.
    rewrite Hp, list_to_map_range, lookup_fmap. by destruct (Params n !! k).
  - intros h. rewrite Hproc by (intros a; by rewrite lookup_empty).
    rewrite lookup_empty.
    assert (h ∈ omap valueHole (range ord (Params n)).*2 ↔ h ∈ exprHoles (ECommand n)) as Hiff.
    { simpl. unfold range. by rewrite (order_perm ord). }
    destruct (decide (h ∈ exprHoles (ECommand n))) as [Hin|Hout].
    + rewrite decide_True by (by apply Hiff). by destruct (fills !! h).
    + by rewrite decide_False by (by rewrite Hiff).
Qed.

(** **** One expression node *)

Lemma ProcessHoles_fill (ord : rangeOrder) fills e :
  (ProcessHoles ord fills e).1 = fillExpression fills e
  ∧ ∀ h, (ProcessHoles ord fills e).2 !! h
         = if decide (h ∈ exprHoles e) then fills !! h else None.
Proof.
  destruct e as [n|v]; cbn [ProcessHoles].
  - destruct (commandProcessHoles_fill ord fills n) as [Hn Hp].
    destruct (commandProcessHoles ord fills n) as [n' p]. cbn [fst snd] in *. by subst.
  - pose proof (valueProcessHoles_fill fills v) as Hv.
    pose proof (valueProcessHoles_processed fills v) as Hp.
    destruct (valueProcessHoles fills v) as [v' p]. cbn [fst snd] in *. subst.
    split; [done|]. intros h. rewrite Hp.
    destruct (decide (valueHole v = Some h)) as [Hv|Hv];
      destruct (decide (h ∈ exprHoles (EValue v))) as [Hin|Hout]; try done.
    + exfalso. apply Hout. by apply elem_of_exprHoles_value.
    + exfalso. apply Hv. by apply elem_of_exprHoles_value.
Qed.

Lemma exprHoles_fill fills e h :
  h ∈ exprHoles (fillExpression fills e) ↔ h ∈ exprHoles e ∧ staysOpen fills h.
Proof.
  destruct e as [n|v].
  - change (fillExpression fills (ECommand n))
      with (ECommand (setParams n (fillValue fills <$> Params n))).
    rewrite !elem_of_exprHoles_command. simpl. split.
    + intros (k & v' & Hk & Hv). rewrite lookup_fmap in Hk.
      destruct (Params n !! k) as [v|] eqn:Hn; [|done]. simpl in Hk. simplify_eq.
      apply valueHole_fill in Hv as [Hv Hopen]. split; [|done]. by exists k, v.
    + intros [(k & v & Hk & Hv) Hopen]. exists k, (fillValue fills v).
      rewrite lookup_fmap, Hk. split; [done|]. by apply valueHole_fill.
  - change (fillExpression fills (EValue v)) with (EValue (fillValue fills v)).
    rewrite !elem_of_exprHoles_value. apply valueHole_fill.
Qed.

Lemma extract_setExpressionNode st e :
  extractExpressionNode (setExpressionNode st e) = e.
Proof. unfold extractExpressionNode, setExpressionNode. by destruct (node st). Qed.

Lemma elem_of_holeNames sts h :
  h ∈ holeNames sts ↔ ∃ st, st ∈ sts ∧ h ∈ exprHoles (extractExpressionNode st).
Proof.
  unfold holeNames. rewrite list_elem_of_bind. split.
  - intros (st & Hh & Hst). by exists st.
  - intros (st & Hst & Hh). by exists st.
Qed.

Lemma holeNames_fill fills sts h :
  h ∈ holeNames (fillStatement fills <$> sts) ↔ h ∈ holeNames sts ∧ staysOpen fills h.
Proof.
  rewrite !elem_of_holeNames. split.
  - intros (st' & (st & -> & Hst)%list_elem_of_fmap & Hh).
    unfold fillStatement in Hh. rewrite extract_setExpressionNode in Hh.
    apply exprHoles_fill in Hh as [Hh Hopen]. split; [|done]. by exists st.
  - intros [(st & Hst & Hh) Hopen]. exists (fillStatement fills st). split.
    + apply list_elem_of_fmap. by exists st.
    + unfold fillStatement. rewrite extract_setExpressionNode. by apply exprHoles_fill.
Qed.

(** **** The visit of every node with the fillers *)

Lemma addToProcessedFillers_union (p1 p2 : gmap string any) cenv :
  addToProcessedFillers p1 (addToProcessedFillers p2 cenv)
  = addToProcessedFillers (p1 ∪ p2) cenv.
Proof. unfold addToProcessedFillers. simpl. by rewrite (assoc_L (∪)). Qed.

Lemma addToProcessedFillers_empty cenv : addToProcessedFillers ∅ cenv = cenv.
Proof. unfold addToProcessedFillers. rewrite (left_id_L ∅ (∪)). by destruct cenv. Qed.

(** The second component of the visit, as a union of what every node
    reports, and the statements it leaves. *)
Lemma visitHoles_fill (ord : rangeOrder) (fillsOf : compileEnv W → gmap string any)
    fills sts cenv :
  (∀ p env, fillsOf (addToProcessedFillers p env) = fillsOf env) →
  fillsOf cenv = fills →
  visitHoles (λ (h : ExpressionNode) env,
                let '(h', processed) := ProcessHoles ord (fillsOf env) h in
                (h', addToProcessedFillers processed env))
             sts cenv
  = (fillStatement fills <$> sts,
     addToProcessedFillers (consumedFillers fills sts) cenv).
Proof.
  intros Hkeep Hfills. unfold visitHoles, forExpressionNodes.
  induction sts as [|st sts IH] using rev_ind.
  - simpl. unfold consumedFillers.
    assert (filter (λ kv : string * any, kv.1 ∈ holeNames []) fills = ∅) as ->.
    { apply map_eq. intros k. rewrite lookup_empty. apply map_lookup_filter_None.
      right. intros x _ Hin. by apply elem_of_nil in Hin. }
    by rewrite addToProcessedFillers_empty.
  - rewrite foldl_app, IH. simpl. rewrite Hkeep, Hfills.
    destruct (ProcessHoles_fill ord fills (extractExpressionNode st)) as [He Hp].
    destruct (ProcessHoles ord fills (extractExpressionNode st)) as [e' p]. simpl in *. subst.
    rewrite fmap_app. simpl. f_equal. rewrite addToProcessedFillers_union. f_equal.
    assert (∀ h, h ∈ holeNames (sts ++ [st])
                 ↔ h ∈ exprHoles (extractExpressionNode st) ∨ h ∈ holeNames sts) as Hiff.
    { intros h. rewrite !elem_of_holeNames. split.
      - intros (st' & [Hst'|Hst'%list_elem_of_singleton]%elem_of_app & Hh).
        + right. by exists st'.
        + left. by subst.
      - intros [Hh|(st' & Hst' & Hh)].
        + exists st. split; [|done]. apply elem_of_app. right. by left.
        + exists st'. split; [|done]. apply elem_of_app. by left. }
    apply map_eq. intros h. apply option_eq. intros a. unfold consumedFillers.
    rewrite lookup_union_Some_raw, Hp, !map_lookup_filter_Some. simpl. rewrite Hiff.
    destruct (decide (h ∈ exprHoles (extractExpressionNode st))) as [Hst|Hst].
    + split.
      * intros [Hf|[Hf [Hf' _]]]; [by split; [|left]|congruence].
      * intros [Hf _]. by left.
    + split.
      * intros [?|[_ [Hf Hsts]]]; [done|]. split; [done|by right].
      * intros [Hf [?|Hsts]]; [done|]. right. by split.
Qed.

(** **** The open holes, as [GetHoles] gives them *)

Lemma commandGetHoles_fold (ord : rangeOrder) (l : list (string * Value))
    (m0 : gmap string (list string)) h :
  is_Some (foldl (λ holes kv,
                    foldl (λ holes hc, <[hc.1 := default [] (holes !! hc.1) ++ hc.2]> holes)
                          holes (range ord (valueGetHoles kv.2)))
                 m0 l !! h)
  ↔ is_Some (m0 !! h) ∨ h ∈ omap valueHole l.*2.
Proof.
  induction l as [|[k v] l IH] using rev_ind.
  - simpl. split; [by left|]. by intros [?|?%elem_of_nil].
  - rewrite foldl_app, fmap_app, omap_app, elem_of_app. simpl.
    rewrite valueGetHoles_range. destruct v as [c|h' cands|r|a|c]; simpl;
      try (rewrite IH; split; [intros [?|?]; [by left|right; by left]
                              |intros [?|[?|?%elem_of_nil]]; [by left|by right|done]]).
    rewrite list_elem_of_singleton. destruct (decide (h' = h)) as [->|Hne].
    + rewrite lookup_insert_eq. split; [|by eexists]. intros _. right. by right.
    + rewrite lookup_insert_ne, IH by done. split.
      * intros [?|?]; [by left|right; by left].
      * intros [?|[?|?]]; [by left|by right|congruence].
Qed.

Lemma GetHoles_is_Some (ord : rangeOrder) e h :
  is_Some (GetHoles ord e !! h) ↔ h ∈ exprHoles e.
Proof.
  destruct e as [n|v].
  - cbn [GetHoles]. unfold commandGetHoles. rewrite commandGetHoles_fold, lookup_empty.
    assert (h ∈ omap valueHole (range ord (Params n)).*2 ↔ h ∈ exprHoles (ECommand n)) as ->.
    { simpl. unfold range. by rewrite (order_perm ord). }
    split; [|by right]. intros [[? ?]|?]; done.
  - rewrite elem_of_exprHoles_value. destruct v as [c|h' cands|r|a|c]; simpl;
      rewrite ?lookup_empty; try (split; [by intros [??]|done]).
    destruct (decide (h' = h)) as [->|Hne].
    + rewrite lookup_singleton_eq. split; [done|by eexists].
    + rewrite lookup_singleton_ne by done. split; [by intros [??]|congruence].
Qed.

Lemma foldl_insert_unit (l : list (string * list string)) (u : gmap string unit) h :
  is_Some (foldl (λ u kv, <[kv.1 := tt]> u) u l !! h) ↔ is_Some (u !! h) ∨ h ∈ l.*1.
Proof.
  induction l as [|[k cs] l IH] using rev_ind.
  - simpl. split; [by left|]. by intros [?|?%elem_of_nil].
  - rewrite foldl_app, fmap_app, elem_of_app. simpl. rewrite list_elem_of_singleton.
    destruct (decide (k = h)) as [->|Hne].
    + rewrite lookup_insert_eq. split; [|by eexists]. intros _. right. by right.
    + rewrite lookup_insert_ne, IH by done. split.
      * intros [?|?]; [by left|right; by left].
      * intros [?|[?|?]]; [by left|by right|congruence].
Qed.

Lemma uniqueUnresolved_is_Some (ord : rangeOrder) sts h :
  is_Some (uniqueUnresolved ord sts !! h) ↔ h ∈ holeNames sts.
Proof.
  unfold uniqueUnresolved, visitHoles. rewrite forExpressionNodes_state.
  rewrite elem_of_holeNames.
  induction sts as [|st sts IH] using rev_ind.
  - simpl. rewrite lookup_empty. split; [by intros [??]|]. by intros (? & ?%elem_of_nil & _).
  - rewrite foldl_app. simpl. rewrite foldl_insert_unit, IH.
    rewrite (elem_of_range_keys ord), GetHoles_is_Some. split.
    + intros [(st' & Hst' & Hh)|Hh].
      * exists st'. split; [|done]. apply elem_of_app. by left.
      * exists st. split; [|done]. apply elem_of_app. right. by left.
    + intros (st' & [Hst'|Hst'%list_elem_of_singleton]%elem_of_app & Hh).
      * left. by exists st'.
      * right. by subst.
Qed.

(** The names that [failOnUnresolvedHoles] lists. *)
Lemma unresolved_names (ord : rangeOrder) sts :
  let names := sortStrings (range ord (uniqueUnresolved ord sts)).*1 in
  StronglySorted String.le names ∧ NoDup names ∧ ∀ h, h ∈ names ↔ h ∈ holeNames sts.
Proof.
  intros names. split; [apply (StronglySorted_merge_sort _)|]. split.
  - unfold names, sortStrings. rewrite merge_sort_Permutation. apply NoDup_range_keys.
  - intros h. unfold names, sortStrings.
    by rewrite merge_sort_Permutation, (elem_of_range_keys ord), uniqueUnresolved_is_Some.
Qed.

Lemma failOnUnresolvedHoles_sorted (ord : rangeOrder) (tpl : Template) cenv :
  failOnUnresolvedHolesPass ord tpl cenv
  = Done (tpl, cenv,
          match sortStrings (range ord (uniqueUnresolved ord (Statements tpl))).*1 with
          | [] => None
          | names => Some ("template contains unresolved holes: " +:+ showSlice names)
          end).
Proof.
  unfold failOnUnresolvedHolesPass.
  destruct ((range ord (uniqueUnresolved ord (Statements tpl))).*1) as [|x l] eqn:Hl; [done|].
  destruct (sortStrings (x :: l)) as [|y names] eqn:Hs; [|done].
  exfalso. apply (Permutation_nil_cons (l := l) (x := x)).
  rewrite <-Hs. unfold sortStrings. by rewrite merge_sort_Permutation.
Qed.

(** X11.  [failOnUnresolvedHoles] succeeds exactly when no expression node of
    the template has an open hole.  Otherwise it fails with
    "template contains unresolved holes: [...]", where the list holds the
    name of every open hole of the template once, in ascending (byte-wise)
    order, between brackets and separated by spaces.  The template and the
    environment are returned as given. *)
Theorem failOnUnresolvedHoles_lists_sorted_names (ord : rangeOrder) (tpl : Template) cenv :
  let names := sortStrings (range ord (uniqueUnresolved ord (Statements tpl))).*1 in
  failOnUnresolvedHolesPass ord tpl cenv
  = Done (tpl, cenv,
          match names with
          | [] => None
          | _ => Some ("template contains unresolved holes: " +:+ showSlice names)
          end)
  ∧ StronglySorted String.le names
  ∧ NoDup names
  ∧ (∀ h, h ∈ names
          ↔ ∃ st, st ∈ Statements tpl ∧ h ∈ exprHoles (extractExpressionNode st))
  ∧ (failOnUnresolvedHolesPass ord tpl cenv = Done (tpl, cenv, None)
     ↔ ∀ st, st ∈ Statements tpl → exprHoles (extractExpressionNode st) = []).
Proof.
  intros names.
  destruct (unresolved_names ord (Statements tpl)) as (Hsorted & Hnd & Hin).
  fold names in Hsorted, Hnd, Hin.
  split; [rewrite failOnUnresolvedHoles_sorted; fold names; by destruct names|].
  split; [done|]. split; [done|].
  split; [intros h; by rewrite Hin, elem_of_holeNames|].
  rewrite failOnUnresolvedHoles_sorted. fold names. split.
  - intros Hok st Hst. destruct (exprHoles (extractExpressionNode st)) as [|h l] eqn:Hh; [done|].
    assert (h ∈ names) as Hnames.
    { apply Hin, elem_of_holeNames. exists st. split; [done|]. rewrite Hh. by left. }
    destruct names; [by apply elem_of_nil in Hnames|done].
  - intros Hnone. destruct names as [|h names'] eqn:Hnames; [done|].
    assert (h ∈ holeNames (Statements tpl)) as (st & Hst & Hh)%elem_of_holeNames
      by (apply Hin; by left).
    rewrite (Hnone st Hst) in Hh. by apply elem_of_nil in Hh.
Qed.

(** X12.  The outcome of [failOnUnresolvedHoles] does not depend on the order
    in which the run-time system enumerates maps: two runs on the same
    template and environment return the same error, with the names in the
    same order. *)
Theorem failOnUnresolvedHoles_ignores_map_order (ord1 ord2 : rangeOrder)
    (tpl : Template) cenv :
  failOnUnresolvedHolesPass ord1 tpl cenv = failOnUnresolvedHolesPass ord2 tpl cenv.
Proof.
  rewrite !failOnUnresolvedHoles_sorted.
  destruct (unresolved_names ord1 (Statements tpl)) as (Hsorted1 & Hnd1 & Hin1).
  destruct (unresolved_names ord2 (Statements tpl)) as (Hsorted2 & Hnd2 & Hin2).
  assert (sortStrings (range ord1 (uniqueUnresolved ord1 (Statements tpl))).*1
          = sortStrings (range ord2 (uniqueUnresolved ord2 (Statements tpl))).*1) as ->;
    [|done].
  apply (StronglySorted_unique String.le); [done|done|].
  apply NoDup_Permutation; [done|done|]. intros h. by rewrite Hin1, Hin2.
Qed.

(** X13.  [resolveHoles] never fails.  It returns the template with every
    hole filled for which the environment's fillers hold a value that is
    not nil (the hole becomes that value), and everything else as it was;
    the holes left are those of the template that the fillers do not
    cover.  The environment gains, as processed fillers, the fillers whose
    name is the name of a hole of the template, and is otherwise as given.
    The result is the same under every enumeration order of maps. *)
Theorem resolveHoles_fills_covered_holes (ord : rangeOrder) (tpl : Template) cenv :
  resolveHolesPass ord tpl cenv
  = Done ({| ID := ID tpl;
             Statements := fillStatement (Fillers cenv) <$> Statements tpl |},
          addToProcessedFillers (consumedFillers (Fillers cenv) (Statements tpl)) cenv,
          None)
  ∧ (∀ h, h ∈ holeNames (fillStatement (Fillers cenv) <$> Statements tpl)
          ↔ h ∈ holeNames (Statements tpl) ∧ ∀ c, Fillers cenv !! h ≠ Some (Some c))
  ∧ (∀ h a, consumedFillers (Fillers cenv) (Statements tpl) !! h = Some a
            ↔ Fillers cenv !! h = Some a ∧ h ∈ holeNames (Statements tpl))
  ∧ (∀ v, fillValue (Fillers cenv) v
            = match v with
              | HoleValue h _ =>
                  match Fillers cenv !! h with
                  | Some (Some c) => LiteralValue c
                  | _ => v
                  end
              | _ => v
              end).
Proof.
  split; [|split; [|split]].
  - unfold resolveHolesPass.
    by rewrite (visitHoles_fill ord Fillers (Fillers cenv)).
  - intros h. apply holeNames_fill.
  - intros h a. unfold consumedFillers. by rewrite map_lookup_filter_Some.
  - done.
Qed.

(** X14.  [resolveHoles] followed by [failOnUnresolvedHoles] succeeds exactly
    when the fillers of the environment hold, for every hole of the
    template, a value that is not nil.  Otherwise the compilation fails
    with the sorted names of the holes that are not covered. *)
Theorem resolveHoles_then_failOnUnresolvedHoles (ord : rangeOrder) (tpl : Template) cenv :
  let resolved := fillStatement (Fillers cenv) <$> Statements tpl in
  let names := sortStrings (range ord (uniqueUnresolved ord resolved)).*1 in
  compile ord [resolveHolesPass; failOnUnresolvedHolesPass] tpl cenv
  = Done ({| ID := ID tpl; Statements := resolved |},
          addToProcessedFillers (consumedFillers (Fillers cenv) (Statements tpl)) cenv,
          match names with
          | [] => None
          | _ => Some ("template contains unresolved holes: " +:+ showSlice names)
          end)
  ∧ StronglySorted String.le names
  ∧ NoDup names
  ∧ (∀ h, h ∈ names
          ↔ h ∈ holeNames (Statements tpl) ∧ ∀ c, Fillers cenv !! h ≠ Some (Some c))
  ∧ (names = []
     ↔ ∀ h, h ∈ holeNames (Statements tpl) → ∃ c, Fillers cenv !! h = Some (Some c)).
Proof.
  intros resolved names.
  set (tpl' := {| ID := ID tpl; Statements := resolved |}).
  set (cenv' := addToProcessedFillers
                  (consumedFillers (Fillers cenv) (Statements tpl)) cenv).
  destruct (unresolved_names ord resolved) as (Hsorted & Hnd & Hin).
  fold names in Hsorted, Hnd, Hin.
  assert (∀ h, h ∈ names
               ↔ h ∈ holeNames (Statements tpl) ∧ ∀ c, Fillers cenv !! h ≠ Some (Some c))
    as Hnames.
  { intros h. rewrite Hin. apply holeNames_fill. }
  split; [|split; [done|split; [done|split; [done|]]]].
  - cbn [compile]. unfold resolveHolesPass.
    rewrite (visitHoles_fill ord Fillers (Fillers cenv)) by done.
    fold resolved. fold tpl' cenv'. simpl. rewrite failOnUnresolvedHoles_sorted.
    change (Statements tpl') with resolved. fold names. by destruct names.
  - split.
    + intros Hnil h Hh. destruct (Fillers cenv !! h) as [[c|]|] eqn:Hf; [by exists c|..].
      * assert (h ∈ names) as Hbad
          by (apply Hnames; split; [done|]; intros c; by rewrite Hf).
        rewrite Hnil in Hbad. by apply elem_of_nil in Hbad.
      * assert (h ∈ names) as Hbad
          by (apply Hnames; split; [done|]; intros c; by rewrite Hf).
        rewrite Hnil in Hbad. by apply elem_of_nil in Hbad.
    + intros Hall. destruct names as [|h l] eqn:Hl; [done|].
      destruct (proj1 (Hnames h)) as [Hh Hopen]; [by left|].
      destruct (Hall h Hh) as [c Hc]. by destruct (Hopen c).
Qed.

(** **** resolveMissingHoles, the second visit *)

Lemma fillValue_empty v : fillValue ∅ v = v.
Proof. by destruct v as [c|h cands|r|a|c]. Qed.

Lemma fillStatement_empty st : fillStatement ∅ st = st.
Proof.
  unfold fillStatement, extractExpressionNode, setExpressionNode.
  assert (∀ e, fillExpression ∅ e = e) as Hexpr.
  { intros [n|v]; simpl; [|by rewrite fillValue_empty]. f_equal.
    apply commandNode_eq; [done|done| |done]. simpl. apply map_eq. intros k.
    rewrite lookup_fmap. destruct (Params n !! k); [|done]. simpl. by rewrite fillValue_empty. }
  destruct st as [[ident e|e]]; simpl; by rewrite Hexpr.
Qed.

Lemma askMissingHoles_no_callback cenv (u : gmap string (list string))
    (names : list string) :
  MissingHolesFunc cenv = None → askMissingHoles cenv u names = (∅, world cenv).
Proof.
  intros Hnone. unfold askMissingHoles. rewrite Hnone.
  induction names as [|k names IH] using rev_ind; [done|]. by rewrite foldl_app, IH.
Qed.

(** X15.  Without a missing-holes callback in the environment,
    [resolveMissingHoles] does nothing: it asks nobody, fills no hole and
    returns the template and the environment as given, with no error,
    whatever holes the template has. *)
Theorem resolveMissingHoles_without_callback (ord : rangeOrder) (tpl : Template) cenv
    (Hnone : MissingHolesFunc cenv = None) :
  resolveMissingHolesPass ord tpl cenv = Done (tpl, cenv, None).
Proof.
  unfold resolveMissingHolesPass. rewrite askMissingHoles_no_callback by done.
  rewrite (visitHoles_fill ord (λ _, ∅) ∅) by done.
  assert (fillStatement ∅ <$> Statements tpl = Statements tpl) as ->.
  { induction (Statements tpl) as [|st sts IH]; [done|].
    by rewrite fmap_cons, fillStatement_empty, IH. }
  assert (consumedFillers ∅ (Statements tpl) = ∅) as ->
    by (unfold consumedFillers; apply map_filter_empty).
  rewrite addToProcessedFillers_empty. by destruct tpl, cenv.
Qed.

Lemma fillersOf_is_Some (names : list string) (answers : list any) h :
  NoDup names → length answers = length names →
  is_Some (fillersOf names answers !! h) ↔ h ∈ names.
Proof.
  intros Hnd Hlen. split.
  - intros Hsome. destruct (decide (h ∈ names)) as [|Hout]; [done|].
    unfold fillersOf in Hsome. rewrite foldl_insert_absent in Hsome.
    + rewrite lookup_empty in Hsome. by destruct Hsome.
    + by rewrite fst_zip by lia.
  - intros (i & Hi)%list_elem_of_lookup.
    destruct (fillersOf_lookup names answers i h Hnd Hlen Hi) as (a & _ & Ha). by eexists.
Qed.

(** X16.  With a missing-holes callback, [resolveMissingHoles] asks about
    every hole of the template and fills the template with the answers: a
    hole whose answer is not nil becomes the answer, a hole whose answer is
    nil stays open, and these are the only holes left.  The environment
    gains all the answers as processed fillers, and its world is the one
    the last call left. *)
Theorem resolveMissingHoles_fills_with_answers (ord : rangeOrder) (tpl : Template) cenv
    (callback : string → list string → W → any * W)
    (Hcallback : MissingHolesFunc cenv = Some callback) :
  let uniqueHoles := collectHoles ord (Statements tpl) in
  let names := sortStrings (range ord uniqueHoles).*1 in
  let fillers := (askMissingHoles cenv uniqueHoles names).1 in
  let w := (askMissingHoles cenv uniqueHoles names).2 in
  resolveMissingHolesPass ord tpl cenv
  = Done ({| ID := ID tpl; Statements := fillStatement fillers <$> Statements tpl |},
          addToProcessedFillers fillers (setWorld w cenv), None)
  ∧ (∀ h, is_Some (fillers !! h) ↔ h ∈ holeNames (Statements tpl))
  ∧ (∀ h, h ∈ holeNames (fillStatement fillers <$> Statements tpl)
          ↔ fillers !! h = Some None).
Proof.
  intros uniqueHoles names fillers w.
  assert (∀ h, is_Some (fillers !! h) ↔ h ∈ holeNames (Statements tpl)) as Hasked.
  { intros h. unfold fillers.
    rewrite (askMissingHoles_runCalls cenv callback uniqueHoles names Hcallback). simpl.
    rewrite fillersOf_is_Some.
    - unfold names, sortStrings.
      rewrite merge_sort_Permutation, (elem_of_range_keys ord).
      unfold uniqueHoles. rewrite collectHoles_lookup, fmap_is_Some.
      rewrite (lastCandidates_is_Some ord), elem_of_holeNames.
      unfold Spec.holesOf. by setoid_rewrite GetHoles_is_Some.
    - unfold names, sortStrings. rewrite merge_sort_Permutation. apply NoDup_range_keys.
    - by rewrite length_runCalls, length_fmap. }
  split; [|split; [done|]].
  - unfold resolveMissingHolesPass. fold uniqueHoles. fold names.
    destruct (askMissingHoles cenv uniqueHoles names) as [fillers' w'] eqn:Hask.
    subst fillers w. simpl in *.
    rewrite (visitHoles_fill ord (λ _, fillers') fillers') by done.
    assert (consumedFillers fillers' (Statements tpl) = fillers') as ->; [|done].
    apply map_eq. intros h. apply option_eq. intros a. unfold consumedFillers.
    rewrite map_lookup_filter_Some. simpl. split; [by intros [? _]|].
    intros Ha. split; [done|]. apply Hasked. by eexists.
  - intros h. rewrite holeNames_fill, <-Hasked. unfold staysOpen. split.
    + intros [[[c|] Hh] Hopen]; [by destruct (Hopen c)|done].
    + intros Hh. rewrite Hh. split; [by eexists|done].
Qed.

End Holes.

End HolesProps.

Module AliasPassProps.

Import Template Spec SpecAlias RangeProps HolesProps.

Section Alias.

Context {W : Type}.

Implicit Types (sts : list Statement) (st : Statement) (n : CommandNode)
  (e : ExpressionNode) (v : Value) (cenv : compileEnv W)
  (resolve : string → string → string → string).

(** A loop over the expression nodes whose body gives every node a new
    node and the state a new state, each on its own. *)
Lemma forExpressionNodes_map {T : Type} (fn : ExpressionNode → T → ExpressionNode * T)
    (g : ExpressionNode → ExpressionNode) (f : T → ExpressionNode → T) sts (s : T) :
  (∀ e s0, fn e s0 = (g e, f s0 e)) →
  forExpressionNodes fn sts s
  = ((λ st, setExpressionNode st (g (extractExpressionNode st))) <$> sts,
     foldl (λ s0 st, f s0 (extractExpressionNode st)) s sts).
Proof.
  intros Hfn. unfold forExpressionNodes.
  induction sts as [|st sts IH] using rev_ind; [done|].
  rewrite !foldl_app, IH, fmap_app. simpl. by rewrite Hfn.
Qed.

(** **** failOnUnresolvedAlias *)

Lemma foldl_append_bind {A : Type} (f : A → list string) (l : list A) (acc : list string) :
  foldl (λ acc x, acc ++ f x) acc l = acc ++ (l ≫= f).
Proof.
  revert acc. induction l as [|x l IH]; intros acc; simpl.
  - by rewrite app_nil_r.
  - by rewrite IH, app_assoc.
Qed.

Lemma valueGetAliases_valueAlias v : valueGetAliases v = option_list (valueAlias v).
Proof. by destruct v. Qed.

Lemma bind_valueGetAliases (l : list (string * Value)) :
  l ≫= (λ kv, valueGetAliases kv.2) = omap (λ kv, valueAlias kv.2) l.
Proof.
  induction l as [|[k v] l IH]; [done|]. rewrite bind_cons, IH. simpl.
  rewrite valueGetAliases_valueAlias. by destruct (valueAlias v).
Qed.

Lemma unresolvedAliases_aliasesOf (ord : rangeOrder) sts :
  unresolvedAliases ord sts = aliasesOf ord sts.
Proof.
  unfold unresolvedAliases, aliasesOf.
  rewrite (forExpressionNodes_map _ id (λ unresolved e, unresolved ++ nodeAliases ord e)).
  - simpl. by rewrite (foldl_append_bind (λ st, nodeAliases ord (extractExpressionNode st))).
  - intros [n|v] s0; simpl.
    + f_equal.
      rewrite (foldl_append_bind (λ kv : string * Value, valueGetAliases kv.2)).
      by rewrite bind_valueGetAliases.
    + by rewrite valueGetAliases_valueAlias.
Qed.

Lemma valueAlias_Some v a : valueAlias v = Some a ↔ v = AliasValue a.
Proof. destruct v; simpl; split; congruence. Qed.

Lemma elem_of_nodeAliases (ord : rangeOrder) e a : a ∈ nodeAliases ord e ↔ hasAlias e a.
Proof.
  destruct e as [n|v]; simpl.
  - rewrite list_elem_of_omap. split.
    + intros ([k v] & Hkv%elem_of_range & Hv%valueAlias_Some). simpl in *. subst. by exists k.
    + intros [k Hk]. exists (k, AliasValue a). split; [by apply elem_of_range|done].
  - destruct v as [c|h cands|r|a'|c]; simpl;
      try (split; [by intros ?%elem_of_nil|done]).
    rewrite list_elem_of_singleton. split; congruence.
Qed.

Lemma elem_of_aliasesOf (ord : rangeOrder) sts a :
  a ∈ aliasesOf ord sts ↔ ∃ st, st ∈ sts ∧ hasAlias (extractExpressionNode st) a.
Proof.
  unfold aliasesOf. rewrite list_elem_of_bind. split.
  - intros (st & Ha%elem_of_nodeAliases & Hst). by exists st.
  - intros (st & Hst & Ha). exists st. split; [by apply elem_of_nodeAliases|done].
Qed.

Lemma nodeAliases_order (ord ord' : rangeOrder) e : nodeAliases ord' e ≡ₚ nodeAliases ord e.
Proof.
  destruct e as [n|v]; [|done]. simpl. unfold range.
  by rewrite (order_perm ord), (order_perm ord').
Qed.

Lemma aliasesOf_order (ord ord' : rangeOrder) sts : aliasesOf ord' sts ≡ₚ aliasesOf ord sts.
Proof.
  unfold aliasesOf. induction sts as [|st sts IH]; [done|].
  rewrite !bind_cons. by rewrite IH, (nodeAliases_order ord ord').
Qed.

Lemma failOnUnresolvedAlias_aliasesOf (ord : rangeOrder) (tpl : Template) cenv :
  failOnUnresolvedAliasPass ord tpl cenv
  = Done (tpl, cenv,
          match aliasesOf ord (Statements tpl) with
          | [] => None
          | unresolved =>
              Some ("template contains unresolved alias: " +:+ showSlice unresolved)
          end).
Proof.
  unfold failOnUnresolvedAliasPass. rewrite unresolvedAliases_aliasesOf.
  by destruct (aliasesOf ord (Statements tpl)).
Qed.

(** X17.  [failOnUnresolvedAlias] succeeds exactly when no expression node of
    the template has an alias.  Otherwise it fails with
    "template contains unresolved alias: [...]", where the list holds every
    alias of the template, once for each place it stands at: the nodes in
    statement order, the parameters of a command node as the map
    enumerates them.  Two runs that enumerate maps differently list the
    same aliases, possibly in another order.  The template and the
    environment are returned as given. *)
Theorem failOnUnresolvedAlias_lists_every_alias (ord : rangeOrder) (tpl : Template) cenv :
  let unresolved := aliasesOf ord (Statements tpl) in
  failOnUnresolvedAliasPass ord tpl cenv
  = Done (tpl, cenv,
          match unresolved with
          | [] => None
          | _ => Some ("template contains unresolved alias: " +:+ showSlice unresolved)
          end)
  ∧ (∀ a, a ∈ unresolved
          ↔ ∃ st, st ∈ Statements tpl ∧ hasAlias (extractExpressionNode st) a)
  ∧ (failOnUnresolvedAliasPass ord tpl cenv = Done (tpl, cenv, None)
     ↔ ∀ st a, st ∈ Statements tpl → ¬ hasAlias (extractExpressionNode st) a)
  ∧ (∀ ord' : rangeOrder, aliasesOf ord' (Statements tpl) ≡ₚ unresolved).
Proof.
  intros unresolved.
  split; [rewrite failOnUnresolvedAlias_aliasesOf; fold unresolved; by destruct unresolved|].
  split; [intros a; apply elem_of_aliasesOf|].
  split; [|intros ord'; apply aliasesOf_order].
  rewrite failOnUnresolvedAlias_aliasesOf. fold unresolved. split.
  - intros Hok st a Hst Ha.
    assert (a ∈ unresolved) as Hin by (apply elem_of_aliasesOf; by exists st).
    destruct unresolved; [by apply elem_of_nil in Hin|done].
  - intros Hnone. destruct unresolved as [|a l] eqn:Hl; [done|].
    assert (a ∈ aliasesOf ord (Statements tpl)) as (st & Hst & Ha)%elem_of_aliasesOf.
    { fold unresolved. rewrite Hl. by left. }
    by destruct (Hnone st a Hst).
Qed.

(** **** resolveAlias *)

Lemma setParam_same n k v : Params n !! k = Some v → setParam n k v = n.
Proof.
  intros Hk. apply commandNode_eq; [done|done| |done]. simpl. by apply insert_id.
Qed.

Lemma resolveAliasNode_no_resolver (ord : rangeOrder) cenv e (s : list string * list string) :
  AliasFunc cenv = None → resolveAliasNode ord cenv e s = (e, s).
Proof.
  intros Hnone.
  assert (∀ entity key v, valueResolveAlias (resolvAliasFunc cenv entity key) v s = (v, s))
    as Hvalue.
  { intros entity key [c|h cands|r|a|c]; try done. simpl.
    unfold resolvAliasFunc. by rewrite Hnone. }
  destruct e as [n|v]; simpl; [|by rewrite Hvalue].
  assert (∀ l : list (string * Value),
            (∀ k v, (k, v) ∈ l → Params n !! k = Some v) →
            foldl (λ acc kv,
                     let '(v', s1) :=
                       valueResolveAlias (resolvAliasFunc cenv (Entity n) kv.1) kv.2 acc.2 in
                     (setParam acc.1 kv.1 v', s1))
                  (n, s) l = (n, s)) as Hfold.
  { intros l. induction l as [|[k v] l IH] using rev_ind; intros Hl; [done|].
    rewrite foldl_app, IH by (intros k' v' Hin; apply Hl, elem_of_app; by left).
    simpl. rewrite Hvalue. rewrite setParam_same; [done|].
    apply Hl, elem_of_app. right. by left. }
  rewrite Hfold; [done|]. intros k v. apply elem_of_range.
Qed.

Lemma fmap_setExpressionNode_same sts :
  (λ st, setExpressionNode st (id (extractExpressionNode st))) <$> sts = sts.
Proof.
  induction sts as [|st sts IH]; [done|]. rewrite fmap_cons, IH. f_equal.
  unfold setExpressionNode, extractExpressionNode. by destruct st as [[ident e|e]].
Qed.

Lemma resolveAlias_no_resolver (ord : rangeOrder) (tpl : Template) cenv :
  AliasFunc cenv = None → resolveAliasPass ord tpl cenv = Done (tpl, cenv, None).
Proof.
  intros Hnone. unfold resolveAliasPass.
  rewrite (forExpressionNodes_map _ id (λ s _, s))
    by (intros e s0; by apply resolveAliasNode_no_resolver).
  rewrite fmap_setExpressionNode_same.
  assert (∀ s : list string * list string,
            foldl (λ s0 (_ : Statement), s0) s (Statements tpl) = s) as ->.
  { intros s. by induction (Statements tpl). }
  by destruct tpl, cenv.
Qed.

(** X18.  Without an alias resolver in the environment, [resolveAlias] does
    nothing and reports nothing: every alias stays in the template, which
    is returned unchanged with the environment, and the error is nil.  The
    aliases are then caught by [failOnUnresolvedAlias], which fails on the
    template exactly when it has an alias. *)
Theorem resolveAlias_without_resolver (ord : rangeOrder) (tpl : Template) cenv
    (Hnone : AliasFunc cenv = None) :
  resolveAliasPass ord tpl cenv = Done (tpl, cenv, None)
  ∧ compile ord [resolveAliasPass; failOnUnresolvedAliasPass] tpl cenv
    = failOnUnresolvedAliasPass ord tpl cenv
  ∧ (compile ord [resolveAliasPass; failOnUnresolvedAliasPass] tpl cenv
     = Done (tpl, cenv, None)
     ↔ ∀ st a, st ∈ Statements tpl → ¬ hasAlias (extractExpressionNode st) a).
Proof.
  pose proof (resolveAlias_no_resolver ord tpl cenv Hnone) as Hpass.
  assert (compile ord [resolveAliasPass; failOnUnresolvedAliasPass] tpl cenv
          = failOnUnresolvedAliasPass ord tpl cenv) as Hboth.
  { cbn [compile]. rewrite Hpass. simpl.
    by destruct (failOnUnresolvedAliasPass ord tpl cenv) as [[[t c] [msg|]]|msg]. }
  split; [done|]. split; [done|]. rewrite Hboth, failOnUnresolvedAlias_aliasesOf. split.
  - intros Hok st a Hst Ha.
    assert (a ∈ aliasesOf ord (Statements tpl)) as Hin
      by (apply elem_of_aliasesOf; by exists st).
    destruct (aliasesOf ord (Statements tpl)); [by apply elem_of_nil in Hin|done].
  - intros Hnone'. destruct (aliasesOf ord (Statements tpl)) as [|a l] eqn:Hl; [done|].
    assert (a ∈ aliasesOf ord (Statements tpl)) as (st & Hst & Ha)%elem_of_aliasesOf
      by (rewrite Hl; by left).
    by destruct (Hnone' st a Hst).
Qed.

(** The loop of [resolveAlias] over the parameters of a command node, from
    any node and any state. *)
Lemma resolveAlias_fold cenv resolve (entity : string) (l : list (string * Value)) n0
    (s0 : list string * list string) :
  AliasFunc cenv = Some resolve → NoDup l.*1 →
  let r := foldl (λ acc kv,
                    let '(v', s1) :=
                      valueResolveAlias (resolvAliasFunc cenv entity kv.1) kv.2 acc.2 in
                    (setParam acc.1 kv.1 v', s1))
                 (n0, s0) l in
  Action r.1 = Action n0 ∧ Entity r.1 = Entity n0 ∧ Command r.1 = Command n0
  ∧ (∀ k, Params r.1 !! k
          = match list_to_map (M := gmap string Value) l !! k with
            | Some v => Some (resolveAliasValue resolve entity k v)
            | None => Params n0 !! k
            end)
  ∧ r.2 = (s0.1 ++ omap (emptyAlias resolve entity) l,
           s0.2 ++ omap (loggedAlias resolve entity) l).
Proof.
  intros Hresolve Hnd r. unfold r. clear r.
  induction l as [|[k0 v0] l IH] using rev_ind.
  - simpl. rewrite !app_nil_r. by destruct s0.
  - rewrite fmap_app in Hnd. apply NoDup_app in Hnd as (Hnd & Hnew & _).
    destruct (IH Hnd) as (Ha & He & Hc & Hp & Hs). clear IH.
    rewrite foldl_app. cbn [foldl]. rewrite Hs. rewrite !omap_app. cbn [fst snd].
    assert (valueResolveAlias (resolvAliasFunc cenv entity k0) v0
              (s0.1 ++ omap (emptyAlias resolve entity) l,
               s0.2 ++ omap (loggedAlias resolve entity) l)
            = (resolveAliasValue resolve entity k0 v0,
               ((s0.1 ++ omap (emptyAlias resolve entity) l)
                  ++ omap (emptyAlias resolve entity) [(k0, v0)],
                (s0.2 ++ omap (loggedAlias resolve entity) l)
                  ++ omap (loggedAlias resolve entity) [(k0, v0)]))) as ->.
    { destruct v0 as [c|h cands|r|a|c]; simpl; rewrite ?app_nil_r; try done.
      unfold resolvAliasFunc, emptyAlias, loggedAlias. rewrite Hresolve. simpl.
      case_bool_decide; simpl; by rewrite ?app_nil_r. }
    cbn [fst snd]. rewrite <-!app_assoc.
    split; [done|]. split; [done|]. split; [done|]. split; [|done].
    intros k. simpl. destruct (decide (k0 = k)) as [->|Hne].
    + rewrite lookup_insert_eq.
      rewrite (elem_of_list_to_map_1 (l ++ [(k, v0)]) k v0); [done| |].
      * rewrite fmap_app. apply NoDup_app. split; [done|]. split; [done|].
        apply NoDup_singleton.
      * apply elem_of_app. right. by left.
    + rewrite lookup_insert_ne, Hp by done.
      assert (list_to_map (M := gmap string Value) (l ++ [(k0, v0)]) !! k
              = list_to_map (M := gmap string Value) l !! k) as ->; [|done].
      rewrite list_to_map_app, lookup_union. simpl.
      rewrite lookup_insert_ne, lookup_empty by done.
      by destruct (list_to_map l !! k).
Qed.

Lemma resolveAliasNode_resolver (ord : rangeOrder) cenv resolve e
    (s : list string * list string) :
  AliasFunc cenv = Some resolve →
  resolveAliasNode ord cenv e s
  = (resolveAliasExpression resolve e,
     (s.1 ++ omap (emptyAlias resolve (aliasEntries ord e).1) (aliasEntries ord e).2,
      s.2 ++ omap (loggedAlias resolve (aliasEntries ord e).1) (aliasEntries ord e).2)).
Proof.
  intros Hresolve. destruct e as [n|v]; cbn [resolveAliasNode aliasEntries fst snd].
  - destruct (resolveAlias_fold cenv resolve (Entity n) (range ord (Params n)) n s Hresolve
                (NoDup_range_keys ord (Params n))) as (Ha & He & Hc & Hp & Hs).
    destruct (foldl _ (n, s) (range ord (Params n))) as [n' s'].
    cbn [fst snd] in *. subst s'. f_equal. simpl. f_equal.
    apply commandNode_eq; [done|done| |done]. simpl. apply map_eq. intros k.
    rewrite Hp, list_to_map_range, map_lookup_imap. by destruct (Params n !! k).
  - destruct v as [c|h cands|r|a|c]; simpl; rewrite ?app_nil_r; try (by destruct s).
    unfold resolvAliasFunc, emptyAlias, loggedAlias. rewrite Hresolve. simpl.
    case_bool_decide; simpl; by rewrite ?app_nil_r; destruct s.
Qed.

Lemma foldl_pair_append (E L : Statement → list string) sts (s : list string * list string) :
  foldl (λ s0 st, (s0.1 ++ E st, s0.2 ++ L st)) s sts
  = (s.1 ++ (sts ≫= E), s.2 ++ (sts ≫= L)).
Proof.
  revert s. induction sts as [|st sts IH]; intros s.
  - simpl. rewrite !app_nil_r. by destruct s.
  - cbn [foldl]. rewrite IH, !bind_cons. cbn [fst snd]. by rewrite <-!app_assoc.
Qed.

Lemma resolveAlias_resolver (ord : rangeOrder) (tpl : Template) cenv resolve :
  AliasFunc cenv = Some resolve →
  resolveAliasPass ord tpl cenv
  = Done ({| ID := ID tpl;
             Statements := resolveAliasStatement resolve <$> Statements tpl |},
          setLog (log cenv ++ loggedOf ord resolve (Statements tpl)) cenv,
          match emptyResolvOf ord resolve (Statements tpl) with
          | [] => None
          | emptyResolv =>
              Some ("cannot resolve aliases: " +:+ quoteSlice emptyResolv
                      +:+ ". Maybe you need to update your local model with `awless sync` ?")
          end).
Proof.
  intros Hresolve. unfold resolveAliasPass.
  rewrite (forExpressionNodes_map _ (resolveAliasExpression resolve)
             (λ s e, (s.1 ++ omap (emptyAlias resolve (aliasEntries ord e).1)
                                  (aliasEntries ord e).2,
                      s.2 ++ omap (loggedAlias resolve (aliasEntries ord e).1)
                                  (aliasEntries ord e).2)))
    by (intros e s0; by apply resolveAliasNode_resolver).
  rewrite (foldl_pair_append
             (λ st, omap (emptyAlias resolve (aliasEntries ord (extractExpressionNode st)).1)
                         (aliasEntries ord (extractExpressionNode st)).2)
             (λ st, omap (loggedAlias resolve (aliasEntries ord (extractExpressionNode st)).1)
                         (aliasEntries ord (extractExpressionNode st)).2)).
  cbn [fst snd app]. fold (emptyResolvOf ord resolve (Statements tpl)).
  fold (loggedOf ord resolve (Statements tpl)).
  by destruct (emptyResolvOf ord resolve (Statements tpl)).
Qed.

Lemma resolveAliasValue_alias resolve (entity key : string) v a :
  resolveAliasValue resolve entity key v = AliasValue a
  ↔ v = AliasValue a ∧ resolve entity key a = EmptyString.
Proof.
  destruct v as [c|h cands|r|a'|c]; simpl; try (split; [done|by intros [? _]]).
  case_bool_decide as Hempty.
  - split; [by intros [= ->]|by intros [? _]].
  - split; [done|]. intros [[= ->] ?]. done.
Qed.

Lemma emptyAlias_Some resolve (entity : string) (kv : string * Value) a :
  emptyAlias resolve entity kv = Some a
  ↔ kv.2 = AliasValue a ∧ resolve entity kv.1 a = EmptyString.
Proof.
  unfold emptyAlias. destruct kv.2 as [c|h cands|r|a'|c]; try (split; [done|by intros [? _]]).
  case_bool_decide as Hempty.
  - split; [by intros [= ->]|]. by intros [[= ->] _].
  - split; [done|]. intros [[= ->] ?]. done.
Qed.

(** The aliases the pass could not resolve are the aliases it leaves. *)
Lemma emptyResolv_left_in_node (ord ord' : rangeOrder) resolve e a :
  a ∈ omap (emptyAlias resolve (aliasEntries ord e).1) (aliasEntries ord e).2
  ↔ a ∈ nodeAliases ord' (resolveAliasExpression resolve e).
Proof.
  rewrite elem_of_nodeAliases, list_elem_of_omap. destruct e as [n|v]; simpl.
  - split.
    + intros ([k v] & Hkv%elem_of_range & [Hv Hempty]%emptyAlias_Some). simpl in *. subst.
      exists k. rewrite map_lookup_imap, Hkv. simpl. f_equal.
      by apply (proj2 (resolveAliasValue_alias resolve (Entity n) k (AliasValue a) a)).
    + intros [k Hk]. rewrite map_lookup_imap in Hk.
      destruct (Params n !! k) as [v|] eqn:Hn; [|done]. simpl in Hk.
      injection Hk as Hv. apply resolveAliasValue_alias in Hv as [-> Hempty].
      exists (k, AliasValue a). split; [by apply elem_of_range|]. by apply emptyAlias_Some.
  - split.
    + intros ([k v'] & Hin%list_elem_of_singleton & [Hv Hempty]%emptyAlias_Some).
      simplify_eq/=.
      by apply (proj2 (resolveAliasValue_alias resolve EmptyString EmptyString
                         (AliasValue a) a)).
    + intros [-> Hempty]%resolveAliasValue_alias. exists (EmptyString, AliasValue a).
      split; [by left|]. by apply emptyAlias_Some.
Qed.

Lemma emptyResolv_left (ord ord' : rangeOrder) resolve sts a :
  a ∈ emptyResolvOf ord resolve sts
  ↔ a ∈ aliasesOf ord' (resolveAliasStatement resolve <$> sts).
Proof.
  unfold emptyResolvOf, aliasesOf. rewrite !list_elem_of_bind. split.
  - intros (st & Ha & Hst). exists (resolveAliasStatement resolve st). split.
    + unfold resolveAliasStatement. rewrite extract_setExpressionNode.
      by apply (emptyResolv_left_in_node ord ord').
    + apply list_elem_of_fmap. by exists st.
  - intros (st' & Ha & (st & -> & Hst)%list_elem_of_fmap). exists st. split; [|done].
    unfold resolveAliasStatement in Ha. rewrite extract_setExpressionNode in Ha.
    by apply (emptyResolv_left_in_node ord ord').
Qed.



(** X20.  A template that [resolveAlias] returned without an error, with a
    resolver in the environment, has no alias left: [failOnUnresolvedAlias]
    accepts it, under every enumeration order of maps.  And when
    [resolveAlias] failed, [failOnUnresolvedAlias] would fail on the
    template it returned. *)
Theorem resolveAlias_then_failOnUnresolvedAlias (ord ord' : rangeOrder)
    (tpl tpl' : Template) cenv cenv' (err : error)
    (resolve : string → string → string → string)
    (Hresolver : AliasFunc cenv = Some resolve)
    (Hreturns : resolveAliasPass ord tpl cenv = Done (tpl', cenv', err)) :
  (err = None ↔ failOnUnresolvedAliasPass ord' tpl' cenv' = Done (tpl', cenv', None))
  ∧ (err = None ↔ ∀ st a, st ∈ Statements tpl' → ¬ hasAlias (extractExpressionNode st) a).
Proof.
  rewrite (resolveAlias_resolver ord tpl cenv resolve Hresolver) in Hreturns.
  injection Hreturns as Htpl Hcenv Herr. subst tpl' cenv'.
  rewrite failOnUnresolvedAlias_aliasesOf. cbn [Statements].
  pose proof (emptyResolv_left ord ord' resolve (Statements tpl)) as Hleft.
  assert (err = None ↔ emptyResolvOf ord resolve (Statements tpl) = []) as Herr'.
  { rewrite <-Herr. by destruct (emptyResolvOf ord resolve (Statements tpl)). }
  assert (emptyResolvOf ord resolve (Statements tpl) = []
          ↔ aliasesOf ord' (resolveAliasStatement resolve <$> Statements tpl) = []) as Hnil.
  { split; intros Hnil.
    - destruct (aliasesOf ord' _) as [|a l] eqn:Hl; [done|].
      assert (a ∈ emptyResolvOf ord resolve (Statements tpl)) as Hin
        by (apply Hleft; by left).
      rewrite Hnil in Hin. by apply elem_of_nil in Hin.
    - destruct (emptyResolvOf ord resolve (Statements tpl)) as [|a l] eqn:Hl; [done|].
      assert (a ∈ aliasesOf ord' (resolveAliasStatement resolve <$> Statements tpl)) as Hin
        by (apply Hleft; by left).
      rewrite Hnil in Hin. by apply elem_of_nil in Hin. }
  split.
  - rewrite Herr', Hnil.
    by destruct (aliasesOf ord' (resolveAliasStatement resolve <$> Statements tpl)).
  - rewrite Herr', Hnil. split.
    + intros Hno st a Hst Ha.
      assert (a ∈ aliasesOf ord' (resolveAliasStatement resolve <$> Statements tpl)) as Hin
        by (apply elem_of_aliasesOf; by exists st).
      rewrite Hno in Hin. by apply elem_of_nil in Hin.
    + intros Hno.
      destruct (aliasesOf ord' (resolveAliasStatement resolve <$> Statements tpl))
        as [|a l] eqn:Hl; [done|].
      assert (a ∈ aliasesOf ord' (resolveAliasStatement resolve <$> Statements tpl))
        as (st & Hst & Ha)%elem_of_aliasesOf by (rewrite Hl; by left).
      by destruct (Hno st a Hst).
Qed.

End Alias.

End AliasPassProps.

Module ReplaceNodeProps.

Import Template Spec.

Section ReplaceNode.

Implicit Types (sts : list Statement) (st : Statement) (isNode : Statement → bool)
  (t : Template).

Lemma findNodeIndex_snoc isNode sts st :
  findNodeIndex isNode (sts ++ [st])
  = if isNode st then Z.of_nat (length sts) else findNodeIndex isNode sts.
Proof.
  unfold findNodeIndex. rewrite length_app. simpl. rewrite seq_app. simpl.
  rewrite zip_with_app by (by rewrite length_seq). by rewrite foldl_app.
Qed.

(** What the loop finds: -1 when no statement holds the node, and
    otherwise the index of the last statement that holds it. *)
Lemma findNodeIndex_spec isNode sts :
  ((∀ st, st ∈ sts → isNode st = false) ∧ findNodeIndex isNode sts = (-1)%Z)
  ∨ ∃ i st, sts !! i = Some st ∧ isNode st = true
            ∧ (∀ j st', i < j → sts !! j = Some st' → isNode st' = false)
            ∧ findNodeIndex isNode sts = Z.of_nat i.
Proof.
  induction sts as [|st sts IH] using rev_ind.
  - left. split; [|done]. intros st Hst. by apply elem_of_nil in Hst.
  - rewrite findNodeIndex_snoc. destruct (isNode st) eqn:Hst.
    + right. exists (length sts), st. split; [by apply list_lookup_middle|].
      split; [done|]. split; [|done]. intros j st' Hj Hst'.
      apply lookup_lt_Some in Hst'. rewrite length_app in Hst'. simpl in Hst'. lia.
    + destruct IH as [[Hnone Hidx]|(i & st0 & Hi & Hnode & Hlast & Hidx)].
      * left. split; [|done].
        intros st' [Hin|Hin%list_elem_of_singleton]%elem_of_app; [by apply Hnone|by subst].
      * right. exists i, st0. split; [by apply lookup_app_l_Some|]. split; [done|].
        split; [|done]. intros j st' Hj Hst'.
        destruct (decide (j < length sts)) as [Hlt|Hge].
        -- rewrite lookup_app_l in Hst' by done. by apply (Hlast j).
        -- apply lookup_lt_Some in Hst' as Hlen. rewrite length_app in Hlen. simpl in Hlen.
           assert (j = length sts) as -> by lia.
           rewrite list_lookup_middle in Hst' by done. by simplify_eq.
Qed.

(** X21.  [ReplaceNodeByTemplate] puts the statements of the other template
    in the place of the statement that holds the node; every other
    statement stays, in its order.  When several statements hold the node
    it is the last of them that is replaced.  When no statement holds the
    node the template is left as it is and the error is
    "node '<n>' not found". *)
Theorem ReplaceNodeByTemplate_replaces_last_match isNode (shown : string)
    t (tplToReplace : Template) :
  ((∀ st, st ∈ Statements t → isNode st = false) →
     ReplaceNodeByTemplate isNode shown t tplToReplace
     = (t, Some ("node '" +:+ shown +:+ "' not found")))
  ∧ (∀ i st,
       Statements t !! i = Some st → isNode st = true →
       (∀ j st', i < j → Statements t !! j = Some st' → isNode st' = false) →
       ReplaceNodeByTemplate isNode shown t tplToReplace
       = ({| ID := ID t;
             Statements := take i (Statements t) ++ Statements tplToReplace
                             ++ drop (S i) (Statements t) |},
          None)
       ∧ length (take i (Statements t) ++ Statements tplToReplace
                   ++ drop (S i) (Statements t)) + 1
         = length (Statements t) + length (Statements tplToReplace))
  ∧ ((ReplaceNodeByTemplate isNode shown t tplToReplace).2 = None
     ↔ ∃ st, st ∈ Statements t ∧ isNode st = true).
Proof.
  unfold ReplaceNodeByTemplate.
  destruct (findNodeIndex_spec isNode (Statements t))
    as [[Hnone Hidx]|(i & st & Hi & Hnode & Hlast & Hidx)]; rewrite Hidx.
  - rewrite bool_decide_true by done. split; [done|]. split.
    + intros i st Hi Hnode. rewrite Hnone in Hnode; [done|]. by eapply list_elem_of_lookup_2.
    + simpl. split; [done|]. intros (st & Hst & Hnode). by rewrite Hnone in Hnode.
  - rewrite bool_decide_false by lia.
    replace (Z.to_nat (Z.of_nat i)) with i by lia.
    replace (Z.to_nat (Z.of_nat i + 1)) with (S i) by lia.
    split; [|split].
    + intros Hnone. rewrite Hnone in Hnode; [done|]. by eapply list_elem_of_lookup_2.
    + intros i' st' Hi' Hnode' Hlast'.
      assert (i' = i) as ->.
      { destruct (Nat.lt_trichotomy i i') as [Hlt|[Heq|Hgt]]; [|done|].
        - rewrite (Hlast i' st' Hlt Hi') in Hnode'. done.
        - rewrite (Hlast' i st Hgt Hi) in Hnode. done. }
      split; [by rewrite <-app_assoc|].
      apply lookup_lt_Some in Hi.
      rewrite !length_app, length_take, length_drop. lia.
    + simpl. split; [|done]. intros _. exists st. split; [|done].
      by eapply list_elem_of_lookup_2.
Qed.

End ReplaceNode.

End ReplaceNodeProps.

Module CommandsProps.

Import Template Spec SpecPipeline SpecHoles SpecAlias SpecCommands.
Import VisitProps ParamsProps InlineProps PipelineProps HolesProps AliasPassProps.

Section Commands.

Context {W : Type}.

Implicit Types (sts : list Statement) (st : Statement) (n : CommandNode)
  (e : ExpressionNode) (tpl : Template) (cenv : compileEnv W).

Lemma commandNames_cons st sts :
  commandNames (st :: sts)
  = match exprName (extractExpressionNode st) with
    | Some name => name :: commandNames sts
    | None => commandNames sts
    end.
Proof. done. Qed.

(** Statements changed one by one, each keeping the name of its command:
    the names are the same. *)
Lemma commandNames_Forall2 sts sts' :
  Forall2 (λ st st', exprName (extractExpressionNode st')
                     = exprName (extractExpressionNode st)) sts sts' →
  commandNames sts' = commandNames sts.
Proof.
  induction 1 as [|st st' sts sts' Hst _ IH]; [done|].
  by rewrite !commandNames_cons, Hst, IH.
Qed.

Lemma commandNames_fmap (g : Statement → Statement) sts :
  (∀ st, exprName (extractExpressionNode (g st)) = exprName (extractExpressionNode st)) →
  commandNames (g <$> sts) = commandNames sts.
Proof.
  intros Hg. apply commandNames_Forall2. apply Forall2_fmap_r, Forall_Forall2_diag.
  apply Forall_forall. intros st _. apply Hg.
Qed.

Lemma commandNames_relStatement (R : CommandNode → CommandNode → Prop) sts sts' :
  (∀ n n', R n n' → Action n' = Action n ∧ Entity n' = Entity n) →
  Forall2 (relStatement R) sts sts' → commandNames sts' = commandNames sts.
Proof.
  intros HR Hall. apply commandNames_Forall2.
  eapply Forall2_impl; [exact Hall|]. intros st st'. unfold relStatement, commandNodeOf.
  destruct (extractExpressionNode st) as [n|v] eqn:Hst.
  - intros (n' & Hn' & ->). rewrite extract_setExpressionNode. simpl.
    destruct (HR n n' Hn') as [-> ->]. done.
  - intros ->. by rewrite Hst.
Qed.

(** **** The passes, one by one *)

Lemma keeps_verifyCommandsDefined : keepsCommands (W := W) verifyCommandsDefinedPass.
Proof.
  intros ord tpl tpl' cenv cenv' err. unfold verifyCommandsDefinedPass.
  destruct (LookupCommandFunc cenv) eqn:Hlk; [|by intros [= <- <- _]].
  destruct (verifyDefined cenv (CommandNodesIterator tpl)); [|done].
  by intros [= <- <- _].
Qed.

Lemma keeps_failOnDeclarationWithNoResult :
  keepsCommands (W := W) failOnDeclarationWithNoResultPass.
Proof.
  intros ord tpl tpl' cenv cenv' err. unfold failOnDeclarationWithNoResultPass.
  destruct (forDeclarations cenv (declarationNodesIterator tpl)); [|done].
  by intros [= <- <- _].
Qed.

Lemma keeps_processAndValidateParams : keepsCommands (W := W) processAndValidateParamsPass.
Proof.
  intros ord tpl tpl' cenv cenv' err. unfold processAndValidateParamsPass, visitCommandNodesE.
  destruct (forCommandNodes _ (Statements tpl) tt) as [[[sts' []] e]|msg] eqn:Hloop; [|done].
  intros [= <- <- _]. split; [|done]. cbn [Statements].
  apply (commandNames_relStatement
           (λ n n', Action n' = Action n ∧ Entity n' = Entity n)); [done|].
  eapply forCommandNodes_Done_related; [| |exact Hloop]; [done|].
  intros n [] n' [] e0. unfold normalizeMissingRequiredParamsAsHoleAndValidate, lookupCommand.
  destruct (LookupCommandFunc cenv) as [lookup|] eqn:Hlk; [|done]. simpl.
  destruct (lookup (Action n +:+ Entity n)) as [cmd|]; [|by intros [= <- _]].
  destruct (cmdParams cmd) as [rule|]; [|by intros [= <- _]].
  fold (withHoles n (Missing rule (Keys ord n))).
  destruct (withHoles_spec n (Missing rule (Keys ord n))) as (Ha & He & _).
  destruct (Validate rule _); by intros [= <- _].
Qed.

Lemma keeps_checkInvalidReferenceDeclarations :
  keepsCommands (W := W) checkInvalidReferenceDeclarationsPass.
Proof.
  intros ord tpl tpl' cenv cenv' err. unfold checkInvalidReferenceDeclarationsPass.
  by intros [= <- <- _].
Qed.

Lemma exprName_fill fills e : exprName (fillExpression fills e) = exprName e.
Proof. by destruct e. Qed.

Lemma keeps_fillStatement fills sts :
  commandNames (fillStatement fills <$> sts) = commandNames sts.
Proof.
  apply commandNames_fmap. intros st. unfold fillStatement.
  by rewrite extract_setExpressionNode, exprName_fill.
Qed.

Lemma keeps_resolveHoles : keepsCommands (W := W) resolveHolesPass.
Proof.
  intros ord tpl tpl' cenv cenv' err. unfold resolveHolesPass.
  rewrite (visitHoles_fill ord Fillers (Fillers cenv)) by done.
  intros [= <- <- _]. split; [|done]. apply keeps_fillStatement.
Qed.

Lemma keeps_resolveMissingHoles : keepsCommands (W := W) resolveMissingHolesPass.
Proof.
  intros ord tpl tpl' cenv cenv' err. unfold resolveMissingHolesPass.
  destruct (askMissingHoles cenv _ _) as [fillers w].
  rewrite (visitHoles_fill ord (λ _, fillers) fillers) by done.
  intros [= <- <- _]. split; [|done]. apply keeps_fillStatement.
Qed.

Lemma keeps_resolveAlias : keepsCommands (W := W) resolveAliasPass.
Proof.
  intros ord tpl tpl' cenv cenv' err.
  destruct (AliasFunc cenv) as [resolve|] eqn:Hresolve.
  - rewrite (resolveAlias_resolver ord tpl cenv resolve Hresolve).
    intros [= <- <- _]. split; [|done]. cbn [Statements].
    apply commandNames_fmap. intros st. unfold resolveAliasStatement.
    rewrite extract_setExpressionNode. by destruct (extractExpressionNode st).
  - rewrite (resolveAlias_no_resolver ord tpl cenv Hresolve). by intros [= <- <- _].
Qed.

Lemma exprName_applyDecl (d : Statement) st :
  exprName (extractExpressionNode (applyDecl d st)) = exprName (extractExpressionNode st).
Proof.
  unfold applyDecl. destruct (node d) as [ident [n|value]|e]; try done.
  rewrite extract_setExpressionNode. by destruct (extractExpressionNode st).
Qed.

Lemma exprName_foldl_applyDecl (l : list Statement) st :
  exprName (extractExpressionNode (foldl (λ s d, applyDecl d s) st l))
  = exprName (extractExpressionNode st).
Proof.
  revert st. induction l as [|d l IH]; intros st; [done|]. simpl.
  by rewrite IH, exprName_applyDecl.
Qed.

Lemma commandNames_found sts : commandNames (found sts) = commandNames sts.
Proof.
  apply commandNames_Forall2. apply Forall2_same_length_lookup_2.
  - by rewrite length_found.
  - intros i st st' Hst Hst'. rewrite (found_lookup sts i st Hst) in Hst'.
    simplify_eq. apply exprName_foldl_applyDecl.
Qed.

Lemma commandNames_kept (l : list Statement) : commandNames (kept l) = commandNames l.
Proof.
  unfold kept. induction l as [|st l IH]; [done|]. rewrite filter_cons.
  case_decide as Hst.
  - by rewrite !commandNames_cons, IH.
  - rewrite commandNames_cons, IH. unfold isResolvedValueDecl, extractExpressionNode in *.
    by destruct (node st) as [ident [n|value]|e].
Qed.

Lemma keeps_inlineVariableValue : keepsCommands (W := W) inlineVariableValuePass.
Proof.
  intros ord tpl tpl' cenv cenv' err. rewrite inlineVariableValuePass_found.
  intros [= <- <- _]. cbn [Statements ID].
  split; [by rewrite commandNames_kept, commandNames_found|]. split; [done|].
  apply recordAll_other.
Qed.

Lemma keeps_failOnUnresolvedHoles : keepsCommands (W := W) failOnUnresolvedHolesPass.
Proof.
  intros ord tpl tpl' cenv cenv' err. rewrite failOnUnresolvedHoles_sorted.
  by intros [= <- <- _].
Qed.

Lemma keeps_failOnUnresolvedAlias : keepsCommands (W := W) failOnUnresolvedAliasPass.
Proof.
  intros ord tpl tpl' cenv cenv' err. rewrite failOnUnresolvedAlias_aliasesOf.
  by intros [= <- <- _].
Qed.

Lemma keeps_validateCommands : keepsCommands (W := W) validateCommandsPass.
Proof.
  intros ord tpl tpl' cenv cenv' err. unfold validateCommandsPass.
  destruct (forCommandNodes _ (Statements tpl) []) as [[[sts' errs] e]|msg]; [|done].
  simpl. destruct e as [msg|]; [by intros [= <- <- _]|].
  destruct errs as [|e1 [|e2 errs]]; by intros [= <- <- _].
Qed.

Lemma keeps_injectCommands : keepsCommands (W := W) injectCommandsPass.
Proof.
  intros ord tpl tpl' cenv cenv' err. unfold injectCommandsPass.
  destruct (forCommandNodes _ (Statements tpl) tt) as [[[sts' []] e]|msg] eqn:Hloop; [|done].
  intros [= <- <- _]. split; [|done]. cbn [Statements].
  apply (commandNames_relStatement
           (λ n n', Action n' = Action n ∧ Entity n' = Entity n)); [done|].
  eapply forCommandNodes_Done_related; [| |exact Hloop]; [done|].
  intros n [] n' [] e0. unfold lookupCommand.
  destruct (LookupCommandFunc cenv) as [lookup|] eqn:Hlk; [|done]. simpl.
  destruct (lookup (Action n +:+ Entity n)) as [c|]; [|done]. simpl.
  destruct (isCommand c); [|done]. simpl. by intros [= <- _].
Qed.

Lemma keeps_laterPasses (pass : compileFunc W) : pass ∈ laterPasses → keepsCommands pass.
Proof.
  unfold laterPasses. rewrite !elem_of_cons, elem_of_nil.
  intros [->|[->|[->|[->|[->|[->|[->|[->|[->|[->|[->|[->|[]]]]]]]]]]]]].
  - apply keeps_verifyCommandsDefined.
  - apply keeps_failOnDeclarationWithNoResult.
  - apply keeps_processAndValidateParams.
  - apply keeps_checkInvalidReferenceDeclarations.
  - apply keeps_resolveHoles.
  - apply keeps_resolveMissingHoles.
  - apply keeps_resolveAlias.
  - apply keeps_inlineVariableValue.
  - apply keeps_failOnUnresolvedHoles.
  - apply keeps_failOnUnresolvedAlias.
  - apply keeps_validateCommands.
  - apply keeps_injectCommands.
Qed.

Lemma compile_keeps (ord : rangeOrder) (mode : Mode W) tpl tpl' cenv cenv' (err : error) :
  (∀ pass, pass ∈ mode → keepsCommands pass) →
  compile ord mode tpl cenv = Done (tpl', cenv', err) →
  commandNames (Statements tpl') = commandNames (Statements tpl)
  ∧ ID tpl' = ID tpl
  ∧ LookupCommandFunc cenv' = LookupCommandFunc cenv.
Proof.
  revert tpl cenv. induction mode as [|pass mode IH]; intros tpl cenv Hmode Hrun.
  - simpl in Hrun. by simplify_eq.
  - cbn [compile] in Hrun.
    destruct (pass ord tpl cenv) as [[[tpl1 cenv1] e]|msg] eqn:Hpass; [|done].
    destruct (Hmode pass (list_elem_of_here _ _) ord tpl tpl1 cenv cenv1 e Hpass)
      as (Hnames & Hid & Hlk).
    simpl in Hrun. destruct e as [msg|].
    + simplify_eq. done.
    + destruct (IH tpl1 cenv1) as (Hnames' & Hid' & Hlk'); [|done|].
      * intros p Hp. apply Hmode. by right.
      * split; [congruence|]. split; congruence.
Qed.

Lemma commandKeys_commandNames sts :
  (λ n, Action n +:+ Entity n) <$> commandNodes sts
  = (λ name, name.1 +:+ name.2) <$> commandNames sts.
Proof.
  induction sts as [|st sts IH]; [done|].
  rewrite commandNodes_cons, commandNames_cons. unfold commandNodeOf.
  destruct (extractExpressionNode st) as [n|v]; [|exact IH].
  cbn [exprName]. by rewrite !fmap_cons, IH.
Qed.

(** X22.  The passes that follow [resolveMeta] neither add, remove, rename
    nor reorder a command: whenever a compilation made of them returns,
    with an error or without, the command nodes of the template it returns
    have the actions and entities of those of the template it was given,
    in the same order; the identifier of the template and the command
    lookup of the environment are the same too.  So a template that
    [verifyCommandsDefined] accepted is still accepted after any of these
    passes: what that pass checks at the head of the pipeline holds when
    [validateCommands] and [injectCommands] run at its end. *)
Theorem later_passes_keep_the_commands (ord : rangeOrder) (mode : Mode W)
    tpl tpl' cenv cenv' (err : error)
    (Hmode : ∀ pass, pass ∈ mode → pass ∈ laterPasses)
    (Hreturns : compile ord mode tpl cenv = Done (tpl', cenv', err)) :
  commandNames (Statements tpl') = commandNames (Statements tpl)
  ∧ ID tpl' = ID tpl
  ∧ LookupCommandFunc cenv' = LookupCommandFunc cenv
  ∧ (verifyCommandsDefinedPass ord tpl cenv = Done (tpl, cenv, None) →
       verifyCommandsDefinedPass ord tpl' cenv' = Done (tpl', cenv', None)).
Proof.
  destruct (compile_keeps ord mode tpl tpl' cenv cenv' err) as (Hnames & Hid & Hlk);
    [intros pass Hpass; by apply keeps_laterPasses, Hmode|done|].
  split; [done|]. split; [done|]. split; [done|].
  rewrite !verifyCommandsDefined_accepts. intros (lookup & Hlookup & Hall).
  exists lookup. split; [congruence|]. intros n' Hn'.
  assert (Action n' +:+ Entity n'
          ∈ (λ n, Action n +:+ Entity n) <$> commandNodes (Statements tpl)) as Hkey.
  { rewrite commandKeys_commandNames, <-Hnames, <-commandKeys_commandNames.
    apply list_elem_of_fmap. by exists n'. }
  apply list_elem_of_fmap in Hkey as (n & Hkey & Hn). rewrite Hkey. by apply Hall.
Qed.

End Commands.

End CommandsProps.

Module FinalProps.

Import Template Spec Examples SpecPipeline SpecHoles SpecAlias SpecCommands.
Import VisitProps CheckRefsProps PipelineProps HolesProps AliasPassProps CommandsProps.
Import RangeProps.

Section Final.

Context {W : Type}.

Implicit Types (sts : list Statement) (st : Statement) (n : CommandNode)
  (e : ExpressionNode) (tpl : Template) (cenv : compileEnv W).

Lemma validateCommands_returns_input (ord : rangeOrder) tpl tpl' cenv cenv' (err : error) :
  validateCommandsPass ord tpl cenv = Done (tpl', cenv', err) → tpl' = tpl ∧ cenv' = cenv.
Proof.
  unfold validateCommandsPass.
  destruct (forCommandNodes _ (Statements tpl) []) as [[[sts' errs] e]|msg]; [|done].
  simpl. destruct e as [msg|]; [by intros [= <- <- _]|].
  destruct errs as [|e1 [|e2 errs]]; by intros [= <- <- _].
Qed.

Lemma extract_mapCommandNode (g : CommandNode → CommandNode) st :
  extractExpressionNode (mapCommandNode g st)
  = match extractExpressionNode st with
    | ECommand n => ECommand (g n)
    | EValue v => EValue v
    end.
Proof.
  unfold mapCommandNode, commandNodeOf.
  destruct (extractExpressionNode st) as [n|v] eqn:Hst; [|by rewrite Hst].
  by rewrite extract_setExpressionNode.
Qed.

(** X23.  A compilation that ends with [failOnUnresolvedHoles],
    [failOnUnresolvedAlias], [validateCommands] and [injectCommands] (the
    end of the runner mode, but for [convertParams]) and returns no error
    returns a template in which no expression node has an open hole, none
    has an alias, and every command node is bound to an [ast.Command],
    whatever passes ran before. *)
Theorem final_passes_leave_no_hole_no_alias (ord : rangeOrder) (ps : Mode W)
    tpl tpl' cenv cenv'
    (Hreturns : compile ord (ps ++ [failOnUnresolvedHolesPass; failOnUnresolvedAliasPass;
                                    validateCommandsPass; injectCommandsPass]) tpl cenv
                = Done (tpl', cenv', None)) :
  (∀ st, st ∈ Statements tpl' → exprHoles (extractExpressionNode st) = [])
  ∧ (∀ st a, st ∈ Statements tpl' → ¬ hasAlias (extractExpressionNode st) a)
  ∧ (∀ n, n ∈ CommandNodesIterator tpl' → ∃ c, Command n = Some c ∧ isCommand c = true).
Proof.
  rewrite compile_app in Hreturns.
  destruct (compile ord ps tpl cenv) as [[[t0 c0] [msg|]]|msg]; [done| |done].
  cbn [compile] in Hreturns.
  rewrite failOnUnresolvedHoles_sorted in Hreturns. simpl in Hreturns.
  destruct (unresolved_names ord (Statements t0)) as (_ & _ & Hholes).
  destruct (sortStrings (range ord (uniqueUnresolved ord (Statements t0))).*1)
    as [|h names] eqn:Hnames; [|done].
  rewrite failOnUnresolvedAlias_aliasesOf in Hreturns. simpl in Hreturns.
  destruct (aliasesOf ord (Statements t0)) as [|a aliases] eqn:Haliases; [|done].
  destruct (validateCommandsPass ord t0 c0) as [[[t1 c1] [msg|]]|msg] eqn:Hvalidate;
    [done| |done].
  apply validateCommands_returns_input in Hvalidate as [-> ->].
  simpl in Hreturns. unfold injectCommandsPass in Hreturns.
  destruct (forCommandNodes _ (Statements t0) tt) as [[[sts' []] e]|msg] eqn:Hloop; [|done].
  simpl in Hreturns. destruct e as [msg|]; [done|]. injection Hreturns as <- <-.
  apply (forCommandNodes_Done_no_error _
           (λ n n', ∃ c, isCommand c = true ∧ n' = setCommand n (Some c)))
    in Hloop as [_ Hsts].
  - cbn [Statements]. unfold CommandNodesIterator. cbn [Statements].
    assert (∀ st', st' ∈ sts' →
              ∃ st, st ∈ Statements t0
                    ∧ match extractExpressionNode st with
                      | ECommand n =>
                          ∃ c, isCommand c = true
                               ∧ extractExpressionNode st' = ECommand (setCommand n (Some c))
                      | EValue v => extractExpressionNode st' = EValue v
                      end) as Hfrom.
    { intros st' (i & Hi)%list_elem_of_lookup.
      destruct (Forall2_lookup_r _ _ _ _ _ Hsts Hi) as (st & Hst & Hrel).
      exists st. split; [by eapply list_elem_of_lookup_2|].
      unfold relStatement, commandNodeOf in Hrel.
      destruct (extractExpressionNode st) as [n|v] eqn:Hexpr.
      - destruct Hrel as (n' & (c & Hc & ->) & ->). exists c. split; [done|].
        by rewrite extract_setExpressionNode.
      - by subst. }
    split; [|split].
    + intros st' Hst'. destruct (Hfrom st' Hst') as (st & Hst & Hexpr).
      assert (exprHoles (extractExpressionNode st) = []) as Hnone.
      { destruct (exprHoles (extractExpressionNode st)) as [|h l] eqn:Hh; [done|].
        assert (h ∈ @nil string) as Hbad; [|by apply elem_of_nil in Hbad].
        apply Hholes, elem_of_holeNames. exists st. split; [done|]. rewrite Hh. by left. }
      destruct (extractExpressionNode st) as [n|v].
      * destruct Hexpr as (c & _ & ->). exact Hnone.
      * by rewrite Hexpr.
    + intros st' a Hst' Ha. destruct (Hfrom st' Hst') as (st & Hst & Hexpr).
      assert (a ∈ aliasesOf ord (Statements t0)) as Hbad.
      { apply elem_of_aliasesOf. exists st. split; [done|].
        destruct (extractExpressionNode st) as [n|v].
        - destruct Hexpr as (c & _ & Hexpr). by rewrite Hexpr in Ha.
        - by rewrite Hexpr in Ha. }
      rewrite Haliases in Hbad. by apply elem_of_nil in Hbad.
    + intros n' (st' & Hst' & Hn')%list_elem_of_omap.
      destruct (Hfrom st' Hst') as (st & Hst & Hexpr). unfold commandNodeOf in Hn'.
      destruct (extractExpressionNode st) as [n|v].
      * destruct Hexpr as (c & Hc & Hexpr). rewrite Hexpr in Hn'. simplify_eq.
        by exists c.
      * by rewrite Hexpr in Hn'.
  - intros n [] n' [] e0. unfold lookupCommand.
    destruct (LookupCommandFunc c0) as [lookup|]; [|done]. simpl.
    destruct (lookup (Action n +:+ Entity n)) as [c|] eqn:Hc; [|done]. simpl.
    destruct (isCommand c) eqn:Hok; [|done]. simpl. intros [= <- <-].
    split; [done|]. by exists c.
Qed.

(** **** checkInvalidReferenceDeclarations and the order of maps *)





End Final.

End FinalProps.

(** ** The properties at instances *)

Module Instances.

Import Fetch Template Spec Examples.
Import FetchProps CheckRefsProps InlineProps ParamsProps ValidateProps MissingHolesProps.

(** A cache that holds nothing, a loader that counts its calls: the second
    [Get("k", loader)] returns what the first stored and calls nothing
    (the count stays at 1); after [Store("k", 5)] the loader is called
    again (the count goes to 2). *)
Lemma cache_one_shot_and_store_reset_witness :
  let first := Get newCache "k" [countingLoader (Some (CInt 7))] 0 in
  let second := Get first.1.2 "k" [countingLoader (Some (CInt 8))] first.2 in
  let third := Get (Store second.1.2 "k" (Some (CInt 5))) "k"
                 [countingLoader (Some (CInt 9))] second.2 in
  first.1.1 = (Some (CInt 7), None) ∧ first.2 = 1
  ∧ second.1.1 = (Some (CInt 7), None) ∧ second.2 = 1
  ∧ third.1.1 = (Some (CInt 9), None) ∧ third.2 = 2.
Proof.
  intros first second third.
  destruct (cache_one_shot_and_store_reset newCache "k" (Some (CInt 5))
              (countingLoader (Some (CInt 7))) [] [countingLoader (Some (CInt 8))] 0 1)
    as (Hsecond & _).
  destruct (cache_one_shot_and_store_reset first.1.2 "k" (Some (CInt 5))
              (countingLoader (Some (CInt 9))) [] [] 1 1)
    as (_ & _ & _ & Hthird).
  split; [reflexivity|]. split; [reflexivity|].
  unfold second. change first.2 with 1. unfold first. rewrite Hsecond.
  split; [reflexivity|]. split; [reflexivity|].
  unfold third, second. change first.2 with 1. unfold first. rewrite Hsecond.
  cbn [fst snd]. fold first. rewrite Hthird. split; reflexivity.
Defined.

(** A cache that holds nothing: [Get("k")] without a loader leaves a slot,
    and the loader of the next [Get("k", loader)] is called (the count of
    calls goes from 0 to 1). *)
Lemma get_without_loader_creates_slot_witness :
  cached (newCache) !! "k" = None
  ∧ Get newCache "k" [] 0
    = ((None, None),
       {| cached := {[ "k" := {| once := false; err := None; result := None |} ]} |}, 0)
  ∧ (Get (Get newCache "k" [] 0).1.2 "k" [countingLoader (Some (CInt 7))] 0).2 = 1.
Proof.
  split; [reflexivity|].
  destruct (get_without_loader_creates_slot newCache "k"
              (countingLoader (Some (CInt 7))) [] 0 0 eq_refl) as (Hget & _ & Hnext).
  split; [exact Hget|]. rewrite Hnext. reflexivity.
Defined.

(** The fetcher of the package's test: [FetchByType] of a type that is not
    there, and of [instance]. *)
Lemma fetch_by_type_witness :
  fetchFuncs instanceFetcher !! "unexisting" = None
  ∧ (FetchByType instanceFetcher tt "unexisting" tt).1.1
    = (Some [], Some "no fetch func defined for resource type 'unexisting'")
  ∧ cached (fcache (FetchByType instanceFetcher tt "unexisting" tt).1.2)
      !! "unexisting_objects"
    = Some {| once := false; err := None; result := None |}
  ∧ cached (fcache (FetchByType instanceFetcher tt "instance" tt).1.2)
      !! "instance_objects"
    = Some {| once := false; err := None; result := Some (CString "raw instances") |}.
Proof.
  split; [reflexivity|].
  destruct (fetch_by_type_graph_and_objects instanceFetcher tt "unexisting" tt)
    as (Hunknown & _ & _ & Hstored).
  destruct (Hunknown eq_refl) as (Hresult & _ & Hobjects).
  split; [exact Hresult|].
  split; [etrans; [exact Hstored|]; by rewrite Hobjects|].
  destruct (fetch_by_type_graph_and_objects instanceFetcher tt "instance" tt)
    as (_ & _ & Hfn & Hstored').
  destruct (Hfn fetchInstances eq_refl) as (Hobjects' & _).
  etrans; [exact Hstored'|]. by rewrite Hobjects'.
Defined.

(** Scenario 2 of the specification, [myinst = create instance
    subnet=$sub]; a declaration made twice; and a template in order. *)
Lemma checkInvalidReferenceDeclarations_witness :
  checkInvalidReferenceDeclarationsPass inOrder tplUndefinedRef (emptyEnv tt)
    = Done (tplUndefinedRef, emptyEnv tt,
            Some ("using reference '$sub' but 'sub' is undefined in template" +:+ LF))
  ∧ checkInvalidReferenceDeclarationsPass inOrder tplRedeclared (emptyEnv tt)
    = Done (tplRedeclared, emptyEnv tt,
            Some ("using reference '$a' but 'a' has already been assigned in template"
                    +:+ LF))
  ∧ checkInvalidReferenceDeclarationsPass inOrder tplInline (emptyEnv tt)
    = Done (tplInline, emptyEnv tt, None).
Proof.
  split; [|split].
  - destruct (checkInvalidReferenceDeclarations_forward_scan inOrder tplUndefinedRef
                (emptyEnv tt)) as (_ & Hundefined & _).
    apply (Hundefined 0 (statement (NDeclaration "myinst" (ECommand createInSubnet)))
             [] "sub" []).
    + intros j st' Hj. lia.
    + reflexivity.
    + reflexivity.
    + intros x Hx. by apply elem_of_nil in Hx.
    + intros Hin. by apply elem_of_nil in Hin.
  - destruct (checkInvalidReferenceDeclarations_forward_scan inOrder tplRedeclared
                (emptyEnv tt)) as (_ & _ & Hassigned & _).
    apply (Hassigned 1 (statement (NDeclaration "a" (ECommand createInstance)))
             "a" (ECommand createInstance)).
    + intros j st' Hj Hst'. assert (j = 0) as -> by lia. simplify_eq/=.
      split.
      * intros r Hr. vm_compute in Hr. by apply elem_of_nil in Hr.
      * intros r _ Hin. by apply elem_of_nil in Hin.
    + reflexivity.
    + reflexivity.
    + intros x Hx. vm_compute in Hx. by apply elem_of_nil in Hx.
    + by left.
  - destruct (checkInvalidReferenceDeclarations_forward_scan inOrder tplInline
                (emptyEnv tt)) as (_ & _ & _ & Hsuccess).
    apply Hsuccess. split.
    + intros i st r Hst Hr. destruct i as [|[|i]]; simplify_eq/=.
      * vm_compute in Hr. by apply elem_of_nil in Hr.
      * vm_compute in Hr. apply list_elem_of_singleton in Hr as ->.
        exists 0, (statement (NDeclaration "foo" (EValue (LiteralValue (CString "bar"))))).
        split; [lia|]. by split.
    + vm_compute. apply NoDup_singleton.
Defined.

(** Scenario 3 of the specification: [foo = "bar"; tag instance name=$foo]. *)
Lemma inlineVariableValue_witness :
  inlineVariableValuePass inOrder tplInline (emptyEnv tt)
  = Done ({| ID := "tpl";
             Statements :=
               [statement (NExpression
                             (ECommand (tagInstance (LiteralValue (CString "bar")))))] |},
          addResolvedVariables "foo" (Some (CString "bar")) (emptyEnv tt), None).
Proof.
  destruct (inlineVariableValue_inlines inOrder tplInline (emptyEnv tt)) as (Hpass & _).
  rewrite Hpass. vm_compute. reflexivity.
Defined.

(** Scenario 5 of the specification, first half: [create instance], the
    command requiring [type], gets the hole [instance.type].  And a
    template whose first node the rule rejects: the node after it is left
    without its hole. *)
Lemma processAndValidateParams_witness :
  LookupCommandFunc envCreateInstance = Some lookupCreateInstance
  ∧ processAndValidateParamsPass inOrder tplCreateBare envCreateInstance
    = Done ({| ID := "tpl";
               Statements :=
                 [statement
                    (NExpression
                       (ECommand
                          {| Action := "create"; Entity := "instance";
                             Params := {[ "type" := HoleValue "instance.type" [] ]};
                             Command := None |}))] |},
            envCreateInstance, None)
  ∧ processAndValidateParamsPass inOrder tplBogus envStrict
    = Done ({| ID := "tpl";
               Statements :=
                 [statement
                    (NExpression
                       (ECommand
                          {| Action := "create"; Entity := "instance";
                             Params := {[ "bogus" := LiteralValue (CInt 1);
                                          "type" := HoleValue "instance.type" [] ]};
                             Command := None |}));
                  statement (NExpression (ECommand createInstanceBare))] |},
            envStrict, Some "create instance: unexpected param(s): bogus").
Proof.
  split; [reflexivity|].
  assert (∀ n, n ∈ CommandNodesIterator tplCreateBare → n = createInstanceBare) as Honly.
  { intros n Hn. change (n ∈ [createInstanceBare]) in Hn.
    by apply list_elem_of_singleton in Hn. }
  destruct (processAndValidateParams_holes_then_validate inOrder tplCreateBare
              envCreateInstance lookupCreateInstance eq_refl) as (_ & Hok & _).
  split.
  - rewrite Hok; [vm_compute; reflexivity|].
    intros n ->%Honly. vm_compute. reflexivity.
  - destruct (processAndValidateParams_holes_then_validate inOrder tplBogus
                envStrict lookupStrict eq_refl) as (_ & _ & Hfail).
    rewrite (Hfail 0 (statement (NExpression (ECommand createInstanceBogus)))
               createInstanceBogus "create instance: unexpected param(s): bogus").
    + vm_compute. reflexivity.
    + intros m Hm. change (m ∈ []) in Hm. inversion Hm.
    + reflexivity.
    + reflexivity.
    + vm_compute. reflexivity.
Defined.

(** Scenario 7 of the specification: two command nodes, one validation
    error each.  And a template whose second command the lookup does not
    find. *)
Lemma validateCommands_witness :
  LookupCommandFunc envInvalid = Some lookupInvalid
  ∧ validateCommandsPass inOrder tplTwoCommands envInvalid
    = Done (tplTwoCommands, envInvalid,
            Some ("validation errors:"
                    +:+ LF +:+ TAB +:+ "- create instance: type is unknown"
                    +:+ LF +:+ TAB +:+ "- delete instance: id is unknown"))
  ∧ validateCommandsPass inOrder tplUnknownCommand envInvalid
    = Done (tplUnknownCommand, envInvalid,
            Some "validate: cannot find command for 'stopinstance'").
Proof.
  split; [reflexivity|].
  destruct (validateCommands_collects_and_reports inOrder tplTwoCommands envInvalid
              lookupInvalid eq_refl) as (Hpass & _).
  split.
  - rewrite Hpass; [vm_compute; reflexivity|].
    intros n Hn. change (n ∈ [createInstance; deleteInstance]) in Hn.
    apply elem_of_cons in Hn as [->|Hn]; [by eexists|].
    apply list_elem_of_singleton in Hn as ->. by eexists.
  - destruct (validateCommands_collects_and_reports inOrder tplUnknownCommand envInvalid
                lookupInvalid eq_refl) as (_ & _ & Hmissing).
    apply (Hmissing 1 (statement (NExpression (ECommand stopInstance))) stopInstance).
    + intros m Hm. change (m ∈ [createInstance]) in Hm.
      apply list_elem_of_singleton in Hm as ->. by eexists.
    + reflexivity.
    + reflexivity.
    + reflexivity.
Defined.


Import SpecFetch SpecPipeline SpecHoles SpecAlias SpecCommands.
Import CacheProps PipelineProps HolesProps AliasPassProps ReplaceNodeProps CommandsProps.
Import FinalProps.

(** Two keys of one cache: the loader of ["b"] runs although that of
    ["a"] has run, and returns its own value. *)
Lemma cache_keys_are_independent_witness :
  "a" ≠ "b"
  ∧ (Get (Get newCache "a" [countingLoader (Some (CInt 1))] 0).1.2 "b"
       [countingLoader (Some (CInt 2))] 1).1.1
    = (Some (CInt 2), None)
  ∧ (Get (Get newCache "a" [countingLoader (Some (CInt 1))] 0).1.2 "b"
       [countingLoader (Some (CInt 2))] 1).2 = 2.
Proof.
  split; [done|].
  destruct (cache_keys_are_independent newCache "a" "b" None
              [countingLoader (Some (CInt 1))] [countingLoader (Some (CInt 2))] 0 1)
    as (_ & _ & Hresult & Hworld & _); [done|].
  rewrite Hresult, Hworld. split; reflexivity.
Defined.

(** A slot that has fired, then a [Get] on its key with another loader, a
    [Get] on another key and a [Get] without a loader: the slot holds what
    it held, and no loader of its key has run (the count of calls went
    from 1 to 2 for the other key only). *)
Lemma fired_slot_survives_every_get_witness :
  let c := (Get newCache "k" [countingLoader (Some (CInt 7))] 0).1.2 in
  let calls := [("k", [countingLoader (Some (CInt 8))]);
                ("j", [countingLoader (Some (CInt 9))]);
                ("k", [])] in
  cached c !! "k" = Some {| once := true; err := None; result := Some (CInt 7) |}
  ∧ cached (getAll calls c 1).1 !! "k"
    = Some {| once := true; err := None; result := Some (CInt 7) |}
  ∧ (getAll calls c 1).2 = 2
  ∧ (Get (getAll calls c 1).1 "k" [countingLoader (Some (CInt 8))] 2).1.1
    = (Some (CInt 7), None).
Proof.
  intros c calls. split; [reflexivity|].
  destruct (fired_slot_survives_every_get c "k"
              {| once := true; err := None; result := Some (CInt 7) |}
              calls [countingLoader (Some (CInt 8))] 1 2 eq_refl eq_refl)
    as [Hslot Hget].
  split; [exact Hslot|]. split; [reflexivity|]. by rewrite Hget.
Defined.

(** The fetcher of the package's test, [FetchByType] of [instance]: the
    graph holds the two instances. *)
Lemma fetch_by_type_runs_the_func_witness :
  fetchFuncs instanceFetcher !! "instance" = Some fetchInstances
  ∧ (FetchByType instanceFetcher tt "instance" tt).1.1
    = (Some [ {| resType := "instance"; resId := "inst_1" |};
              {| resType := "instance"; resId := "inst_2" |} ], None).
Proof.
  split; [reflexivity|].
  destruct (fetch_by_type_runs_the_func instanceFetcher tt "instance" tt fetchInstances
              [ {| resType := "instance"; resId := "inst_1" |};
                {| resType := "instance"; resId := "inst_2" |} ]
              (Some (CString "raw instances")) None newCache tt eq_refl eq_refl)
    as (Hresult & _).
  exact Hresult.
Defined.

(** The fetcher that [NewFetcher] makes of one function. *)
Lemma new_fetcher_registers_funcs_witness :
  resourceTypes newInstanceFetcher = ["instance"]
  ∧ (FetchByType newInstanceFetcher tt "subnet" tt).1.1
    = (Some [], Some "no fetch func defined for resource type 'subnet'").
Proof.
  destruct (new_fetcher_registers_funcs inOrder {[ "instance" := fetchInstances ]} tt tt)
    as (_ & _ & Htypes & _ & _ & Hunknown).
  split; [exact Htypes|]. exact (Hunknown "subnet" eq_refl).
Defined.

(** Scenario 1 of the specification at [verifyCommandsDefined]: the lookup
    knows no command. *)
Lemma verifyCommandsDefined_witness :
  verifyCommandsDefinedPass inOrder tplCreateInstance envNoCommand
  = Done (tplCreateInstance, envNoCommand,
          Some "cannot find command for 'createinstance'")
  ∧ verifyCommandsDefinedPass inOrder tplCreateInstance (emptyEnv tt)
    = Done (tplCreateInstance, emptyEnv tt, Some "command lookuper is undefined").
Proof.
  split.
  - destruct (verifyCommandsDefined_finds_first_unknown inOrder tplCreateInstance
                envNoCommand) as (_ & Hlookup & _).
    destruct (Hlookup (λ _, None) eq_refl) as (Hpass & _). rewrite Hpass. reflexivity.
  - destruct (verifyCommandsDefined_finds_first_unknown inOrder tplCreateInstance
                (emptyEnv tt)) as (Hnil & _).
    by apply Hnil.
Defined.

(** A template that [verifyCommandsDefined] accepts: [injectCommands] binds
    the command. *)
Lemma verified_commands_are_found_witness :
  verifyCommandsDefinedPass inOrder tplCreateInstance envCreateInstance
  = Done (tplCreateInstance, envCreateInstance, None)
  ∧ injectCommandsPass inOrder tplCreateInstance envCreateInstance
    = Done (tplCreateInstanceBound, envCreateInstance, None).
Proof.
  split; [reflexivity|].
  destruct (verified_commands_are_found inOrder tplCreateInstance envCreateInstance eq_refl)
    as (lookup & Hlookup & _ & _ & _ & Hinject).
  assert (lookup = lookupCreateInstance) as -> by (by injection Hlookup).
  rewrite Hinject; [reflexivity|].
  intros n c Hn Hc. change (n ∈ [createInstance]) in Hn.
  apply list_elem_of_singleton in Hn as ->. by injection Hc as <-.
Defined.

(** [injectCommands] where it returns. *)
Lemma injectCommands_returns_no_error_witness :
  injectCommandsPass inOrder tplCreateInstance envCreateInstance
  = Done (tplCreateInstanceBound, envCreateInstance, None)
  ∧ Statements tplCreateInstanceBound
    = mapCommandNode (λ n, setCommand n (lookupCreateInstance (Action n +:+ Entity n)))
        <$> Statements tplCreateInstance.
Proof.
  assert (injectCommandsPass inOrder tplCreateInstance envCreateInstance
          = Done (tplCreateInstanceBound, envCreateInstance, None)) as Hpass
    by reflexivity.
  split; [exact Hpass|].
  destruct (injectCommands_returns_no_error inOrder tplCreateInstance envCreateInstance
              tplCreateInstanceBound envCreateInstance None Hpass)
    as (_ & _ & _ & Hstatements & _).
  by destruct (Hstatements lookupCreateInstance eq_refl) as [Hsts _].
Defined.


(** The two holes of [tplHoles], listed in ascending order. *)
Lemma failOnUnresolvedHoles_witness :
  failOnUnresolvedHolesPass reversed tplHoles (emptyEnv tt)
  = Done (tplHoles, emptyEnv tt,
          Some "template contains unresolved holes: [instance.name instance.type]").
Proof.
  destruct (failOnUnresolvedHoles_lists_sorted_names reversed tplHoles (emptyEnv tt))
    as (Hpass & _).
  rewrite Hpass. vm_compute. reflexivity.
Defined.

(** Fillers that cover one of the two holes of [tplHoles]: the hole is
    filled and the filler recorded; the filler that names no hole is not. *)
Lemma resolveHoles_fills_covered_holes_witness :
  resolveHolesPass inOrder tplHoles envFillers
  = Done (tplHolesTypeFilled,
          addToProcessedFillers {[ "instance.type" := Some (CString "t2.micro") ]}
            envFillers,
          None).
Proof.
  destruct (resolveHoles_fills_covered_holes inOrder tplHoles envFillers) as (Hpass & _).
  rewrite Hpass. vm_compute. reflexivity.
Defined.

(** The same fillers, with [failOnUnresolvedHoles] after [resolveHoles]:
    the hole that is not covered is reported. *)
Lemma resolveHoles_then_failOnUnresolvedHoles_witness :
  compile inOrder [resolveHolesPass; failOnUnresolvedHolesPass] tplHoles envFillers
  = Done (tplHolesTypeFilled,
          addToProcessedFillers {[ "instance.type" := Some (CString "t2.micro") ]}
            envFillers,
          Some "template contains unresolved holes: [instance.name]").
Proof.
  pose proof (resolveHoles_then_failOnUnresolvedHoles inOrder tplHoles envFillers) as H.
  cbv zeta in H. destruct H as (Hcompile & _).
  rewrite Hcompile. vm_compute. reflexivity.
Defined.

(** No callback: the holes of [tplHoles] stay. *)
Lemma resolveMissingHoles_without_callback_witness :
  MissingHolesFunc (emptyEnv tt) = None
  ∧ resolveMissingHolesPass inOrder tplHoles (emptyEnv tt)
    = Done (tplHoles, emptyEnv tt, None).
Proof.
  split; [reflexivity|].
  exact (resolveMissingHoles_without_callback inOrder tplHoles (emptyEnv tt) eq_refl).
Defined.

(** Scenario 5 of the specification, the end: the callback answers every
    hole with its name, and both holes are filled. *)
Lemma resolveMissingHoles_fills_with_answers_witness :
  MissingHolesFunc envPrompt = Some promptCallback
  ∧ (∃ cenv', resolveMissingHolesPass inOrder tplHoles envPrompt
              = Done (tplHolesAnswered, cenv', None)
              ∧ processedFillers cenv'
                = {[ "instance.name" := Some (CString "instance.name");
                     "instance.type" := Some (CString "instance.type") ]}).
Proof.
  split; [reflexivity|].
  pose proof (resolveMissingHoles_fills_with_answers inOrder tplHoles envPrompt
                promptCallback eq_refl) as H.
  cbv zeta in H. destruct H as (Hpass & _).
  eexists. split; [rewrite Hpass; vm_compute; reflexivity|]. vm_compute. reflexivity.
Defined.

(** The two aliases of [tplAliases], as the two orders list them. *)
Lemma failOnUnresolvedAlias_witness :
  failOnUnresolvedAliasPass inOrder tplAliases (emptyEnv tt)
  = Done (tplAliases, emptyEnv tt, Some "template contains unresolved alias: [a b]")
  ∧ failOnUnresolvedAliasPass reversed tplAliases (emptyEnv tt)
    = Done (tplAliases, emptyEnv tt, Some "template contains unresolved alias: [b a]").
Proof.
  destruct (failOnUnresolvedAlias_lists_every_alias inOrder tplAliases (emptyEnv tt))
    as (Hin & _).
  destruct (failOnUnresolvedAlias_lists_every_alias reversed tplAliases (emptyEnv tt))
    as (Hrev & _).
  cbv zeta in Hin, Hrev. rewrite Hin, Hrev. split; vm_compute; reflexivity.
Defined.

(** No resolver: the aliases of [tplAliases] stay, no error. *)
Lemma resolveAlias_without_resolver_witness :
  AliasFunc (emptyEnv tt) = None
  ∧ resolveAliasPass inOrder tplAliases (emptyEnv tt) = Done (tplAliases, emptyEnv tt, None).
Proof.
  split; [reflexivity|].
  by destruct (resolveAlias_without_resolver inOrder tplAliases (emptyEnv tt) eq_refl).
Defined.


(** A resolver that knows every alias: the template it leaves passes
    [failOnUnresolvedAlias]. *)
Lemma resolveAlias_then_failOnUnresolvedAlias_witness :
  AliasFunc envResolveEvery = Some resolveEvery
  ∧ resolveAliasPass inOrder tplAliases envResolveEvery
    = Done (tplAliasesResolved,
            setLog ["alias: resolved 'a' to 'id-a' for key subnet";
                    "alias: resolved 'b' to 'id-b' for key vpc"] envResolveEvery,
            None)
  ∧ failOnUnresolvedAliasPass reversed tplAliasesResolved
      (setLog ["alias: resolved 'a' to 'id-a' for key subnet";
               "alias: resolved 'b' to 'id-b' for key vpc"] envResolveEvery)
    = Done (tplAliasesResolved,
            setLog ["alias: resolved 'a' to 'id-a' for key subnet";
                    "alias: resolved 'b' to 'id-b' for key vpc"] envResolveEvery,
            None).
Proof.
  split; [reflexivity|].
  assert (resolveAliasPass inOrder tplAliases envResolveEvery
          = Done (tplAliasesResolved,
                  setLog ["alias: resolved 'a' to 'id-a' for key subnet";
                          "alias: resolved 'b' to 'id-b' for key vpc"] envResolveEvery,
                  None)) as Hpass by (vm_compute; reflexivity).
  split; [exact Hpass|].
  destruct (resolveAlias_then_failOnUnresolvedAlias inOrder reversed tplAliases
              tplAliasesResolved envResolveEvery _ None resolveEvery eq_refl Hpass)
    as (Hok & _).
  by apply Hok.
Defined.

(** Two statements hold the node: the last one is replaced, by two
    statements.  And a node that no statement holds. *)
Lemma ReplaceNodeByTemplate_witness :
  ReplaceNodeByTemplate isCreate "create instance" tplThree tplReplacement
  = ({| ID := "tpl";
        Statements := [statement (NExpression (ECommand createInstance));
                       statement (NExpression (ECommand (tagInstance (RefValue "foo"))));
                       statement (NExpression (ECommand deleteInstance));
                       statement (NExpression (ECommand stopInstance))] |},
     None)
  ∧ ReplaceNodeByTemplate isCreate "create instance" tplReplacement tplThree
    = (tplReplacement, Some "node 'create instance' not found").
Proof.
  destruct (ReplaceNodeByTemplate_replaces_last_match isCreate "create instance"
              tplThree tplReplacement) as (_ & Hfound & _).
  destruct (ReplaceNodeByTemplate_replaces_last_match isCreate "create instance"
              tplReplacement tplThree) as (Hmissing & _).
  split.
  - destruct (Hfound 2 (statement (NExpression (ECommand createInstance))))
      as [Hresult _]; [reflexivity|reflexivity| |exact Hresult].
    intros j st' Hj Hst'. apply lookup_lt_Some in Hst'. simpl in Hst'. lia.
  - apply Hmissing. intros st Hst.
    apply elem_of_cons in Hst as [->|Hst]; [reflexivity|].
    apply list_elem_of_singleton in Hst as ->. reflexivity.
Defined.

(** [verifyCommandsDefined] and then [processAndValidateParams] on
    [create instance]: the template has gained a hole, the command is the
    same, and [verifyCommandsDefined] accepts the template still. *)
Lemma later_passes_keep_the_commands_witness :
  compile inOrder [verifyCommandsDefinedPass; processAndValidateParamsPass]
    tplCreateBare envCreateInstance
  = Done (tplCreateWithHole, envCreateInstance, None)
  ∧ commandNames (Statements tplCreateWithHole) = [("create", "instance")]
  ∧ verifyCommandsDefinedPass inOrder tplCreateWithHole envCreateInstance
    = Done (tplCreateWithHole, envCreateInstance, None).
Proof.
  assert (compile inOrder [verifyCommandsDefinedPass; processAndValidateParamsPass]
            tplCreateBare envCreateInstance
          = Done (tplCreateWithHole, envCreateInstance, None)) as Hcompile
    by (vm_compute; reflexivity).
  split; [exact Hcompile|].
  destruct (later_passes_keep_the_commands inOrder
              [verifyCommandsDefinedPass; processAndValidateParamsPass]
              tplCreateBare tplCreateWithHole envCreateInstance envCreateInstance None)
    as (Hnames & _ & _ & Hverified); [|exact Hcompile|].
  - intros pass Hpass. unfold laterPasses.
    apply elem_of_cons in Hpass as [->|Hpass]; [by left|].
    apply list_elem_of_singleton in Hpass as ->. right. right. by left.
  - split; [by rewrite Hnames|]. by apply Hverified.
Defined.

(** Two passes, the first of which fails: the second is not run. *)
Lemma compile_stops_at_the_first_error_witness :
  compile inOrder ([verifyCommandsDefinedPass] ++ [injectCommandsPass])
    tplCreateInstance envNoCommand
  = Done (tplCreateInstance, envNoCommand,
          Some "cannot find command for 'createinstance'").
Proof.
  destruct (compile_stops_at_the_first_error inOrder [verifyCommandsDefinedPass]
              [injectCommandsPass] tplCreateInstance envNoCommand) as (Happ & _).
  rewrite Happ. reflexivity.
Defined.

(** The holes of [tplHoles]: both orders give the same error. *)
Lemma failOnUnresolvedHoles_ignores_map_order_witness :
  failOnUnresolvedHolesPass inOrder tplHoles (emptyEnv tt)
  = failOnUnresolvedHolesPass reversed tplHoles (emptyEnv tt).
Proof.
  exact (failOnUnresolvedHoles_ignores_map_order inOrder reversed tplHoles (emptyEnv tt)).
Defined.

(** A cache with a fired slot, after [Reset]: the loader runs again. *)
Lemma reset_forgets_every_slot_witness :
  (Get (Reset (Get newCache "k" [countingLoader (Some (CInt 7))] 0).1.2) "k"
     [countingLoader (Some (CInt 8))] 1).1.1 = (Some (CInt 8), None)
  ∧ (Get (Reset (Get newCache "k" [countingLoader (Some (CInt 7))] 0).1.2) "k"
       [countingLoader (Some (CInt 8))] 1).2 = 2.
Proof.
  destruct (reset_forgets_every_slot
              (Get newCache "k" [countingLoader (Some (CInt 7))] 0).1.2 "k"
              (countingLoader (Some (CInt 8))) [] 1) as (_ & _ & Hget).
  rewrite Hget. split; reflexivity.
Defined.

(** The four passes that end the runner mode, on a template that they
    accept. *)
Lemma final_passes_leave_no_hole_no_alias_witness :
  compile inOrder ([] ++ [failOnUnresolvedHolesPass; failOnUnresolvedAliasPass;
                          validateCommandsPass; injectCommandsPass])
    tplCreateInstance envCreateInstance
  = Done (tplCreateInstanceBound, envCreateInstance, None)
  ∧ (∀ n, n ∈ CommandNodesIterator tplCreateInstanceBound →
          ∃ c, Command n = Some c ∧ isCommand c = true).
Proof.
  assert (compile inOrder ([] ++ [failOnUnresolvedHolesPass; failOnUnresolvedAliasPass;
                                  validateCommandsPass; injectCommandsPass])
            tplCreateInstance envCreateInstance
          = Done (tplCreateInstanceBound, envCreateInstance, None)) as Hcompile
    by (vm_compute; reflexivity).
  split; [exact Hcompile|].
  by destruct (final_passes_leave_no_hole_no_alias inOrder [] tplCreateInstance
                 tplCreateInstanceBound envCreateInstance envCreateInstance Hcompile)
    as (_ & _ & Hbound).
Defined.


End Instances.
